(** * json-formatter: the JSON utilities and the XML / CSV / YAML converters

    A shallow embedding of [app/utils/jsonFormatter.ts] and
    [app/utils/converters.ts], together with the parts of the ECMAScript
    runtime they call ([JSON.parse], [JSON.stringify], [String(...)],
    [String.prototype.split] and friends), and the properties of the
    specification proved about them. *)

From Stdlib Require Import Strings.String Strings.Ascii.
From Stdlib Require Import List ZArith NArith PArith Bool Lia Arith.
Import ListNotations.

(** ** ECMAScript strings

    A JavaScript string is a finite sequence of UTF-16 code units.  The
    regular expressions of the source have no [u] flag and every string
    method it calls works code unit by code unit, so this is the level at
    which the program sees its text. *)

Definition char16 := N.
Definition jsstring := list char16.

(** Source literals are written as ordinary string literals. *)
Definition lit (s : string) : jsstring :=
  map N_of_ascii (list_ascii_of_string s).

Module Ch.
Definition tab : char16 := 9%N.
Definition lf : char16 := 10%N.
Definition cr : char16 := 13%N.
Definition space : char16 := 32%N.
Definition quote : char16 := 34%N.
Definition hash : char16 := 35%N.
Definition amp : char16 := 38%N.
Definition apos : char16 := 39%N.
Definition plus : char16 := 43%N.
Definition comma : char16 := 44%N.
Definition minus : char16 := 45%N.
Definition dot : char16 := 46%N.
Definition slash : char16 := 47%N.
Definition zero : char16 := 48%N.
Definition colon : char16 := 58%N.
Definition lt : char16 := 60%N.
Definition gt : char16 := 62%N.
Definition upper_e : char16 := 69%N.
Definition lbracket : char16 := 91%N.
Definition backslash : char16 := 92%N.
Definition rbracket : char16 := 93%N.
Definition underscore : char16 := 95%N.
Definition lower_e : char16 := 101%N.
Definition lbrace : char16 := 123%N.
Definition rbrace : char16 := 125%N.
End Ch.

Definition jsstring_eqb (a b : jsstring) : bool :=
  if list_eq_dec N.eq_dec a b then true else false.

(** [s.startsWith(p)] *)
Fixpoint starts_with (p s : jsstring) : bool :=
  match p, s with
  | [], _ => true
  | _ :: _, [] => false
  | a :: p', b :: s' => (a =? b)%N && starts_with p' s'
  end.

(** [s.includes(p)] *)
Fixpoint includes (p s : jsstring) : bool :=
  starts_with p s ||
  match s with
  | [] => false
  | _ :: s' => includes p s'
  end.

(** [s.replace(/c/g, by)] for a one-character pattern [c]. *)
Definition replace_all (c : char16) (by_ : jsstring) (s : jsstring) : jsstring :=
  flat_map (fun x => if (x =? c)%N then by_ else [x]) s.

(** [s.split(sep)] for a one-character separator: the pieces between the
    separators, never an empty array. *)
Fixpoint split (sep : char16) (s : jsstring) : list jsstring :=
  match s with
  | [] => [[]]
  | c :: s' =>
      if (c =? sep)%N then [] :: split sep s'
      else match split sep s' with
           | [] => [[c]]
           | piece :: pieces => (c :: piece) :: pieces
           end
  end.

(** [parts.join(sep)] *)
Fixpoint join (sep : jsstring) (parts : list jsstring) : jsstring :=
  match parts with
  | [] => []
  | [p] => p
  | p :: ps => p ++ sep ++ join sep ps
  end.

(** [s.repeat(n)] *)
Fixpoint repeat_str (s : jsstring) (n : nat) : jsstring :=
  match n with
  | O => []
  | S n' => s ++ repeat_str s n'
  end.

(** White space and line terminators, as [String.prototype.trim] strips
    them. *)
Definition is_js_space (c : char16) : bool :=
  ((9 <=? c) && (c <=? 13) || (c =? 32) || (c =? 160) || (c =? 5760)
   || ((8192 <=? c) && (c <=? 8202)) || (c =? 8232) || (c =? 8233)
   || (c =? 8239) || (c =? 8287) || (c =? 12288) || (c =? 65279))%N.

Fixpoint drop_while (f : char16 -> bool) (s : jsstring) : jsstring :=
  match s with
  | [] => []
  | c :: s' => if f c then drop_while f s' else s
  end.

(** [s.trim()] *)
Definition trim (s : jsstring) : jsstring :=
  rev (drop_while is_js_space (rev (drop_while is_js_space s))).

(** ** Decimal digits *)

Definition is_digit (c : char16) : bool := ((48 <=? c) && (c <=? 57))%N.
Definition digit_char (d : N) : char16 := (48 + d)%N.
Definition digit_val (c : char16) : N := (c - 48)%N.

(** The decimal digits of [n], most significant first, without leading
    zeros ([0] is the single digit zero). *)
Fixpoint digits_aux (fuel : nat) (n : N) (acc : list N) : list N :=
  match fuel with
  | O => n :: acc
  | S f => if (n <? 10)%N then n :: acc
           else digits_aux f (n / 10)%N ((n mod 10)%N :: acc)
  end.

Definition digits_of (n : N) : list N := digits_aux (N.to_nat (N.size n)) n [].

Definition digits_value (ds : list N) : N :=
  fold_left (fun acc d => (10 * acc + d)%N) ds 0%N.

Definition show_digits (ds : list N) : jsstring := map digit_char ds.

(** The decimal text of a natural number ([String(index)] for an array
    index). *)
Definition show_N (n : N) : jsstring := show_digits (digits_of n).
Definition show_nat (n : nat) : jsstring := show_N (N.of_nat n).

(** The longest prefix of digits of [s], and what follows it. *)
Fixpoint span_digits (s : jsstring) : list N * jsstring :=
  match s with
  | [] => ([], [])
  | c :: s' =>
      if is_digit c then
        let '(ds, rest) := span_digits s' in (digit_val c :: ds, rest)
      else ([], s)
  end.

(** ** ECMAScript numbers

    A Number is an IEEE 754 binary64 value.  [NFinite neg m e] is the
    value [(-1)^neg * m * 2^e]; the two zeros are one value here, since
    [===], [String], [JSON.stringify] and [!] do not tell them apart.
    NaN is left out: [JSON.parse] never produces it. *)

Inductive Number : Type :=
| NZero
| NFinite (neg : bool) (m : positive) (e : Z)
| NInfinity (neg : bool).

Definition Number_eqb (x y : Number) : bool :=
  match x, y with
  | NZero, NZero => true
  | NFinite s m e, NFinite s' m' e' => Bool.eqb s s' && (m =? m')%positive && (e =? e')%Z
  | NInfinity s, NInfinity s' => Bool.eqb s s'
  | _, _ => false
  end.

(** A finite non-zero double has a 53-bit significand at an exponent in
    [-1074, 971], or a shorter one at the least exponent. *)
Definition canonical (m : positive) (e : Z) : Prop :=
  (Z.pos m < 2 ^ 53 /\ -1074 <= e <= 971 /\ (2 ^ 52 <= Z.pos m \/ e = -1074))%Z.

Definition Number_wf (x : Number) : Prop :=
  match x with
  | NFinite _ m e => canonical m e
  | _ => True
  end.

Definition Number_finite (x : Number) : bool :=
  match x with
  | NInfinity _ => false
  | _ => true
  end.

Local Open Scope Z_scope.

(** [x * base^k] for [k >= 0], and [x] otherwise: a ratio is scaled by
    [base^k] with [scale base a k / scale base b (-k)]. *)
Definition scale (base x k : Z) : Z := x * base ^ Z.max 0 k.

(** [floor (log2 (a / b))] for positive [a] and [b]. *)
Definition floor_log2_ratio (a b : Z) : Z :=
  let l0 := Z.log2 a - Z.log2 b in
  if scale 2 b l0 <=? scale 2 a (- l0) then l0 else l0 - 1.

(** The double nearest to [a / b] (positive [a], [b]), ties to the even
    significand, overflowing to infinity and underflowing through the
    subnormals to zero: the rounding of the mathematical value that
    ECMAScript applies to a numeric literal. *)
Definition round_ratio (neg : bool) (a b : Z) : Number :=
  let l := floor_log2_ratio a b in
  let e := Z.max (l - 52) (-1074) in
  let n := scale 2 a (- e) in
  let d := scale 2 b e in
  let q := n / d in
  let r := n mod d in
  let m := if (d <? 2 * r) || ((d =? 2 * r) && Z.odd q) then q + 1 else q in
  let e' := if m =? 2 ^ 53 then e + 1 else e in
  let m' := if m =? 2 ^ 53 then 2 ^ 52 else m in
  if 971 <? e' then NInfinity neg
  else match m' with
       | Z.pos p => NFinite neg p e'
       | _ => NZero
       end.

(** The Number denoted by the decimal [M * 10^E]. *)
Definition Number_of_decimal (neg : bool) (M : N) (E : Z) : Number :=
  match M with
  | N0 => NZero
  | Npos p => round_ratio neg (scale 10 (Z.pos p) E) (scale 10 1 (- E))
  end.

(** *** Number::toString

    ECMA-262 picks integers [n], [k], [s] with [10^(k-1) <= s < 10^k], the
    Number value of [s * 10^(n-k)] being [x], and [k] as small as
    possible; of several [s] the one nearest to [x], the even one on a
    tie.  A decimal is kept as the digits of [s] and the exponent [n]. *)

Definition decimal := (list N * Z)%type.

Definition decimal_denotes (neg : bool) (d : decimal) : Number :=
  Number_of_decimal neg (digits_value (fst d)) (snd d - Z.of_nat (length (fst d))).

Definition ndigits (a : Z) : Z := Z.of_nat (length (digits_of (Z.to_N a))).

(** The [n] with [10^(n-1) <= a / b < 10^n]. *)
Definition dec_exponent (a b : Z) : Z :=
  let n1 := ndigits a - ndigits b in
  if scale 10 b n1 <=? scale 10 a (- n1) then n1 + 1 else n1.

Definition mk_decimal (s n0 k : Z) : decimal :=
  if s =? 10 ^ k then ([1%N], n0 + 1) else (digits_of (Z.to_N s), n0).

(** The two [k]-digit decimals around [a / b], the nearer one first. *)
Definition candidates (a b n0 k : Z) : decimal * decimal :=
  let num := scale 10 a (k - n0) in
  let den := scale 10 b (n0 - k) in
  let lo := num / den in
  let r := num mod den in
  let dlo := mk_decimal lo n0 k in
  let dhi := mk_decimal (lo + 1) n0 k in
  if (2 * r <? den) || ((2 * r =? den) && Z.even lo) then (dlo, dhi) else (dhi, dlo).

(** The exact decimal expansion of [m * 2^e]. *)
Definition exact_decimal (m : positive) (e : Z) : decimal :=
  let s := if 0 <=? e then Z.pos m * 2 ^ e else Z.pos m * 5 ^ (- e) in
  let ds := digits_of (Z.to_N s) in
  (ds, Z.of_nat (length ds) + Z.min 0 e).

Fixpoint shortest_from (fuel : nat) (k : Z) (neg : bool) (m : positive) (e : Z)
    (a b n0 : Z) : decimal :=
  match fuel with
  | O => exact_decimal m e
  | S f =>
      let '(d1, d2) := candidates a b n0 k in
      if Number_eqb (decimal_denotes neg d1) (NFinite neg m e) then d1
      else if Number_eqb (decimal_denotes neg d2) (NFinite neg m e) then d2
      else shortest_from f (k + 1) neg m e a b n0
  end.

(** Seventeen significant digits identify every double; the exact
    expansion after them keeps the function total. *)
Definition shortest_decimal (neg : bool) (m : positive) (e : Z) : decimal :=
  let a := scale 2 (Z.pos m) e in
  let b := scale 2 1 (- e) in
  shortest_from 17 1 neg m e a b (dec_exponent a b).

Definition zeros (n : Z) : jsstring := repeat_str [Ch.zero] (Z.to_nat n).

Definition show_exponent (e : Z) : jsstring :=
  [Ch.lower_e] ++ [if 0 <=? e then Ch.plus else Ch.minus] ++ show_N (Z.abs_N e).

(** Steps 6 to 10 of Number::toString: the four layouts. *)
Definition format_decimal (d : decimal) : jsstring :=
  let '(ds, n) := d in
  let k := Z.of_nat (length ds) in
  if (k <=? n) && (n <=? 21) then
    show_digits ds ++ zeros (n - k)
  else if (0 <? n) && (n <=? 21) then
    show_digits (firstn (Z.to_nat n) ds) ++ [Ch.dot] ++ show_digits (skipn (Z.to_nat n) ds)
  else if (-6 <? n) && (n <=? 0) then
    [Ch.zero; Ch.dot] ++ zeros (- n) ++ show_digits ds
  else
    match ds with
    | [d0] => show_digits [d0] ++ show_exponent (n - 1)
    | d0 :: ds' => show_digits [d0] ++ [Ch.dot] ++ show_digits ds' ++ show_exponent (n - 1)
    | [] => show_exponent (n - 1)
    end.

(** [String(x)] for a Number [x]. *)
Definition NumberToString (x : Number) : jsstring :=
  match x with
  | NZero => [Ch.zero]
  | NInfinity false => lit "Infinity"
  | NInfinity true => lit "-Infinity"
  | NFinite neg m e =>
      (if neg then [Ch.minus] else []) ++ format_decimal (shortest_decimal neg m e)
  end.

Local Close Scope Z_scope.

(** ** JSON values

    What [JSON.parse] returns.  An object is the sequence of its own
    properties in the order [Object.keys], [Object.entries] and
    [JSON.stringify] enumerate them. *)

Unset Elimination Schemes.
Inductive JsonValue : Type :=
| JNull
| JBool (b : bool)
| JNum (x : Number)
| JStr (s : jsstring)
| JArr (items : list JsonValue)
| JObj (entries : list (jsstring * JsonValue)).
Set Elimination Schemes.

Definition JsonObject := list (jsstring * JsonValue).

(** [typeof v === 'object' && v !== null] *)
Definition is_container (v : JsonValue) : bool :=
  match v with
  | JArr _ | JObj _ => true
  | _ => false
  end.

(** [!v] *)
Definition falsy (v : JsonValue) : bool :=
  match v with
  | JNull | JBool false | JNum NZero | JStr [] => true
  | _ => false
  end.

(** [o[key]]: [None] is [undefined]. *)
Fixpoint get_property (key : jsstring) (o : JsonObject) : option JsonValue :=
  match o with
  | [] => None
  | (k, v) :: o' => if jsstring_eqb k key then Some v else get_property key o'
  end.

Definition has_property (key : jsstring) (o : JsonObject) : bool :=
  match get_property key o with
  | Some _ => true
  | None => false
  end.

(** An array index is the canonical decimal text of an integer below
    [2^32 - 1]; such keys are enumerated first, in ascending order. *)
Definition array_index (key : jsstring) : option N :=
  match span_digits key with
  | (d0 :: ds, []) =>
      if (d0 =? 0)%N && negb (Nat.eqb (length ds) 0) then None
      else
        let i := digits_value (d0 :: ds) in
        if (i <? 4294967295)%N then Some i else None
  | _ => None
  end.

Fixpoint replace_property (key : jsstring) (v : JsonValue) (o : JsonObject) : JsonObject :=
  match o with
  | [] => []
  | (k, w) :: o' =>
      if jsstring_eqb k key then (k, v) :: o' else (k, w) :: replace_property key v o'
  end.

Fixpoint insert_index (i : N) (key : jsstring) (v : JsonValue) (o : JsonObject) : JsonObject :=
  match o with
  | [] => [(key, v)]
  | (k, w) :: o' =>
      match array_index k with
      | Some j => if (j <? i)%N then (k, w) :: insert_index i key v o'
                  else (key, v) :: o
      | None => (key, v) :: o
      end
  end.

(** [CreateDataProperty(o, key, v)]: an existing property keeps its place
    and takes the new value; a new one goes among the array indices or to
    the end. *)
Definition set_property (o : JsonObject) (kv : jsstring * JsonValue) : JsonObject :=
  let '(key, v) := kv in
  if has_property key o then replace_property key v o
  else match array_index key with
       | Some i => insert_index i key v o
       | None => o ++ [(key, v)]
       end.

(** ** JSON.stringify *)

Definition hex_char (d : N) : char16 := (if d <? 10 then 48 + d else 87 + d)%N.

Definition unicode_escape (c : char16) : jsstring :=
  [Ch.backslash; 117%N;
   hex_char ((c / 4096) mod 16)%N; hex_char ((c / 256) mod 16)%N;
   hex_char ((c / 16) mod 16)%N; hex_char (c mod 16)%N].

Definition is_high_surrogate (c : char16) : bool := ((55296 <=? c) && (c <=? 56319))%N.
Definition is_low_surrogate (c : char16) : bool := ((56320 <=? c) && (c <=? 57343))%N.

(** The two-character escapes of QuoteJSONString. *)
Definition short_escape (c : char16) : option char16 :=
  if (c =? 8)%N then Some 98%N
  else if (c =? 9)%N then Some 116%N
  else if (c =? 10)%N then Some 110%N
  else if (c =? 12)%N then Some 102%N
  else if (c =? 13)%N then Some 114%N
  else if (c =? 34)%N then Some 34%N
  else if (c =? 92)%N then Some 92%N
  else None.

Fixpoint quote_body (s : jsstring) : jsstring :=
  match s with
  | [] => []
  | c :: s' =>
      match short_escape c with
      | Some e => Ch.backslash :: e :: quote_body s'
      | None =>
          if (c <? 32)%N then unicode_escape c ++ quote_body s'
          else if is_high_surrogate c then
            match s' with
            | c2 :: s'' =>
                if is_low_surrogate c2 then c :: c2 :: quote_body s''
                else unicode_escape c ++ quote_body s'
            | [] => unicode_escape c
            end
          else if is_low_surrogate c then unicode_escape c ++ quote_body s'
          else c :: quote_body s'
      end
  end.

Definition QuoteJSONString (s : jsstring) : jsstring :=
  [Ch.quote] ++ quote_body s ++ [Ch.quote].

Definition is_empty (s : jsstring) : bool :=
  match s with
  | [] => true
  | _ => false
  end.

Definition wrap_partial (opening closing : char16) (gap stepback : jsstring)
    (partial : list jsstring) : jsstring :=
  match partial with
  | [] => [opening; closing]
  | _ =>
      let indent := stepback ++ gap in
      if is_empty gap then [opening] ++ join [Ch.comma] partial ++ [closing]
      else [opening; Ch.lf] ++ indent ++ join ([Ch.comma; Ch.lf] ++ indent) partial
           ++ [Ch.lf] ++ stepback ++ [closing]
  end.

(** SerializeJSONProperty, SerializeJSONArray and SerializeJSONObject:
    [indent] is the current indentation, [gap] what a level adds. *)
Fixpoint SerializeJSONProperty (gap indent : jsstring) (v : JsonValue) : jsstring :=
  match v with
  | JNull => lit "null"
  | JBool true => lit "true"
  | JBool false => lit "false"
  | JNum x => if Number_finite x then NumberToString x else lit "null"
  | JStr s => QuoteJSONString s
  | JArr items =>
      wrap_partial Ch.lbracket Ch.rbracket gap indent
        (map (SerializeJSONProperty gap (indent ++ gap)) items)
  | JObj entries =>
      wrap_partial Ch.lbrace Ch.rbrace gap indent
        (map (fun kv : jsstring * JsonValue =>
                QuoteJSONString (fst kv) ++ [Ch.colon]
                ++ (if is_empty gap then [] else [Ch.space])
                ++ SerializeJSONProperty gap (indent ++ gap) (snd kv)) entries)
  end.

(** [JSON.stringify(v, null, spaces)]: the gap is [spaces] blanks, ten at
    most, none when [spaces < 1]. *)
Definition JSON_stringify (v : JsonValue) (spaces : Z) : jsstring :=
  SerializeJSONProperty (repeat_str [Ch.space] (Z.to_nat (Z.min 10 spaces))) [] v.

(** [JSON.stringify(v)] *)
Definition JSON_stringify_compact (v : JsonValue) : jsstring :=
  SerializeJSONProperty [] [] v.

(** ** JSON.parse *)

(** JSON white space: tab, line feed, carriage return, space. *)
Definition is_json_ws (c : char16) : bool :=
  ((c =? 9) || (c =? 10) || (c =? 13) || (c =? 32))%N.

Definition skip_ws (s : jsstring) : jsstring := drop_while is_json_ws s.

Definition hex_val (c : char16) : option N :=
  if is_digit c then Some (c - 48)%N
  else if ((97 <=? c) && (c <=? 102))%N then Some (c - 87)%N
  else if ((65 <=? c) && (c <=? 70))%N then Some (c - 55)%N
  else None.

Definition hex4 (h1 h2 h3 h4 : char16) : option char16 :=
  match hex_val h1, hex_val h2, hex_val h3, hex_val h4 with
  | Some a, Some b, Some c, Some d => Some (((a * 16 + b) * 16 + c) * 16 + d)%N
  | _, _, _, _ => None
  end.

(** The character after a backslash, other than [u]. *)
Definition short_unescape (e : char16) : option char16 :=
  if (e =? 34)%N then Some 34%N
  else if (e =? 92)%N then Some 92%N
  else if (e =? 47)%N then Some 47%N
  else if (e =? 98)%N then Some 8%N
  else if (e =? 102)%N then Some 12%N
  else if (e =? 110)%N then Some 10%N
  else if (e =? 114)%N then Some 13%N
  else if (e =? 116)%N then Some 9%N
  else None.

Definition cons_fst {A B : Type} (a : A) (r : option (list A * B)) : option (list A * B) :=
  match r with
  | Some (l, b) => Some (a :: l, b)
  | None => None
  end.

(** A string literal after its opening quote: the string and the text
    after the closing quote. *)
Fixpoint parse_string_body (s : jsstring) : option (jsstring * jsstring) :=
  match s with
  | [] => None
  | c :: s' =>
      if (c =? Ch.quote)%N then Some ([], s')
      else if (c =? Ch.backslash)%N then
        match s' with
        | [] => None
        | e :: s'' =>
            if (e =? 117)%N then
              match s'' with
              | h1 :: h2 :: h3 :: h4 :: s''' =>
                  match hex4 h1 h2 h3 h4 with
                  | Some u => cons_fst u (parse_string_body s''')
                  | None => None
                  end
              | _ => None
              end
            else
              match short_unescape e with
              | Some u => cons_fst u (parse_string_body s'')
              | None => None
              end
        end
      else if (c <? 32)%N then None
      else cons_fst c (parse_string_body s')
  end.

(** The fraction of a number literal: [.] and at least one digit, or
    nothing. *)
Definition parse_frac (s : jsstring) : option (list N * jsstring) :=
  match s with
  | c :: s' =>
      if (c =? Ch.dot)%N then
        match span_digits s' with
        | ([], _) => None
        | (fs, s3) => Some (fs, s3)
        end
      else Some ([], s)
  | [] => Some ([], s)
  end.

(** The exponent of a number literal: [e] or [E], a sign if any, and at
    least one digit, or nothing. *)
Definition parse_exp (s : jsstring) : option (Z * jsstring) :=
  match s with
  | c :: s' =>
      if (c =? Ch.lower_e)%N || (c =? Ch.upper_e)%N then
        let '(eneg, s4) :=
          match s' with
          | g :: s'' =>
              if (g =? Ch.minus)%N then (true, s'')
              else if (g =? Ch.plus)%N then (false, s'')
              else (false, s')
          | [] => (false, s')
          end in
        match span_digits s4 with
        | ([], _) => None
        | (es, s5) =>
            let e := Z.of_N (digits_value es) in
            Some (if eneg then (- e)%Z else e, s5)
        end
      else Some (0%Z, s)
  | [] => Some (0%Z, s)
  end.

(** A number literal after its sign: [int frac? exp?], where [int] has
    no leading zero.  The value is the double nearest to the decimal. *)
Definition parse_unsigned (neg : bool) (s : jsstring) : option (Number * jsstring) :=
  let '(int_ds, s2) := span_digits s in
  match int_ds with
  | [] => None
  | d0 :: tl =>
      if (d0 =? 0)%N && negb (Nat.eqb (length tl) 0) then None
      else
        match parse_frac s2 with
        | None => None
        | Some (frac_ds, s3) =>
            match parse_exp s3 with
            | None => None
            | Some (e, s5) =>
                Some (Number_of_decimal neg (digits_value (int_ds ++ frac_ds))
                        (e - Z.of_nat (length frac_ds))%Z, s5)
            end
        end
  end.

(** A number literal: [-? int frac? exp?]. *)
Definition parse_number (s : jsstring) : option (Number * jsstring) :=
  match s with
  | c :: s' => if (c =? Ch.minus)%N then parse_unsigned true s' else parse_unsigned false s
  | [] => None
  end.

Definition parse_literal (word : jsstring) (v : JsonValue) (s : jsstring)
  : option (JsonValue * jsstring) :=
  if starts_with word s then Some (v, skipn (length word) s) else None.

(** A value, the elements of an array after [[], the members of an
    object after [{]: each with the text that follows.  Every call
    consumes fuel; [JSON_parse] supplies enough for its text. *)
Fixpoint parse_value (fuel : nat) (s : jsstring) : option (JsonValue * jsstring) :=
  match fuel with
  | O => None
  | S f =>
      match skip_ws s with
      | [] => None
      | c :: rest =>
          if (c =? Ch.lbrace)%N then
            match skip_ws rest with
            | [] => None
            | c2 :: rest2 =>
                if (c2 =? Ch.rbrace)%N then Some (JObj [], rest2)
                else
                  match parse_members f rest with
                  | Some (members, r) => Some (JObj (fold_left set_property members []), r)
                  | None => None
                  end
            end
          else if (c =? Ch.lbracket)%N then
            match skip_ws rest with
            | [] => None
            | c2 :: rest2 =>
                if (c2 =? Ch.rbracket)%N then Some (JArr [], rest2)
                else
                  match parse_elements f rest with
                  | Some (items, r) => Some (JArr items, r)
                  | None => None
                  end
            end
          else if (c =? Ch.quote)%N then
            match parse_string_body rest with
            | Some (str, r) => Some (JStr str, r)
            | None => None
            end
          else if (c =? 116)%N then parse_literal (lit "true") (JBool true) (c :: rest)
          else if (c =? 102)%N then parse_literal (lit "false") (JBool false) (c :: rest)
          else if (c =? 110)%N then parse_literal (lit "null") JNull (c :: rest)
          else
            match parse_number (c :: rest) with
            | Some (x, r) => Some (JNum x, r)
            | None => None
            end
      end
  end
with parse_elements (fuel : nat) (s : jsstring) : option (list JsonValue * jsstring) :=
  match fuel with
  | O => None
  | S f =>
      match parse_value f s with
      | None => None
      | Some (v, r) =>
          match skip_ws r with
          | [] => None
          | c :: r' =>
              if (c =? Ch.comma)%N then cons_fst v (parse_elements f r')
              else if (c =? Ch.rbracket)%N then Some ([v], r')
              else None
          end
      end
  end
with parse_members (fuel : nat) (s : jsstring)
  : option (list (jsstring * JsonValue) * jsstring) :=
  match fuel with
  | O => None
  | S f =>
      match skip_ws s with
      | [] => None
      | q :: r0 =>
          if (q =? Ch.quote)%N then
            match parse_string_body r0 with
            | None => None
            | Some (key, r1) =>
                match skip_ws r1 with
                | [] => None
                | c1 :: r2 =>
                    if (c1 =? Ch.colon)%N then
                      match parse_value f r2 with
                      | None => None
                      | Some (v, r3) =>
                          match skip_ws r3 with
                          | [] => None
                          | c :: r' =>
                              if (c =? Ch.comma)%N then cons_fst (key, v) (parse_members f r')
                              else if (c =? Ch.rbrace)%N then Some ([(key, v)], r')
                              else None
                          end
                      end
                    else None
                end
            end
          else None
      end
  end.

(** [JSON.parse(text)]: [None] stands for the SyntaxError it throws. *)
Definition JSON_parse (text : jsstring) : option JsonValue :=
  match parse_value (2 * length text + 2) text with
  | Some (v, rest) => if is_empty (skip_ws rest) then Some v else None
  | None => None
  end.

(** ** app/utils/jsonFormatter.ts *)

Record FormatResult : Type := {
  formatted : jsstring;
  format_error : option jsstring
}.

(** An absent field of the result object is [None]. *)
Record ValidationResult : Type := {
  valid : bool;
  error : option jsstring;
  line : option nat;
  column : option nat
}.

(** [message.match(/position (\d+)/)]: the digits captured at the
    leftmost match, if there is one. *)
Fixpoint match_position (message : jsstring) : option (list N) :=
  match message with
  | [] => None
  | _ :: message' =>
      if starts_with (lit "position ") message then
        match span_digits (skipn 9 message) with
        | ([], _) => match_position message'
        | (ds, _) => Some ds
        end
      else match_position message'
  end.

(** [parseInt] of a run of digits.  The result only serves as the end of
    a [substring], which stops at the end of the text, so the integer is
    kept exact. *)
Definition parseInt (ds : list N) : nat := N.to_nat (digits_value ds).

(** [s.substring(0, n)] *)
Definition substring0 (s : jsstring) (n : nat) : jsstring := firstn n s.

Section Host.

(** The message of the SyntaxError that the host's [JSON.parse] throws
    for a text it rejects.  Its wording differs between engines. *)
Variable syntax_error_message : jsstring -> jsstring.

Definition formatJson (input : jsstring) (spaces : Z) : FormatResult :=
  if is_empty (trim input) then
    {| formatted := []; format_error := Some (lit "Input is empty") |}
  else
    match JSON_parse input with
    | Some parsed =>
        {| formatted := JSON_stringify parsed spaces; format_error := None |}
    | None =>
        {| formatted := []; format_error := Some (syntax_error_message input) |}
    end.

Definition validateJson (input : jsstring) : ValidationResult :=
  if is_empty (trim input) then
    {| valid := false; error := Some (lit "Input is empty");
       line := None; column := None |}
  else
    match JSON_parse input with
    | Some _ => {| valid := true; error := None; line := None; column := None |}
    | None =>
        let message := syntax_error_message input in
        let position :=
          match match_position message with
          | Some ds => parseInt ds
          | None => O
          end in
        let lines := split Ch.lf (substring0 input position) in
        {| valid := false;
           error := Some message;
           line := Some (length lines);
           column := Some (length (last lines []) + 1) |}
    end.

Definition minifyJson (input : jsstring) : FormatResult :=
  if is_empty (trim input) then
    {| formatted := []; format_error := Some (lit "Input is empty") |}
  else
    match JSON_parse input with
    | Some parsed =>
        {| formatted := JSON_stringify_compact parsed; format_error := None |}
    | None =>
        {| formatted := []; format_error := Some (syntax_error_message input) |}
    end.

End Host.

(** [parseJson]: the parsed value, or [null]. *)
Definition parseJson (input : jsstring) : JsonValue :=
  match JSON_parse input with
  | Some v => v
  | None => JNull
  end.

(** ** app/utils/converters.ts *)

(** A conversion returns its text or throws an [Error] with a message. *)
Inductive Result : Type :=
| Ok (text : jsstring)
| Throw (message : jsstring).

(** [String(v)] *)
Fixpoint ToString (v : JsonValue) : jsstring :=
  match v with
  | JNull => lit "null"
  | JBool true => lit "true"
  | JBool false => lit "false"
  | JNum x => NumberToString x
  | JStr s => s
  | JArr items =>
      join [Ch.comma]
        (map (fun item => match item with
                          | JNull => []
                          | _ => ToString item
                          end) items)
  | JObj _ => lit "[object Object]"
  end.

(** [typeof json === 'string' ? parseJson(json) : json] *)
Definition resolve_input (json : JsonValue) : JsonValue :=
  match json with
  | JStr text => parseJson text
  | _ => json
  end.

Definition escapeXml (str : jsstring) : jsstring :=
  replace_all Ch.apos (lit "&apos;")
    (replace_all Ch.quote (lit "&quot;")
       (replace_all Ch.gt (lit "&gt;")
          (replace_all Ch.lt (lit "&lt;")
             (replace_all Ch.amp (lit "&amp;") str)))).

Definition escapeCsv (str : jsstring) : jsstring :=
  if includes [Ch.comma] str || includes [Ch.quote] str || includes [Ch.lf] str then
    [Ch.quote] ++ replace_all Ch.quote [Ch.quote; Ch.quote] str ++ [Ch.quote]
  else str.

Definition formatYamlValue (value : JsonValue) : jsstring :=
  match value with
  | JNull => lit "null"
  | JBool b => if b then lit "true" else lit "false"
  | JNum x => NumberToString x
  | JStr s =>
      if includes [Ch.colon] s || includes [Ch.hash] s || includes [Ch.lf] s then
        [Ch.quote] ++ replace_all Ch.quote [Ch.backslash; Ch.quote] s ++ [Ch.quote]
      else s
  | _ => ToString value
  end.

(** [array.forEach((item, index) => ...)] with the pieces appended to one
    string. *)
Fixpoint concat_mapi {A : Type} (f : nat -> A -> jsstring) (index : nat) (l : list A)
  : jsstring :=
  match l with
  | [] => []
  | x :: l' => f index x ++ concat_mapi f (S index) l'
  end.

Fixpoint concat_map {A : Type} (f : A -> jsstring) (l : list A) : jsstring :=
  match l with
  | [] => []
  | x :: l' => f x ++ concat_map f l'
  end.

(** [/[^a-zA-Z0-9_-]/] *)
Definition is_tag_char (c : char16) : bool :=
  ((97 <=? c) && (c <=? 122) || (65 <=? c) && (c <=? 90) || (48 <=? c) && (c <=? 57)
   || (c =? 95) || (c =? 45))%N.

(** [key.replace(/[^a-zA-Z0-9_-]/g, '_')] *)
Definition sanitize (key : jsstring) : jsstring :=
  map (fun c => if is_tag_char c then c else Ch.underscore) key.

(** [text.split('\n').map(line => pad + line).join('\n')] *)
Definition indent_lines (pad : jsstring) (text : jsstring) : jsstring :=
  join [Ch.lf] (map (fun l => pad ++ l) (split Ch.lf text)).

Definition open_tag (name : jsstring) : jsstring := [Ch.lt] ++ name ++ [Ch.gt].
Definition close_tag (name : jsstring) : jsstring := [Ch.lt; Ch.slash] ++ name ++ [Ch.gt].
Definition item_tag (index : nat) : jsstring :=
  lit "<item index=" ++ [Ch.quote] ++ show_nat index ++ [Ch.quote; Ch.gt].

Fixpoint convertToXml (data : JsonValue) : jsstring :=
  match data with
  | JArr items =>
      concat_mapi (fun index item =>
        lit "  " ++ item_tag index ++ [Ch.lf]
        ++ indent_lines (lit "    ") (convertToXml item)
        ++ [Ch.lf] ++ lit "  </item>" ++ [Ch.lf]) 0 items
  | JObj entries =>
      concat_map (fun kv : jsstring * JsonValue =>
        let sanitizedKey := sanitize (fst kv) in
        match snd kv with
        | JArr vitems =>
            lit "  " ++ open_tag sanitizedKey ++ [Ch.lf]
            ++ concat_mapi (fun index item =>
                 lit "    " ++ item_tag index ++ [Ch.lf]
                 ++ indent_lines (lit "      ") (convertToXml item)
                 ++ [Ch.lf] ++ lit "    </item>" ++ [Ch.lf]) 0 vitems
            ++ lit "  " ++ close_tag sanitizedKey ++ [Ch.lf]
        | JObj _ =>
            lit "  " ++ open_tag sanitizedKey ++ [Ch.lf]
            ++ indent_lines (lit "    ") (convertToXml (snd kv))
            ++ [Ch.lf] ++ lit "  " ++ close_tag sanitizedKey ++ [Ch.lf]
        | _ =>
            lit "  " ++ open_tag sanitizedKey ++ escapeXml (ToString (snd kv))
            ++ close_tag sanitizedKey ++ [Ch.lf]
        end) entries
  | _ => escapeXml (ToString data)
  end.

Definition xml_prolog : jsstring :=
  lit "<?xml version=" ++ [Ch.quote] ++ lit "1.0" ++ [Ch.quote]
  ++ lit " encoding=" ++ [Ch.quote] ++ lit "UTF-8" ++ [Ch.quote] ++ lit "?>".

Definition jsonToXml (json : JsonValue) : Result :=
  let obj := resolve_input json in
  if falsy obj then Throw (lit "Invalid JSON input")
  else
    let xmlContent := convertToXml obj in
    Ok (xml_prolog ++ [Ch.lf] ++ lit "<root>" ++ [Ch.lf] ++ xmlContent ++ lit "</root>").

(** [Array.from(new Set(l))]: the members in the order of their first
    occurrence. *)
Definition Set_add (acc : list jsstring) (k : jsstring) : list jsstring :=
  if existsb (jsstring_eqb k) acc then acc else acc ++ [k].

Definition Set_from (l : list jsstring) : list jsstring := fold_left Set_add l [].

(** [Object.keys(o)] *)
Definition Object_keys (o : JsonObject) : list jsstring := map fst o.

(** The keys an array element contributes to the columns. *)
Definition item_keys (item : JsonValue) : list jsstring :=
  match item with
  | JObj entries => Object_keys entries
  | _ => []
  end.

(** What [o[key]] yields for an object that [JSON.parse] built: the
    value of an own property, or else what the object inherits from
    [Object.prototype]: one of its built-in functions, the prototype
    itself through the accessor [__proto__], or [undefined]. *)
Inductive PropertyValue : Type :=
| Own (v : JsonValue)
| BuiltinFunction (name : jsstring)
| ThePrototype
| Undefined.

Definition Object_prototype_methods : list jsstring :=
  map lit ["__defineGetter__"; "__defineSetter__"; "hasOwnProperty";
           "__lookupGetter__"; "__lookupSetter__"; "isPrototypeOf";
           "propertyIsEnumerable"; "toString"; "valueOf"; "toLocaleString"]%string.

Definition inherited_property (key : jsstring) : PropertyValue :=
  if jsstring_eqb key (lit "constructor") then BuiltinFunction (lit "Object")
  else if jsstring_eqb key (lit "__proto__") then ThePrototype
  else if existsb (jsstring_eqb key) Object_prototype_methods then BuiltinFunction key
  else Undefined.

(** [o[key]] *)
Definition Get (o : JsonObject) (key : jsstring) : PropertyValue :=
  match get_property key o with
  | Some v => Own v
  | None => inherited_property key
  end.

Definition csv_shape_error : jsstring :=
  lit "JSON must be an object or array for CSV conversion".

Section HostFunctions.

(** [String(f)] for the built-in function named [name]: the text is
    [function name() { [native code] }] up to white space, which differs
    between engines. *)
Variable native_function_text : jsstring -> jsstring.

(** One cell: the text for the value [o[key]].  A function is not an
    ['object'] for [typeof] and goes through [String]; the prototype is
    one, and [JSON.stringify] writes it as the empty object. *)
Definition csv_cell (value : PropertyValue) : jsstring :=
  match value with
  | Undefined | Own JNull => []
  | Own (JArr _ as v) | Own (JObj _ as v) => escapeCsv (JSON_stringify_compact v)
  | Own v => escapeCsv (ToString v)
  | ThePrototype => escapeCsv (lit "{}")
  | BuiltinFunction name => escapeCsv (native_function_text name)
  end.

Definition csv_row (keys : list jsstring) (item : JsonValue) : jsstring :=
  match item with
  | JObj entries => join [Ch.comma] (map (fun key => csv_cell (Get entries key)) keys)
  | _ => join [Ch.comma] (map (fun _ => []) keys)
  end.

Definition jsonToCsv (json : JsonValue) : Result :=
  let obj := resolve_input json in
  if falsy obj then Throw (lit "Invalid JSON input")
  else
    match obj with
    | JArr items =>
        match items with
        | [] => Ok []
        | _ =>
            let keys := Set_from (flat_map item_keys items) in
            let header := join [Ch.comma] (map escapeCsv keys) in
            let rows := map (csv_row keys) items in
            Ok (join [Ch.lf] (header :: rows))
        end
    | JObj entries =>
        let keys := Object_keys entries in
        let header := join [Ch.comma] (map escapeCsv keys) in
        let values := join [Ch.comma] (map (fun key => csv_cell (Get entries key)) keys) in
        Ok (header ++ [Ch.lf] ++ values)
    | _ => Throw csv_shape_error
    end.

(** The CSV table before escaping: the raw text of every field
    [jsonToCsv] emits, row by row: what the source hands to [escapeCsv],
    and the empty text where it emits a cell without escaping it. *)
Definition raw_cell (value : PropertyValue) : jsstring :=
  match value with
  | Undefined | Own JNull => []
  | Own (JArr _ as v) | Own (JObj _ as v) => JSON_stringify_compact v
  | Own v => ToString v
  | ThePrototype => lit "{}"
  | BuiltinFunction name => native_function_text name
  end.

Definition raw_row (keys : list jsstring) (item : JsonValue) : list jsstring :=
  match item with
  | JObj entries => map (fun key => raw_cell (Get entries key)) keys
  | _ => map (fun _ => []) keys
  end.

Definition csv_raw_table (obj : JsonValue) : list (list jsstring) :=
  match obj with
  | JArr [] => []
  | JArr items =>
      let keys := Set_from (flat_map item_keys items) in
      keys :: map (raw_row keys) items
  | JObj entries =>
      [Object_keys entries;
       map (fun key => raw_cell (Get entries key)) (Object_keys entries)]
  | _ => []
  end.

End HostFunctions.

(** V8 prints a built-in function on one line. *)
Definition v8_function_text (name : jsstring) : jsstring :=
  lit "function " ++ name ++ lit "() { [native code] }".

Fixpoint convertToYaml (data : JsonValue) (indent : nat) : jsstring :=
  let spaces := repeat_str (lit "  ") indent in
  match data with
  | JArr items =>
      concat_map (fun item =>
        match item with
        | JArr _ | JObj _ =>
            spaces ++ [Ch.minus; Ch.lf] ++ convertToYaml item (indent + 1)
        | _ => spaces ++ [Ch.minus; Ch.space] ++ formatYamlValue item ++ [Ch.lf]
        end) items
  | JObj entries =>
      concat_map (fun kv : jsstring * JsonValue =>
        match snd kv with
        | JArr _ | JObj _ =>
            spaces ++ fst kv ++ [Ch.colon; Ch.lf] ++ convertToYaml (snd kv) (indent + 1)
        | _ => spaces ++ fst kv ++ [Ch.colon; Ch.space] ++ formatYamlValue (snd kv) ++ [Ch.lf]
        end) entries
  | _ => spaces ++ formatYamlValue data ++ [Ch.lf]
  end.

Definition jsonToYaml (json : JsonValue) : Result :=
  let obj := resolve_input json in
  if falsy obj then Throw (lit "Invalid JSON input")
  else Ok (convertToYaml obj 0).

Definition invalid_input : Result := Throw (lit "Invalid JSON input").

(** The truncated text [{"a":1]. *)
Definition truncated_object : jsstring :=
  lit "{" ++ [Ch.quote] ++ lit "a" ++ [Ch.quote] ++ lit ":1".

(** The text [[{"constructor":1},{}]]. *)
Definition constructor_rows : jsstring :=
  lit "[{" ++ [Ch.quote] ++ lit "constructor" ++ [Ch.quote] ++ lit ":1},{}]".


(** ** Numbers written as in the source *)

(** The Number of a natural-number literal. *)
Definition num (n : N) : Number := Number_of_decimal false n 0.

(** ** Predicates and measures of the statements *)

Definition needs_quoting (str : jsstring) : Prop :=
  In Ch.comma str \/ In Ch.quote str \/ In Ch.lf str.

Definition render_table (table : list (list jsstring)) : jsstring :=
  join [Ch.lf] (map (fun row => join [Ch.comma] row) table).



Definition yaml_spaces (indent : nat) : jsstring := repeat_str (lit "  ") indent.

Definition yaml_item (indent : nat) (item : JsonValue) (block : jsstring) : Prop :=
  (is_container item = false ->
   block = yaml_spaces indent ++ [Ch.minus; Ch.space] ++ formatYamlValue item ++ [Ch.lf]) /\
  (is_container item = true ->
   block = yaml_spaces indent ++ [Ch.minus; Ch.lf] ++ convertToYaml item (indent + 1)).

Definition yaml_member (indent : nat) (kv : jsstring * JsonValue) (block : jsstring) : Prop :=
  (is_container (snd kv) = false ->
   block = yaml_spaces indent ++ fst kv ++ [Ch.colon; Ch.space]
           ++ formatYamlValue (snd kv) ++ [Ch.lf]) /\
  (is_container (snd kv) = true ->
   block = yaml_spaces indent ++ fst kv ++ [Ch.colon; Ch.lf]
           ++ convertToYaml (snd kv) (indent + 1)).

Definition yaml_item_block (indent : nat) (item : JsonValue) : jsstring :=
  if is_container item then
    yaml_spaces indent ++ [Ch.minus; Ch.lf] ++ convertToYaml item (indent + 1)
  else yaml_spaces indent ++ [Ch.minus; Ch.space] ++ formatYamlValue item ++ [Ch.lf].

Definition yaml_member_block (indent : nat) (kv : jsstring * JsonValue) : jsstring :=
  if is_container (snd kv) then
    yaml_spaces indent ++ fst kv ++ [Ch.colon; Ch.lf] ++ convertToYaml (snd kv) (indent + 1)
  else yaml_spaces indent ++ fst kv ++ [Ch.colon; Ch.space]
       ++ formatYamlValue (snd kv) ++ [Ch.lf].

Definition digits_ok (ds : list N) : Prop := Forall (fun d => (d < 10)%N) ds.

(** The next character does not continue a run of digits. *)
Definition no_digit_ahead (s : jsstring) : Prop :=
  match s with
  | [] => True
  | c :: _ => is_digit c = false
  end.

(** [a / b >= 2^k] and [a / b < 2^k], on integers. *)
Definition ratio_ge (a b k : Z) : Prop := (scale 2 b k <= scale 2 a (- k))%Z.
Definition ratio_lt (a b k : Z) : Prop := (scale 2 a (- k) < scale 2 b k)%Z.

(** The digits of a decimal that [shortest_decimal] may return. *)
Definition positive_digits (ds : list N) : Prop :=
  exists n : N, (0 < n)%N /\ ds = digits_of n.

(** What may follow a number literal: not a digit, [.], [e] or [E]. *)
Definition number_end (s : jsstring) : Prop :=
  match s with
  | [] => True
  | c :: _ => is_digit c = false /\ c <> Ch.dot /\ c <> Ch.lower_e /\ c <> Ch.upper_e
  end.

(** The order [Object.keys] gives: no key twice, and a key that is an
    array index only after smaller array indices. *)
Inductive keys_wf : list jsstring -> Prop :=
| keys_wf_nil : keys_wf []
| keys_wf_cons (k : jsstring) (ks : list jsstring) :
    keys_wf ks ->
    ~ In k ks ->
    (forall k' i', In k' ks -> array_index k' = Some i' ->
       exists i, array_index k = Some i /\ (i < i')%N) ->
    keys_wf (k :: ks).

Definition object_wf (o : JsonObject) : Prop := keys_wf (map fst o).

(** The values [JSON.parse] can return: numbers are doubles and the
    properties of an object are in enumeration order. *)
Fixpoint value_wf (v : JsonValue) : Prop :=
  match v with
  | JNum x => Number_wf x
  | JArr items =>
      (fix all (l : list JsonValue) : Prop :=
         match l with
         | [] => True
         | x :: l' => value_wf x /\ all l'
         end) items
  | JObj entries =>
      object_wf entries /\
      (fix all (l : list (jsstring * JsonValue)) : Prop :=
         match l with
         | [] => True
         | kv :: l' => value_wf (snd kv) /\ all l'
         end) entries
  | _ => True
  end.

(** No number in the value is an infinity. *)
Fixpoint all_finite (v : JsonValue) : bool :=
  match v with
  | JNum x => Number_finite x
  | JArr items =>
      (fix all (l : list JsonValue) : bool :=
         match l with
         | [] => true
         | x :: l' => all_finite x && all l'
         end) items
  | JObj entries =>
      (fix all (l : list (jsstring * JsonValue)) : bool :=
         match l with
         | [] => true
         | kv :: l' => all_finite (snd kv) && all l'
         end) entries
  | _ => true
  end.

(** The fuel that parsing the text of a value takes. *)
Fixpoint size (v : JsonValue) : nat :=
  match v with
  | JArr items =>
      S ((fix sum (l : list JsonValue) : nat :=
            match l with
            | [] => O
            | x :: l' => S (size x + sum l')
            end) items)
  | JObj entries =>
      S ((fix sum (l : list (jsstring * JsonValue)) : nat :=
            match l with
            | [] => O
            | kv :: l' => S (size (snd kv) + sum l')
            end) entries)
  | _ => 1
  end.

Definition ws (w : jsstring) : Prop := forallb is_json_ws w = true.

Definition delimiter (c : char16) : Prop :=
  c = Ch.comma \/ c = Ch.rbracket \/ c = Ch.rbrace.

(** The white space [JSON.stringify] puts before an element or a closing
    bracket. *)
Definition line_break (gap indent : jsstring) : jsstring :=
  if is_empty gap then [] else Ch.lf :: indent.

Fixpoint sum_sizes (items : list JsonValue) : nat :=
  match items with
  | [] => O
  | x :: items' => S (size x + sum_sizes items')
  end.

Fixpoint sum_member_sizes (entries : JsonObject) : nat :=
  match entries with
  | [] => O
  | kv :: entries' => S (size (snd kv) + sum_member_sizes entries')
  end.

(** The property proved by induction on the value. *)
Definition reads_back (v : JsonValue) : Prop :=
  forall gap indent w rest fuel,
    ws gap -> ws indent -> ws w -> number_end rest -> size v <= fuel ->
    parse_value fuel (w ++ SerializeJSONProperty gap indent v ++ rest) = Some (v, rest).

Definition member_text (gap indent : jsstring) (kv : jsstring * JsonValue) : jsstring :=
  QuoteJSONString (fst kv) ++ [Ch.colon]
  ++ (if is_empty gap then [] else [Ch.space])
  ++ SerializeJSONProperty gap indent (snd kv).

(** ** app/utils/jsonFormatter.ts: escapes and statistics *)

(** [s.replace(/ab/g, by)] for a pattern of two characters [a] and [b]:
    the matches are taken from left to right and do not overlap. *)
Fixpoint replace_pair (a b : char16) (by_ : jsstring) (s : jsstring) : jsstring :=
  match s with
  | [] => []
  | x :: s' =>
      match s' with
      | y :: s'' =>
          if ((x =? a) && (y =? b))%N then by_ ++ replace_pair a b by_ s''
          else x :: replace_pair a b by_ s'
      | [] => [x]
      end
  end.

Definition escapeJson (str : jsstring) : jsstring :=
  replace_all Ch.tab (Ch.backslash :: lit "t")
    (replace_all Ch.cr (Ch.backslash :: lit "r")
       (replace_all Ch.lf (Ch.backslash :: lit "n")
          (replace_all Ch.quote [Ch.backslash; Ch.quote]
             (replace_all Ch.backslash [Ch.backslash; Ch.backslash] str)))).

Definition unescapeJson (str : jsstring) : jsstring :=
  replace_pair Ch.backslash Ch.backslash [Ch.backslash]
    (replace_pair Ch.backslash Ch.quote [Ch.quote]
       (replace_pair Ch.backslash 116%N [Ch.tab]
          (replace_pair Ch.backslash 114%N [Ch.cr]
             (replace_pair Ch.backslash 110%N [Ch.lf] str)))).

(** [new Blob([s]).size]: the number of bytes of [s] in UTF-8.  The
    string is first made well-formed: a surrogate pair is one code point
    (four bytes) and a surrogate without its partner is replaced by
    U+FFFD (three bytes). *)
Fixpoint Blob_size (s : jsstring) : nat :=
  match s with
  | [] => 0
  | c :: s' =>
      if (c <? 128)%N then 1 + Blob_size s'
      else if (c <? 2048)%N then 2 + Blob_size s'
      else if is_high_surrogate c then
        match s' with
        | c2 :: s'' =>
            if is_low_surrogate c2 then 4 + Blob_size s'' else 3 + Blob_size s'
        | [] => 3
        end
      else 3 + Blob_size s'
  end.

(** The result of [getJsonStats]: its fields [size], [lines],
    [characters] and [valid]. *)
Record JsonStats : Type := {
  stats_size : nat;
  stats_lines : nat;
  stats_characters : nat;
  stats_valid : bool
}.

Section HostStats.

Variable syntax_error_message : jsstring -> jsstring.

Definition getJsonStats (input : jsstring) : JsonStats :=
  let lines := length (split Ch.lf input) in
  let characters := length input in
  let size := Blob_size input in
  let valid := valid (validateJson syntax_error_message input) in
  {| stats_size := size; stats_lines := lines;
     stats_characters := characters; stats_valid := valid |}.

End HostStats.

(** ** The page: the component [Home] *)

(** What a tab shows for a conversion: its text, or, when it throws,
    the message of the error after [Error: ]. *)
Definition shown (r : Result) : jsstring :=
  match r with
  | Ok text => text
  | Throw message => lit "Error: " ++ message
  end.

Section Page.

Variable syntax_error_message : jsstring -> jsstring.
Variable native_function_text : jsstring -> jsstring.

(** [getOutputContent] of the page, from its state: the input text,
    the output text of the last format or minify, and the active tab. *)
Definition getOutputContent (inputJson outputJson activeTab : jsstring) : jsstring :=
  let parsed := parseJson inputJson in
  if falsy parsed then []
  else if jsstring_eqb activeTab (lit "formatted") then
    if is_empty outputJson then formatted (formatJson syntax_error_message inputJson 2)
    else outputJson
  else if jsstring_eqb activeTab (lit "tree") then []
  else if jsstring_eqb activeTab (lit "xml") then shown (jsonToXml parsed)
  else if jsstring_eqb activeTab (lit "csv") then
    shown (jsonToCsv native_function_text parsed)
  else if jsstring_eqb activeTab (lit "yaml") then shown (jsonToYaml parsed)
  else outputJson.

End Page.

(** ** app/components/TreeView.tsx *)

(** [expandedNodes] is a [Set] of paths, kept as its members in
    insertion order: [has], [delete] and [add]. *)
Definition Set_has (s : list jsstring) (x : jsstring) : bool :=
  existsb (jsstring_eqb x) s.

Definition Set_delete (s : list jsstring) (x : jsstring) : list jsstring :=
  filter (fun y => negb (jsstring_eqb x y)) s.

(** The set that [toggleNode] stores as the new state. *)
Definition toggleNode (expandedNodes : list jsstring) (path : jsstring) : list jsstring :=
  if Set_has expandedNodes path then Set_delete expandedNodes path
  else Set_add expandedNodes path.

(** The path [renderValue] gives to a child: [path], a dot, and the
    key or the index of the child. *)
Definition child_path (path childKey : jsstring) : jsstring :=
  path ++ [Ch.dot] ++ childKey.

Fixpoint flat_mapi {A B : Type} (f : nat -> A -> list B) (index : nat) (l : list A)
  : list B :=
  match l with
  | [] => []
  | x :: l' => f index x ++ flat_mapi f (S index) l'
  end.

(** The paths of the nodes that can be expanded.  [renderValue(value,
    path, key)] looks [path] up in [expandedNodes] and toggles it on a
    click when [value] is an array or an object, and renders each child
    with the path of the child. *)
Fixpoint node_paths (value : JsonValue) (path : jsstring) : list jsstring :=
  match value with
  | JArr items =>
      path :: flat_mapi (fun index item =>
                node_paths item (child_path path (show_nat index))) 0 items
  | JObj entries =>
      path :: flat_map (fun kv : jsstring * JsonValue =>
                node_paths (snd kv) (child_path path (fst kv))) entries
  | _ => []
  end.

(** ** app/utils/samples.ts *)

Inductive SampleKey : Type := simple | array | nested | complex.

Definition str (s : string) : JsonValue := JStr (lit s).

(** The object literals that [sampleData] hands to [JSON.stringify]. *)
Definition sample_value (key : SampleKey) : JsonValue :=
  match key with
  | simple =>
      JObj [(lit "name", str "John Doe");
            (lit "age", JNum (num 30));
            (lit "email", str "john@example.com");
            (lit "active", JBool true)]
  | array =>
      JArr [JObj [(lit "id", JNum (num 1)); (lit "name", str "Alice");
                  (lit "role", str "Developer")];
            JObj [(lit "id", JNum (num 2)); (lit "name", str "Bob");
                  (lit "role", str "Designer")];
            JObj [(lit "id", JNum (num 3)); (lit "name", str "Charlie");
                  (lit "role", str "Manager")]]
  | nested =>
      JObj [(lit "user",
             JObj [(lit "id", JNum (num 1));
                   (lit "profile",
                    JObj [(lit "firstName", str "Jane");
                          (lit "lastName", str "Smith");
                          (lit "contact",
                           JObj [(lit "email", str "jane@example.com");
                                 (lit "phone", str "+1234567890")])]);
                   (lit "preferences",
                    JObj [(lit "theme", str "dark");
                          (lit "notifications", JBool true);
                          (lit "language", str "en")])]);
            (lit "metadata",
             JObj [(lit "created", str "2024-01-01T00:00:00Z");
                   (lit "updated", str "2024-01-15T12:30:00Z")])]
  | complex =>
      JObj [(lit "company", str "Tech Corp");
            (lit "employees",
             JArr [JObj [(lit "id", JNum (num 1));
                         (lit "name", str "Alice Johnson");
                         (lit "department", str "Engineering");
                         (lit "skills",
                          JArr [str "JavaScript"; str "TypeScript"; str "React"]);
                         (lit "projects",
                          JArr [JObj [(lit "name", str "Project A");
                                      (lit "status", str "active");
                                      (lit "progress", JNum (num 75))];
                                JObj [(lit "name", str "Project B");
                                      (lit "status", str "completed");
                                      (lit "progress", JNum (num 100))]])];
                   JObj [(lit "id", JNum (num 2));
                         (lit "name", str "Bob Williams");
                         (lit "department", str "Design");
                         (lit "skills",
                          JArr [str "UI/UX"; str "Figma"; str "Photoshop"]);
                         (lit "projects",
                          JArr [JObj [(lit "name", str "Project C");
                                      (lit "status", str "active");
                                      (lit "progress", JNum (num 50))]])]]);
            (lit "departments",
             JObj [(lit "engineering",
                    JObj [(lit "budget", JNum (num 500000));
                          (lit "headcount", JNum (num 25))]);
                   (lit "design",
                    JObj [(lit "budget", JNum (num 200000));
                          (lit "headcount", JNum (num 10))]);
                   (lit "marketing",
                    JObj [(lit "budget", JNum (num 300000));
                          (lit "headcount", JNum (num 15))])]);
            (lit "metadata",
             JObj [(lit "version", str "1.0.0");
                   (lit "lastUpdated", str "2024-02-12T19:00:00Z");
                   (lit "tags", JArr [str "production"; str "verified"])])]
  end.

(** [sampleData[key].data] *)
Definition getSample (key : SampleKey) : jsstring :=
  JSON_stringify (sample_value key) 2.

(** ** More predicates and measures of the statements *)

(** What [JSON.stringify] keeps of a value: a number that is not finite
    is written as [null]. *)
Fixpoint stringified (v : JsonValue) : JsonValue :=
  match v with
  | JNum x => if Number_finite x then v else JNull
  | JArr items => JArr (map stringified items)
  | JObj entries => JObj (map (fun kv => (fst kv, stringified (snd kv))) entries)
  | _ => v
  end.

(** The characters [Number::toString] writes. *)
Definition number_char (c : char16) : bool :=
  is_digit c || existsb (N.eqb c) (lit "+-.eInfity").

(** The strings of a value: its string values and its keys. *)
Fixpoint texts (v : JsonValue) : list jsstring :=
  match v with
  | JStr s => [s]
  | JArr items => flat_map texts items
  | JObj entries => flat_map (fun kv => fst kv :: texts (snd kv)) entries
  | _ => []
  end.

(** The two characters [escapeJson] writes for a character it escapes. *)
Definition json_escape (c : char16) : jsstring :=
  if (c =? Ch.backslash)%N then [Ch.backslash; Ch.backslash]
  else if (c =? Ch.quote)%N then [Ch.backslash; Ch.quote]
  else if (c =? Ch.lf)%N then Ch.backslash :: lit "n"
  else if (c =? Ch.cr)%N then Ch.backslash :: lit "r"
  else if (c =? Ch.tab)%N then Ch.backslash :: lit "t"
  else [c].

(** No backslash of [s] is followed by a character that [bad] holds of. *)
Fixpoint no_backslash_before (bad : char16 -> bool) (s : jsstring) : bool :=
  match s with
  | [] => true
  | x :: s' =>
      negb ((x =? Ch.backslash)%N
            && match s' with
               | y :: _ => bad y
               | [] => false
               end)
      && no_backslash_before bad s'
  end.

(** The letters [n], [r] and [t]. *)
Definition escape_letter (c : char16) : bool :=
  ((c =? 110) || (c =? 114) || (c =? 116))%N.

(** The characters a JSON string literal may hold once [escapeJson] has
    run: no control character other than the three it escapes. *)
Definition json_text_char (c : char16) : bool :=
  ((32 <=? c) || (c =? Ch.tab) || (c =? Ch.lf) || (c =? Ch.cr))%N.

(** [escapeJson] with the characters of [plain] left as they are: the
    text between two replacements of [unescapeJson]. *)
Definition json_escape_except (plain : list char16) (c : char16) : jsstring :=
  if existsb (N.eqb c) plain then [c] else json_escape c.

(** The text [escapeXml] writes for one character. *)
Definition xml_entity (c : char16) : jsstring :=
  if (c =? Ch.amp)%N then lit "&amp;"
  else if (c =? Ch.lt)%N then lit "&lt;"
  else if (c =? Ch.gt)%N then lit "&gt;"
  else if (c =? Ch.quote)%N then lit "&quot;"
  else if (c =? Ch.apos)%N then lit "&apos;"
  else [c].

(** [typeof v === 'object' && v !== null && !Array.isArray(v)] *)
Definition is_plain_object (v : JsonValue) : bool :=
  match v with
  | JObj _ => true
  | _ => false
  end.

(** Every object of the value has distinct keys, none with a dot. *)
Fixpoint plain_keys (v : JsonValue) : Prop :=
  match v with
  | JArr items =>
      (fix all (l : list JsonValue) : Prop :=
         match l with
         | [] => True
         | x :: l' => plain_keys x /\ all l'
         end) items
  | JObj entries =>
      NoDup (map fst entries) /\
      (fix all (l : list (jsstring * JsonValue)) : Prop :=
         match l with
         | [] => True
         | kv :: l' => (~ In Ch.dot (fst kv) /\ plain_keys (snd kv)) /\ all l'
         end) entries
  | _ => True
  end.

(** The object [{"a.b": [], "a": {"b": []}}]. *)
Definition dotted_keys : JsonValue :=
  JObj [(lit "a.b", JArr []); (lit "a", JObj [(lit "b", JArr [])])].

(** A text with each of its double quotes written twice. *)
Fixpoint double_quotes (s : jsstring) : jsstring :=
  match s with
  | [] => []
  | c :: s' =>
      if (c =? Ch.quote)%N then Ch.quote :: Ch.quote :: double_quotes s'
      else c :: double_quotes s'
  end.

(** The text [say "hi"]. *)
Definition say_hi : jsstring := lit "say " ++ [Ch.quote] ++ lit "hi" ++ [Ch.quote].

(** The string [a], line feed, [b], and the JSON text of the array that
    holds it: a bracket, a double quote, [a\nb], a double quote, a
    bracket. *)
Definition two_lines : jsstring := lit "a" ++ [Ch.lf] ++ lit "b".

Definition two_lines_array : jsstring :=
  lit "[" ++ [Ch.quote] ++ lit "a\nb" ++ [Ch.quote] ++ lit "]".

(** * Properties *)

(** ** Strings: membership, joining *)

Section StringFacts.

Lemma jsstring_eqb_eq (a b : jsstring) : jsstring_eqb a b = true <-> a = b.
Proof.
  unfold jsstring_eqb. destruct (list_eq_dec N.eq_dec a b); split; congruence.
Qed.

Lemma jsstring_eqb_refl (a : jsstring) : jsstring_eqb a a = true.
Proof. now apply jsstring_eqb_eq. Qed.

Lemma jsstring_eqb_neq (a b : jsstring) : jsstring_eqb a b = false <-> a <> b.
Proof.
  unfold jsstring_eqb. destruct (list_eq_dec N.eq_dec a b); split; congruence.
Qed.

(** [s.includes(c)] for a single character is membership. *)
Lemma includes_char (c : char16) (s : jsstring) :
  includes [c] s = true <-> In c s.
Proof.
  induction s as [| x s IH]; simpl.
  - split; [discriminate | tauto].
  - rewrite andb_true_r, orb_true_iff, IH, N.eqb_eq. intuition congruence.
Qed.

Lemma includes_char_false (c : char16) (s : jsstring) :
  includes [c] s = false <-> ~ In c s.
Proof.
  rewrite <- includes_char. destruct (includes [c] s); split; congruence.
Qed.

Lemma join_two (sep a b : jsstring) : join sep [a; b] = a ++ sep ++ b.
Proof. reflexivity. Qed.

Lemma join_cons (sep p : jsstring) (ps : list jsstring) :
  ps <> [] -> join sep (p :: ps) = p ++ sep ++ join sep ps.
Proof. destruct ps; [congruence | reflexivity]. Qed.

End StringFacts.

(** ** Lines of a text *)

Section Lines.

Variable sep : char16.

Lemma split_not_nil (s : jsstring) : split sep s <> [].
Proof.
  destruct s as [| c s]; simpl; [discriminate |].
  destruct (c =? sep)%N; [discriminate |].
  destruct (split sep s); discriminate.
Qed.

Lemma split_no_sep (t : jsstring) : ~ In sep t -> split sep t = [t].
Proof.
  induction t as [| c t IH]; intros Hnot; [reflexivity |].
  simpl in *. destruct (N.eqb_spec c sep) as [-> | _]; [tauto |].
  rewrite IH by tauto. reflexivity.
Qed.

Lemma split_app_sep (b t : jsstring) :
  split sep (b ++ sep :: t) = split sep b ++ split sep t.
Proof.
  induction b as [| c b IH]; simpl.
  - now rewrite N.eqb_refl.
  - destruct (c =? sep)%N; rewrite IH; [reflexivity |].
    destruct (split sep b) eqn:E; [now elim (split_not_nil b) | reflexivity].
Qed.

Lemma split_length (s : jsstring) :
  length (split sep s) = count_occ N.eq_dec s sep + 1.
Proof.
  induction s as [| c s IH]; [reflexivity |].
  simpl. destruct (N.eq_dec c sep) as [-> | Hne].
  - rewrite N.eqb_refl. simpl. now rewrite IH.
  - apply N.eqb_neq in Hne. rewrite Hne.
    destruct (split sep s) eqn:E; [now elim (split_not_nil s) |].
    simpl in *. exact IH.
Qed.

(** A text either has no separator or splits at its last one. *)
Lemma last_sep_decompose (s : jsstring) :
  ~ In sep s \/ exists b t, s = b ++ sep :: t /\ ~ In sep t.
Proof.
  induction s as [| c s [Hnone | (b & t & -> & Ht)]].
  - left. simpl. tauto.
  - destruct (N.eq_dec c sep) as [-> | Hne].
    + right. exists [], s. split; [reflexivity | assumption].
    + left. simpl. intuition congruence.
  - right. exists (c :: b), t. split; [reflexivity | assumption].
Qed.

Lemma split_last_line (b t : jsstring) :
  ~ In sep t -> last (split sep (b ++ sep :: t)) [] = t.
Proof.
  intros Ht. rewrite split_app_sep, (split_no_sep t Ht). apply last_last.
Qed.

End Lines.

(** ** Decimal digits: printing and reading back *)

Section Digits.

Local Open Scope N_scope.

Lemma fold_digits_acc (ds : list N) (acc : N) :
  fold_left (fun a d => 10 * a + d) ds acc
  = acc * 10 ^ N.of_nat (length ds) + digits_value ds.
Proof.
  unfold digits_value. revert acc.
  induction ds as [| d ds IH]; intros acc.
  - simpl. lia.
  - cbn [fold_left length]. rewrite IH, (IH (10 * 0 + d)).
    rewrite Nat2N.inj_succ, N.pow_succ_r'. lia.
Qed.

Lemma digits_value_app (a b : list N) :
  digits_value (a ++ b) = digits_value a * 10 ^ N.of_nat (length b) + digits_value b.
Proof.
  unfold digits_value at 1. rewrite fold_left_app. apply fold_digits_acc.
Qed.

Lemma digits_value_cons (d : N) (ds : list N) :
  digits_value (d :: ds) = d * 10 ^ N.of_nat (length ds) + digits_value ds.
Proof.
  change (d :: ds) with ([d] ++ ds). rewrite digits_value_app.
  unfold digits_value at 1. simpl. lia.
Qed.

Lemma digits_value_zeros (n : nat) : digits_value (repeat 0 n) = 0.
Proof.
  induction n as [| n IH]; [reflexivity |].
  cbn [repeat]. rewrite digits_value_cons, IH. lia.
Qed.

Lemma digits_aux_spec (fuel : nat) (n : N) (acc : list N) :
  n < 2 ^ N.of_nat fuel ->
  digits_ok acc ->
  digits_value (digits_aux fuel n acc)
  = n * 10 ^ N.of_nat (length acc) + digits_value acc /\
  digits_ok (digits_aux fuel n acc) /\
  (0 < n -> exists d tl, digits_aux fuel n acc = d :: tl /\ 0 < d).
Proof.
  revert n acc. induction fuel as [| fuel IH]; intros n acc Hn Hacc.
  - simpl in Hn. assert (n = 0) by lia. subst n. cbn [digits_aux].
    rewrite digits_value_cons. repeat split.
    + constructor; [lia | assumption].
    + lia.
  - cbn [digits_aux]. destruct (N.ltb_spec n 10) as [Hlt | Hge].
    + rewrite digits_value_cons. repeat split.
      * constructor; assumption.
      * intros Hpos. now exists n, acc.
    + rewrite Nat2N.inj_succ, N.pow_succ_r' in Hn.
      assert (Hdiv : n / 10 < 2 ^ N.of_nat fuel).
      { apply N.Div0.div_lt_upper_bound. lia. }
      assert (Hmod : n mod 10 < 10) by (apply N.mod_lt; lia).
      destruct (IH (n / 10) (n mod 10 :: acc) Hdiv) as (Hval & Hok & Hhead).
      { constructor; assumption. }
      repeat split.
      * rewrite Hval, digits_value_cons. cbn [length].
        rewrite Nat2N.inj_succ, N.pow_succ_r'.
        pose proof (N.div_mod n 10). lia.
      * assumption.
      * intros _. apply Hhead.
        assert (1 <= n / 10) by (apply N.div_le_lower_bound; lia). lia.
Qed.

Lemma digits_of_spec (n : N) :
  digits_value (digits_of n) = n /\
  digits_ok (digits_of n) /\
  (0 < n -> exists d tl, digits_of n = d :: tl /\ 0 < d).
Proof.
  unfold digits_of.
  destruct (digits_aux_spec (N.to_nat (N.size n)) n []) as (Hval & Hok & Hhead).
  - rewrite N2Nat.id. apply N.size_gt.
  - constructor.
  - repeat split; try assumption. rewrite Hval. simpl. unfold digits_value. simpl. lia.
Qed.

Lemma digits_of_value (n : N) : digits_value (digits_of n) = n.
Proof. apply digits_of_spec. Qed.

Lemma digits_of_ok (n : N) : digits_ok (digits_of n).
Proof. apply digits_of_spec. Qed.

Lemma digits_aux_not_nil (fuel : nat) (n : N) (acc : list N) :
  digits_aux fuel n acc <> [].
Proof.
  revert n acc. induction fuel as [| fuel IH]; intros n acc; cbn [digits_aux].
  - discriminate.
  - destruct (n <? 10); [discriminate | apply IH].
Qed.

Lemma digits_of_not_nil (n : N) : digits_of n <> [].
Proof. apply digits_aux_not_nil. Qed.

Lemma is_digit_char (d : N) : d < 10 -> is_digit (digit_char d) = true.
Proof.
  intros Hd. unfold is_digit, digit_char.
  apply andb_true_iff. split; apply N.leb_le; lia.
Qed.

Lemma digit_val_char (d : N) : digit_val (digit_char d) = d.
Proof. unfold digit_val, digit_char. lia. Qed.

Lemma span_digits_show (ds : list N) (rest : jsstring) :
  digits_ok ds -> no_digit_ahead rest ->
  span_digits (show_digits ds ++ rest) = (ds, rest).
Proof.
  intros Hok Hrest. induction Hok as [| d ds Hd Hok IH]; cbn [show_digits map app].
  - destruct rest as [| c rest]; [reflexivity |].
    cbn [span_digits]. simpl in Hrest. now rewrite Hrest.
  - cbn [span_digits]. rewrite (is_digit_char d Hd).
    fold (show_digits ds). rewrite IH, digit_val_char. reflexivity.
Qed.

Lemma show_digits_app (a b : list N) : show_digits (a ++ b) = show_digits a ++ show_digits b.
Proof. apply map_app. Qed.

End Digits.

(** ** Rounding to a double *)

Section Rounding.

Local Open Scope Z_scope.

Lemma pow2_pos (k : Z) : 0 <= k -> 0 < 2 ^ k.
Proof. intros. apply Z.pow_pos_nonneg; lia. Qed.

Lemma scale_pos (base x k : Z) : 0 < base -> 0 < x -> 0 < scale base x k.
Proof.
  intros Hb Hx. unfold scale. apply Z.mul_pos_pos; [assumption |].
  apply Z.pow_pos_nonneg; lia.
Qed.

(** Numerator and denominator of a scaled ratio, brought to a common
    power of two. *)
Lemma ratio_lift (x y k K : Z) :
  0 <= K -> 0 <= K + k ->
  exists s, 0 < s /\
    scale 2 x (- k) * s = x * 2 ^ K /\
    scale 2 y k * s = y * 2 ^ (K + k).
Proof.
  intros HK HKk. unfold scale.
  destruct (Z.le_gt_cases 0 k) as [Hk | Hk].
  - exists (2 ^ K). rewrite (Z.max_l 0 (- k)), (Z.max_r 0 k) by lia.
    rewrite Z.pow_0_r, (Z.add_comm K k), Z.pow_add_r by lia.
    split; [now apply pow2_pos | lia].
  - exists (2 ^ (K + k)). rewrite (Z.max_r 0 (- k)), (Z.max_l 0 k) by lia.
    rewrite Z.pow_0_r. split; [now apply pow2_pos |]. split; [| lia].
    rewrite <- Z.mul_assoc, <- Z.pow_add_r by lia. do 2 f_equal. lia.
Qed.

Lemma ratio_ge_lift (a b k K : Z) :
  0 <= K -> 0 <= K + k ->
  ratio_ge a b k <-> b * 2 ^ (K + k) <= a * 2 ^ K.
Proof.
  intros HK HKk. destruct (ratio_lift a b k K HK HKk) as (s & Hs & Ha & Hb).
  unfold ratio_ge. rewrite <- Ha, <- Hb. split; intros H.
  - now apply Z.mul_le_mono_pos_r.
  - now apply Z.mul_le_mono_pos_r in H.
Qed.

Lemma ratio_lt_lift (a b k K : Z) :
  0 <= K -> 0 <= K + k ->
  ratio_lt a b k <-> a * 2 ^ K < b * 2 ^ (K + k).
Proof.
  intros HK HKk. destruct (ratio_lift a b k K HK HKk) as (s & Hs & Ha & Hb).
  unfold ratio_lt. rewrite <- Ha, <- Hb. split; intros H.
  - now apply Z.mul_lt_mono_pos_r.
  - now apply Z.mul_lt_mono_pos_r in H.
Qed.

Lemma ratio_lt_mono (a b j k : Z) :
  0 < b -> j <= k -> ratio_lt a b j -> ratio_lt a b k.
Proof.
  intros Hb Hjk Hlt.
  pose (K := Z.abs j + Z.abs k).
  rewrite (ratio_lt_lift a b j K) in Hlt by lia.
  rewrite (ratio_lt_lift a b k K) by lia.
  eapply Z.lt_le_trans; [exact Hlt |].
  apply Z.mul_le_mono_nonneg_l; [lia |].
  apply Z.pow_le_mono_r; lia.
Qed.

Lemma ratio_ge_not_lt (a b k : Z) : ratio_ge a b k <-> ~ ratio_lt a b k.
Proof. unfold ratio_ge, ratio_lt. lia. Qed.

(** [floor_log2_ratio] is the binary exponent of the ratio. *)
Lemma floor_log2_ratio_spec (a b : Z) :
  0 < a -> 0 < b ->
  ratio_ge a b (floor_log2_ratio a b) /\ ratio_lt a b (floor_log2_ratio a b + 1).
Proof.
  intros Ha Hb. unfold floor_log2_ratio.
  destruct (Z.log2_spec a Ha) as [Hla Hua].
  destruct (Z.log2_spec b Hb) as [Hlb Hub].
  pose proof (Z.log2_nonneg a) as Hna. pose proof (Z.log2_nonneg b) as Hnb.
  set (la := Z.log2 a) in *. set (lb := Z.log2 b) in *.
  pose (K := la + lb + 2).
  assert (Hlow : ratio_ge a b (la - lb - 1)).
  { apply (ratio_ge_lift a b (la - lb - 1) K); try (unfold K; lia).
    replace (K + (la - lb - 1)) with (la + K - Z.succ lb) by lia.
    apply Z.le_trans with (2 ^ Z.succ lb * 2 ^ (la + K - Z.succ lb)).
    - apply Z.mul_le_mono_nonneg_r; [apply Z.pow_nonneg |]; lia.
    - rewrite <- Z.pow_add_r by (unfold K; lia).
      replace (Z.succ lb + (la + K - Z.succ lb)) with (la + K) by lia.
      rewrite Z.pow_add_r by (unfold K; lia).
      apply Z.mul_le_mono_nonneg_r; [apply Z.pow_nonneg |]; lia. }
  assert (Hhigh : ratio_lt a b (la - lb + 1)).
  { apply (ratio_lt_lift a b (la - lb + 1) K); try (unfold K; lia).
    apply Z.lt_le_trans with (2 ^ Z.succ la * 2 ^ K).
    - apply Z.mul_lt_mono_pos_r; [apply pow2_pos; unfold K |]; lia.
    - rewrite <- Z.pow_add_r by (unfold K; lia).
      replace (Z.succ la + K) with (lb + (K + (la - lb + 1))) by lia.
      rewrite Z.pow_add_r by (unfold K; lia).
      apply Z.mul_le_mono_nonneg_r; [apply Z.pow_nonneg |]; lia. }
  cbv zeta. destruct (Z.leb_spec (scale 2 b (la - lb)) (scale 2 a (- (la - lb)))) as [Hge | Hlt].
  - split; [exact Hge | exact Hhigh].
  - split; [exact Hlow |]. replace (la - lb - 1 + 1) with (la - lb) by lia. exact Hlt.
Qed.

Lemma floor_log2_ratio_unique (a b k : Z) :
  0 < a -> 0 < b ->
  ratio_ge a b k -> ratio_lt a b (k + 1) -> floor_log2_ratio a b = k.
Proof.
  intros Ha Hb Hge Hlt.
  destruct (floor_log2_ratio_spec a b Ha Hb) as [Hge' Hlt'].
  set (l := floor_log2_ratio a b) in *.
  destruct (Z.lt_trichotomy l k) as [Hlk | [Heq | Hkl]]; [| assumption |].
  - exfalso. apply (proj1 (ratio_ge_not_lt a b k) Hge).
    apply (ratio_lt_mono a b (l + 1) k); [assumption | lia | assumption].
  - exfalso. apply (proj1 (ratio_ge_not_lt a b l) Hge').
    apply (ratio_lt_mono a b (k + 1) l); [assumption | lia | assumption].
Qed.

End Rounding.

Section RoundingResults.

Local Open Scope Z_scope.

Lemma ratio_lt_shift (a b k j : Z) :
  0 <= j ->
  ratio_lt a b (k + j) <-> scale 2 a (- k) < scale 2 b k * 2 ^ j.
Proof.
  intros Hj. pose (K := Z.abs k).
  rewrite (ratio_lt_lift a b (k + j) K) by (unfold K; lia).
  destruct (ratio_lift a b k K) as (s & Hs & Ha & Hb); try (unfold K; lia).
  rewrite <- Ha. replace (K + (k + j)) with (K + k + j) by lia.
  rewrite Z.pow_add_r, Z.mul_assoc, <- Hb by (unfold K; lia).
  replace (scale 2 b k * s * 2 ^ j) with (scale 2 b k * 2 ^ j * s) by ring.
  split; intros H.
  - now apply Z.mul_lt_mono_pos_r in H.
  - now apply Z.mul_lt_mono_pos_r.
Qed.

Lemma ratio_ge_shift (a b k j : Z) :
  0 <= j ->
  ratio_ge a b (k + j) <-> scale 2 b k * 2 ^ j <= scale 2 a (- k).
Proof.
  intros Hj. rewrite ratio_ge_not_lt, ratio_lt_shift by assumption. lia.
Qed.

(** What [round_ratio] returns is a double. *)
Lemma round_ratio_wf (neg : bool) (a b : Z) :
  0 < a -> 0 < b -> Number_wf (round_ratio neg a b).
Proof.
  intros Ha Hb. unfold round_ratio.
  destruct (floor_log2_ratio_spec a b Ha Hb) as [Hge Hlt].
  set (l := floor_log2_ratio a b) in *.
  set (e := Z.max (l - 52) (-1074)).
  set (n := scale 2 a (- e)). set (d := scale 2 b e).
  assert (Hd : 0 < d) by (apply scale_pos; lia).
  assert (Hn : 0 < n) by (apply scale_pos; lia).
  assert (Hupper : n < d * 2 ^ 53).
  { apply (ratio_lt_shift a b e 53); [lia |].
    apply (ratio_lt_mono a b (l + 1)); [assumption | unfold e; lia | assumption]. }
  assert (Hlower : e = l - 52 -> d * 2 ^ 52 <= n).
  { intros Hel. apply (ratio_ge_shift a b e 52); [lia |].
    replace (e + 52) with l by lia. assumption. }
  assert (Hq : 0 <= n / d < 2 ^ 53).
  { split; [apply Z.div_pos; lia | apply Z.div_lt_upper_bound; lia]. }
  assert (Hq52 : e = l - 52 -> 2 ^ 52 <= n / d).
  { intros Hel. apply Z.div_le_lower_bound; [lia | auto]. }
  set (q := n / d) in *. set (r := n mod d).
  set (m := if (d <? 2 * r) || ((d =? 2 * r) && Z.odd q) then q + 1 else q).
  assert (Hm : q <= m <= q + 1)
    by (unfold m; destruct ((d <? 2 * r) || ((d =? 2 * r) && Z.odd q)); lia).
  cbv zeta.
  destruct (Z.eqb_spec m (2 ^ 53)) as [Hcarry | Hnocarry].
  - destruct (971 <? e + 1) eqn:Hover; [exact I |].
    apply Z.ltb_ge in Hover. change (2 ^ 52) with 4503599627370496.
    cbn [Number_wf]. unfold canonical. unfold e in *. lia.
  - destruct (971 <? e) eqn:Hover; [exact I |].
    apply Z.ltb_ge in Hover.
    destruct m as [| p | p] eqn:Hmp; try exact I.
    cbn [Number_wf]. unfold canonical.
    split; [lia |]. split; [unfold e in *; lia |].
    destruct (Z.eq_dec e (l - 52)) as [Hel | Hel].
    + left. specialize (Hq52 Hel). lia.
    + right. unfold e in *. lia.
Qed.

(** A ratio that is a double rounds to it. *)
Lemma round_ratio_exact (neg : bool) (a b : Z) (m : positive) (e : Z) :
  0 < a -> 0 < b -> canonical m e ->
  scale 2 a (- e) = Z.pos m * scale 2 b e ->
  round_ratio neg a b = NFinite neg m e.
Proof.
  intros Ha Hb (Hm53 & He & Hnorm) Hval.
  assert (Hmpos : 0 < Z.pos m) by lia.
  destruct (Z.log2_spec (Z.pos m) Hmpos) as [Hlm Hum].
  pose proof (Z.log2_nonneg (Z.pos m)) as Hnm.
  set (lm := Z.log2 (Z.pos m)) in *.
  assert (Hlm52 : lm <= 52).
  { apply Z.lt_succ_r. apply (Z.pow_lt_mono_r_iff 2); lia. }
  assert (Hd : 0 < scale 2 b e) by (apply scale_pos; lia).
  assert (Hl : floor_log2_ratio a b = e + lm).
  { apply floor_log2_ratio_unique; try assumption.
    - apply ratio_ge_shift; [assumption |]. rewrite Hval.
      rewrite (Z.mul_comm (Z.pos m)). apply Z.mul_le_mono_nonneg_l; lia.
    - replace (e + lm + 1) with (e + Z.succ lm) by lia.
      apply ratio_lt_shift; [lia |]. rewrite Hval.
      rewrite (Z.mul_comm (Z.pos m)). apply Z.mul_lt_mono_pos_l; lia. }
  assert (Hexp : Z.max (e + lm - 52) (-1074) = e).
  { destruct Hnorm as [H52 | Hsub]; [| lia].
    assert (52 <= lm); [| lia].
    apply Z.lt_succ_r. apply (Z.pow_lt_mono_r_iff 2); lia. }
  unfold round_ratio. rewrite Hl. cbv zeta. rewrite Hexp, Hval.
  rewrite Z.div_mul, Z.mod_mul by lia.
  replace ((scale 2 b e <? 2 * 0) || (scale 2 b e =? 2 * 0) && Z.odd (Z.pos m))
    with false.
  2:{ symmetry. apply orb_false_iff. split.
      - apply Z.ltb_ge. lia.
      - apply andb_false_iff. left. apply Z.eqb_neq. lia. }
  destruct (Z.eqb_spec (Z.pos m) (2 ^ 53)) as [Hbad | _]; [lia |].
  destruct (Z.ltb_spec 971 e); [lia | reflexivity].
Qed.

Lemma Number_of_decimal_wf (neg : bool) (M : N) (E : Z) :
  Number_wf (Number_of_decimal neg M E).
Proof.
  destruct M as [| p]; [exact I |].
  apply round_ratio_wf; apply scale_pos; lia.
Qed.

End RoundingResults.

(** ** Number::toString denotes its argument *)

Section ShortestDecimal.

Local Open Scope Z_scope.

Lemma Number_eqb_eq (x y : Number) : Number_eqb x y = true -> x = y.
Proof.
  destruct x as [| s m e | s], y as [| s' m' e' | s']; simpl; try discriminate;
    try reflexivity.
  - rewrite !andb_true_iff. intros [[Hs Hm] He].
    apply Bool.eqb_prop in Hs. apply Pos.eqb_eq in Hm. apply Z.eqb_eq in He.
    now subst.
  - intros Hs. apply Bool.eqb_prop in Hs. now subst.
Qed.

Lemma mk_decimal_digits (s n0 k : Z) :
  digits_value (fst (mk_decimal s n0 k)) <> 0%N ->
  positive_digits (fst (mk_decimal s n0 k)).
Proof.
  unfold mk_decimal. destruct (s =? 10 ^ k).
  - intros _. exists 1%N. split; [lia | reflexivity].
  - cbn [fst]. rewrite digits_of_value. intros Hs.
    exists (Z.to_N s). split; [lia | reflexivity].
Qed.

Lemma denotes_finite_value (neg : bool) (d : decimal) (m : positive) (e : Z) :
  decimal_denotes neg d = NFinite neg m e -> digits_value (fst d) <> 0%N.
Proof.
  unfold decimal_denotes. intros Hd Hz. rewrite Hz in Hd. discriminate.
Qed.

Lemma pow10_split (k : Z) : 0 <= k -> 10 ^ k = 2 ^ k * 5 ^ k.
Proof. intros Hk. now rewrite <- Z.pow_mul_l. Qed.

Lemma exact_decimal_denotes (neg : bool) (m : positive) (e : Z) :
  canonical m e ->
  decimal_denotes neg (exact_decimal m e) = NFinite neg m e /\
  positive_digits (fst (exact_decimal m e)).
Proof.
  intros Hc. unfold exact_decimal, decimal_denotes. cbn [fst snd].
  set (s := if 0 <=? e then Z.pos m * 2 ^ e else Z.pos m * 5 ^ (- e)).
  assert (Hs : 0 < s).
  { unfold s. destruct (0 <=? e) eqn:He.
    - apply Z.leb_le in He. apply Z.mul_pos_pos; [lia | apply Z.pow_pos_nonneg; lia].
    - apply Z.leb_gt in He. apply Z.mul_pos_pos; [lia | apply Z.pow_pos_nonneg; lia]. }
  split.
  2:{ exists (Z.to_N s). split; [lia | reflexivity]. }
  rewrite digits_of_value.
  replace (Z.of_nat (length (digits_of (Z.to_N s))) + Z.min 0 e
           - Z.of_nat (length (digits_of (Z.to_N s)))) with (Z.min 0 e) by lia.
  unfold Number_of_decimal.
  destruct (Z.to_N s) as [| p] eqn:Hp; [lia |].
  assert (Hps : Z.pos p = s) by lia.
  rewrite Hps. apply round_ratio_exact; try (apply scale_pos; lia); try assumption.
  unfold scale, s. destruct (Z.leb_spec 0 e) as [He | He].
  - rewrite (Z.min_l 0 e), (Z.max_l 0 (- e)), (Z.max_r 0 e) by lia.
    cbn [Z.opp]. rewrite (Z.max_l 0 0) by lia. rewrite !Z.pow_0_r. ring.
  - rewrite (Z.min_r 0 e), (Z.max_r 0 (- e)), (Z.max_l 0 e) by lia.
    rewrite !Z.pow_0_r, (pow10_split (- e)) by lia. ring.
Qed.

Lemma shortest_from_denotes (fuel : nat) (k : Z) (neg : bool) (m : positive) (e : Z)
    (a b n0 : Z) :
  canonical m e ->
  decimal_denotes neg (shortest_from fuel k neg m e a b n0) = NFinite neg m e /\
  positive_digits (fst (shortest_from fuel k neg m e a b n0)).
Proof.
  intros Hc. revert k. induction fuel as [| fuel IH]; intros k; cbn [shortest_from].
  - now apply exact_decimal_denotes.
  - unfold candidates.
    set (lo := scale 10 a (k - n0) / scale 10 b (n0 - k)).
    set (r := scale 10 a (k - n0) mod scale 10 b (n0 - k)).
    set (den := scale 10 b (n0 - k)).
    destruct ((2 * r <? den) || (2 * r =? den) && Z.even lo).
    + destruct (Number_eqb (decimal_denotes neg (mk_decimal lo n0 k)) (NFinite neg m e)) eqn:E1.
      { apply Number_eqb_eq in E1. split; [assumption |].
        eapply mk_decimal_digits, denotes_finite_value, E1. }
      destruct (Number_eqb (decimal_denotes neg (mk_decimal (lo + 1) n0 k)) (NFinite neg m e)) eqn:E2.
      { apply Number_eqb_eq in E2. split; [assumption |].
        eapply mk_decimal_digits, denotes_finite_value, E2. }
      apply IH.
    + destruct (Number_eqb (decimal_denotes neg (mk_decimal (lo + 1) n0 k)) (NFinite neg m e)) eqn:E2.
      { apply Number_eqb_eq in E2. split; [assumption |].
        eapply mk_decimal_digits, denotes_finite_value, E2. }
      destruct (Number_eqb (decimal_denotes neg (mk_decimal lo n0 k)) (NFinite neg m e)) eqn:E1.
      { apply Number_eqb_eq in E1. split; [assumption |].
        eapply mk_decimal_digits, denotes_finite_value, E1. }
      apply IH.
Qed.

(** The decimal [Number::toString] prints denotes the number. *)
Lemma shortest_decimal_denotes (neg : bool) (m : positive) (e : Z) :
  canonical m e ->
  decimal_denotes neg (shortest_decimal neg m e) = NFinite neg m e /\
  positive_digits (fst (shortest_decimal neg m e)).
Proof. intros Hc. now apply shortest_from_denotes. Qed.

End ShortestDecimal.

(** ** Reading back a printed number *)

Section NumberText.

Lemma number_end_no_digit (s : jsstring) : number_end s -> no_digit_ahead s.
Proof. destruct s; simpl; tauto. Qed.

Lemma zeros_show (j : Z) : zeros j = show_digits (repeat 0%N (Z.to_nat j)).
Proof.
  unfold zeros. induction (Z.to_nat j) as [| n IH]; [reflexivity |].
  cbn [repeat_str repeat show_digits map]. now rewrite IH.
Qed.

Lemma digits_ok_zeros (n : nat) : digits_ok (repeat 0%N n).
Proof.
  induction n; cbn [repeat]; constructor; [lia | assumption].
Qed.

Lemma parse_frac_absent (s : jsstring) :
  number_end s -> parse_frac s = Some ([], s).
Proof.
  destruct s as [| c s]; [reflexivity |]. intros (_ & Hdot & _).
  cbn [parse_frac]. apply N.eqb_neq in Hdot. now rewrite Hdot.
Qed.

Lemma parse_exp_absent (s : jsstring) :
  number_end s -> parse_exp s = Some (0%Z, s).
Proof.
  destruct s as [| c s]; [reflexivity |]. intros (_ & _ & He & HE).
  cbn [parse_exp]. apply N.eqb_neq in He, HE. now rewrite He, HE.
Qed.

Lemma parse_frac_digits (fs : list N) (rest : jsstring) :
  digits_ok fs -> fs <> [] -> no_digit_ahead rest ->
  parse_frac (Ch.dot :: show_digits fs ++ rest) = Some (fs, rest).
Proof.
  intros Hok Hne Hrest. cbn [parse_frac]. rewrite N.eqb_refl.
  rewrite (span_digits_show fs rest Hok Hrest).
  destruct fs; [congruence | reflexivity].
Qed.

Lemma parse_exp_show (e : Z) (rest : jsstring) :
  no_digit_ahead rest ->
  parse_exp (show_exponent e ++ rest) = Some (e, rest).
Proof.
  intros Hrest. unfold show_exponent, show_N.
  destruct (digits_of_spec (Z.abs_N e)) as (Hval & Hok & _).
  pose proof (digits_of_not_nil (Z.abs_N e)) as Hne.
  cbn [app parse_exp]. change (Ch.lower_e =? Ch.lower_e)%N with true. cbn [orb].
  destruct (Z.leb_spec 0 e) as [He | He].
  - change (Ch.plus =? Ch.minus)%N with false. change (Ch.plus =? Ch.plus)%N with true.
    cbv iota. rewrite (span_digits_show _ rest Hok Hrest).
    destruct (digits_of (Z.abs_N e)) eqn:Hd; [congruence |].
    rewrite Hval. do 2 f_equal. lia.
  - change (Ch.minus =? Ch.minus)%N with true.
    cbv iota. rewrite (span_digits_show _ rest Hok Hrest).
    destruct (digits_of (Z.abs_N e)) eqn:Hd; [congruence |].
    rewrite Hval. do 2 f_equal. lia.
Qed.

(** The integer part, then whatever fraction and exponent follow. *)
Lemma parse_unsigned_digits (neg : bool) (d0 : N) (tl : list N) (tail : jsstring)
    (frac_ds : list N) (s3 : jsstring) (e : Z) (s5 : jsstring) :
  digits_ok (d0 :: tl) ->
  (d0 <> 0%N \/ tl = []) ->
  no_digit_ahead tail ->
  parse_frac tail = Some (frac_ds, s3) ->
  parse_exp s3 = Some (e, s5) ->
  parse_unsigned neg (show_digits (d0 :: tl) ++ tail)
  = Some (Number_of_decimal neg (digits_value ((d0 :: tl) ++ frac_ds))
            (e - Z.of_nat (length frac_ds))%Z, s5).
Proof.
  intros Hok Hlead Htail Hfrac Hexp. unfold parse_unsigned.
  rewrite (span_digits_show _ tail Hok Htail).
  replace ((d0 =? 0)%N && negb (length tl =? 0)%nat) with false.
  - now rewrite Hfrac, Hexp.
  - symmetry. apply andb_false_iff. destruct Hlead as [Hd | ->].
    + left. now apply N.eqb_neq.
    + right. reflexivity.
Qed.

Lemma Number_of_decimal_shift (neg : bool) (M : N) (j : nat) :
  Number_of_decimal neg (M * 10 ^ N.of_nat j) 0 = Number_of_decimal neg M (Z.of_nat j).
Proof.
  destruct M as [| p]; [reflexivity |].
  assert (Hpos : (0 < N.pos p * 10 ^ N.of_nat j)%N).
  { apply N.mul_pos_pos; [lia |]. apply N.neq_0_lt_0, N.pow_nonzero. lia. }
  destruct (N.pos p * 10 ^ N.of_nat j)%N as [| q] eqn:Hq; [lia |].
  unfold Number_of_decimal, scale.
  assert (Hz : Z.pos q = (Z.pos p * 10 ^ Z.of_nat j)%Z).
  { change (Z.pos q) with (Z.of_N (N.pos q)). rewrite <- Hq.
    rewrite N2Z.inj_mul, N2Z.inj_pow. now rewrite nat_N_Z. }
  rewrite Hz. f_equal.
  - cbn [Z.opp]. rewrite Z.max_id, (Z.max_r 0 (Z.of_nat j)) by lia.
    rewrite Z.pow_0_r. ring.
  - cbn [Z.opp]. rewrite Z.max_id, (Z.max_l 0 (- Z.of_nat j)) by lia. reflexivity.
Qed.

End NumberText.

Section NumberRoundTrip.

Local Open Scope Z_scope.

Lemma positive_digits_shape (ds : list N) :
  positive_digits ds ->
  digits_ok ds /\ exists d0 tl, ds = d0 :: tl /\ (0 < d0)%N.
Proof.
  intros (n & Hn & ->). destruct (digits_of_spec n) as (_ & Hok & Hhead).
  split; [assumption | now apply Hhead].
Qed.

Lemma digits_ok_app (a b : list N) : digits_ok a -> digits_ok b -> digits_ok (a ++ b).
Proof. intros Ha Hb. apply Forall_app. now split. Qed.

Lemma digits_ok_firstn (n : nat) (ds : list N) : digits_ok ds -> digits_ok (firstn n ds).
Proof.
  intros Hok. rewrite <- (firstn_skipn n ds) in Hok. now apply Forall_app in Hok.
Qed.

Lemma digits_ok_skipn (n : nat) (ds : list N) : digits_ok ds -> digits_ok (skipn n ds).
Proof.
  intros Hok. rewrite <- (firstn_skipn n ds) in Hok. now apply Forall_app in Hok.
Qed.

Lemma digits_value_leading_zeros (n : nat) (ds : list N) :
  digits_value (repeat 0%N n ++ ds) = digits_value ds.
Proof.
  rewrite digits_value_app, digits_value_zeros. lia.
Qed.

(** Each layout of [format_decimal] reads back as the decimal. *)
Lemma parse_unsigned_format (neg : bool) (ds : list N) (n : Z) (rest : jsstring) :
  positive_digits ds -> number_end rest ->
  parse_unsigned neg (format_decimal (ds, n) ++ rest)
  = Some (decimal_denotes neg (ds, n), rest).
Proof.
  intros Hpos Hend.
  destruct (positive_digits_shape ds Hpos) as (Hok & d0 & tl & Hds & Hd0).
  pose proof (number_end_no_digit rest Hend) as Hnd.
  subst ds. clear Hpos.
  assert (Hd10 : (d0 < 10)%N) by now inversion Hok.
  unfold format_decimal, decimal_denotes. cbn [fst snd].
  set (ds := d0 :: tl) in *.
  set (k := Z.of_nat (length ds)).
  assert (Hk : k = Z.of_nat (length tl) + 1) by (unfold k, ds; cbn [length]; lia).
  destruct ((k <=? n) && (n <=? 21)) eqn:L1.
  { (* digits and zeros *)
    apply andb_true_iff in L1. destruct L1 as [Hkn _]. apply Z.leb_le in Hkn.
    rewrite zeros_show, <- show_digits_app.
    unfold ds at 1. cbn [app].
    rewrite (parse_unsigned_digits neg d0 (tl ++ repeat 0%N (Z.to_nat (n - k))) rest
               [] rest 0 rest).
    - rewrite app_nil_r. cbn [length]. f_equal. f_equal.
      change (d0 :: tl ++ repeat 0%N (Z.to_nat (n - k)))
        with (ds ++ repeat 0%N (Z.to_nat (n - k))).
      rewrite digits_value_app, digits_value_zeros, repeat_length, N.add_0_r.
      change (0 - Z.of_nat 0) with 0.
      rewrite Number_of_decimal_shift. f_equal. lia.
    - change (d0 :: tl ++ repeat 0%N (Z.to_nat (n - k)))
        with (ds ++ repeat 0%N (Z.to_nat (n - k))).
      apply digits_ok_app; [assumption | apply digits_ok_zeros].
    - left. lia.
    - assumption.
    - now apply parse_frac_absent.
    - now apply parse_exp_absent. }
  destruct ((0 <? n) && (n <=? 21)) eqn:L2.
  { (* digits, point, digits *)
    assert (Hnk : n < k).
    { apply andb_false_iff in L1. apply andb_true_iff in L2 as [_ Hn21].
      destruct L1 as [L1 | L1]; [now apply Z.leb_gt in L1 | congruence]. }
    apply andb_true_iff in L2. destruct L2 as [Hn0 _]. apply Z.ltb_lt in Hn0.
    assert (Hfirst : exists tl', firstn (Z.to_nat n) ds = d0 :: tl').
    { unfold ds. destruct (Z.to_nat n) as [| n'] eqn:Hn'; [lia |].
      cbn [firstn]. eauto. }
    destruct Hfirst as [tl' Hfirst].
    assert (Hskip : skipn (Z.to_nat n) ds <> []).
    { intros Hnil. apply (f_equal (@length N)) in Hnil.
      rewrite length_skipn in Hnil. cbn [length] in Hnil. unfold k in Hnk. lia. }
    rewrite <- !app_assoc. rewrite Hfirst.
    rewrite (parse_unsigned_digits neg d0 tl' _ (skipn (Z.to_nat n) ds) rest 0 rest).
    - rewrite <- Hfirst, firstn_skipn. f_equal. f_equal. f_equal.
      rewrite length_skipn. unfold k. lia.
    - rewrite <- Hfirst. now apply digits_ok_firstn.
    - left. lia.
    - reflexivity.
    - cbn [app]. apply parse_frac_digits; [now apply digits_ok_skipn | assumption | assumption].
    - now apply parse_exp_absent. }
  destruct ((-6 <? n) && (n <=? 0)) eqn:L3.
  { (* zero, point, zeros, digits *)
    apply andb_true_iff in L3. destruct L3 as [_ Hn0]. apply Z.leb_le in Hn0.
    rewrite zeros_show, <- !app_assoc.
    change ([Ch.zero; Ch.dot] ++ ?x) with (show_digits [0%N] ++ Ch.dot :: x).
    rewrite (app_assoc (show_digits (repeat 0%N (Z.to_nat (- n))))), <- show_digits_app.
    rewrite (parse_unsigned_digits neg 0%N [] _ (repeat 0%N (Z.to_nat (- n)) ++ ds) rest 0 rest).
    - f_equal. f_equal. f_equal.
      + change ([0%N] ++ repeat 0%N (Z.to_nat (- n)) ++ ds)
          with (repeat 0%N (S (Z.to_nat (- n))) ++ ds).
        now rewrite digits_value_leading_zeros.
      + rewrite length_app, repeat_length. unfold k. lia.
    - constructor; [lia | constructor].
    - right. reflexivity.
    - reflexivity.
    - apply parse_frac_digits; [| | assumption].
      + apply digits_ok_app; [apply digits_ok_zeros | assumption].
      + unfold ds. now destruct (repeat 0%N (Z.to_nat (- n))).
    - now apply parse_exp_absent. }
  (* exponent *)
  assert (Hexp : parse_exp (show_exponent (n - 1) ++ rest) = Some (n - 1, rest))
    by now apply parse_exp_show.
  unfold ds at 1. unfold ds in Hok.
  destruct tl as [| d1 tl].
  - rewrite <- app_assoc.
    rewrite (parse_unsigned_digits neg d0 [] _ [] (show_exponent (n - 1) ++ rest) (n - 1) rest).
    + rewrite app_nil_r. f_equal. f_equal. f_equal. cbn [length] in *. lia.
    + assumption.
    + right. reflexivity.
    + reflexivity.
    + reflexivity.
    + assumption.
  - rewrite <- !app_assoc.
    rewrite (parse_unsigned_digits neg d0 [] _ (d1 :: tl) (show_exponent (n - 1) ++ rest)
               (n - 1) rest).
    + f_equal. f_equal. f_equal. cbn [length] in *. lia.
    + constructor; [lia | constructor].
    + left. lia.
    + reflexivity.
    + cbn [app]. apply parse_frac_digits; [now inversion Hok | discriminate | reflexivity].
    + assumption.
Qed.

Lemma format_decimal_first (ds : list N) (n : Z) :
  positive_digits ds ->
  exists d rest', format_decimal (ds, n) = digit_char d :: rest' /\ (d < 10)%N.
Proof.
  intros Hpos.
  destruct (positive_digits_shape ds Hpos) as (Hok & d0 & tl & Hds & Hd0).
  assert (Hd : (d0 < 10)%N) by (rewrite Hds in Hok; now inversion Hok).
  unfold format_decimal.
  destruct ((Z.of_nat (length ds) <=? n) && (n <=? 21)).
  { rewrite Hds. cbn [show_digits map app]. eauto. }
  destruct ((0 <? n) && (n <=? 21)) eqn:L2.
  { apply andb_true_iff in L2. destruct L2 as [Hn0 _]. apply Z.ltb_lt in Hn0.
    rewrite Hds. destruct (Z.to_nat n) as [| n'] eqn:Hn'; [lia |].
    cbn [firstn show_digits map app]. eauto. }
  destruct ((-6 <? n) && (n <=? 0)).
  { exists 0%N. eexists. split; [reflexivity | lia]. }
  rewrite Hds. destruct tl; cbn [show_digits map app]; eauto.
Qed.

(** A finite double, printed and read back, is itself. *)
Theorem parse_number_NumberToString (x : Number) (rest : jsstring) :
  Number_wf x -> Number_finite x = true -> number_end rest ->
  parse_number (NumberToString x ++ rest) = Some (x, rest).
Proof.
  intros Hwf Hfin Hend. destruct x as [| neg m e | neg]; [| | discriminate].
  - cbn [NumberToString app parse_number]. change (Ch.zero =? Ch.minus)%N with false.
    cbv iota. change [Ch.zero] with (show_digits [0%N]).
    change (Ch.zero :: rest) with (show_digits [0%N] ++ rest).
    rewrite (parse_unsigned_digits false 0%N [] rest [] rest 0 rest);
      try reflexivity.
    + constructor; [lia | constructor].
    + now right.
    + now apply number_end_no_digit.
    + now apply parse_frac_absent.
    + now apply parse_exp_absent.
  - cbn [Number_wf] in Hwf.
    destruct (shortest_decimal_denotes neg m e Hwf) as [Hden Hpos].
    cbn [NumberToString]. destruct (shortest_decimal neg m e) as [ds n] eqn:Hd.
    cbn [fst] in Hpos.
    destruct neg.
    + cbn [app parse_number]. rewrite N.eqb_refl.
      rewrite (parse_unsigned_format true ds n rest Hpos Hend). now rewrite Hden.
    + destruct (format_decimal_first ds n Hpos) as (d & rest' & Hfmt & Hd10).
      cbn [app]. rewrite Hfmt. cbn [app parse_number].
      replace (digit_char d =? Ch.minus)%N with false
        by (symmetry; apply N.eqb_neq; unfold digit_char, Ch.minus; lia).
      change (digit_char d :: rest' ++ rest) with ((digit_char d :: rest') ++ rest).
      rewrite <- Hfmt.
      rewrite (parse_unsigned_format false ds n rest Hpos Hend). now rewrite Hden.
Qed.

End NumberRoundTrip.

(** ** Reading back a quoted string *)

Section StringRoundTrip.

Local Open Scope N_scope.

Lemma hex_val_char (d : N) : d < 16 -> hex_val (hex_char d) = Some d.
Proof.
  intros Hd. unfold hex_val, hex_char, is_digit.
  destruct (N.ltb_spec d 10) as [Hlt | Hge].
  - replace ((48 <=? 48 + d) && (48 + d <=? 57)) with true.
    + f_equal. lia.
    + symmetry. apply andb_true_iff. split; apply N.leb_le; lia.
  - replace ((48 <=? 87 + d) && (87 + d <=? 57)) with false.
    + replace ((97 <=? 87 + d) && (87 + d <=? 102)) with true.
      * f_equal. lia.
      * symmetry. apply andb_true_iff. split; apply N.leb_le; lia.
    + symmetry. apply andb_false_iff. right. apply N.leb_gt. lia.
Qed.

Lemma hex4_digits (c : char16) :
  c < 65536 ->
  hex4 (hex_char ((c / 4096) mod 16)) (hex_char ((c / 256) mod 16))
       (hex_char ((c / 16) mod 16)) (hex_char (c mod 16)) = Some c.
Proof.
  intros Hc. unfold hex4.
  rewrite !hex_val_char by (apply N.mod_lt; lia).
  f_equal.
  pose proof (N.div_mod c 16). pose proof (N.div_mod (c / 16) 16).
  pose proof (N.div_mod (c / 256) 16).
  assert (H256 : c / 256 = c / 16 / 16) by (rewrite N.Div0.div_div; reflexivity).
  assert (H4096 : c / 4096 = c / 256 / 16) by (rewrite N.Div0.div_div; reflexivity).
  assert (Hsmall : c / 4096 < 16) by (apply N.Div0.div_lt_upper_bound; lia).
  rewrite (N.mod_small (c / 4096) 16 Hsmall).
  rewrite H4096, H256 in *. lia.
Qed.

Lemma parse_unicode_escape (c : char16) (tail : jsstring) :
  c < 65536 ->
  parse_string_body (unicode_escape c ++ tail) = cons_fst c (parse_string_body tail).
Proof.
  intros Hc. unfold unicode_escape. cbn [app parse_string_body].
  change (Ch.backslash =? Ch.quote) with false.
  change (Ch.backslash =? Ch.backslash) with true.
  change (117 =? 117) with true. cbv iota.
  now rewrite (hex4_digits c Hc).
Qed.

Lemma short_escape_cases (c : char16) :
  match short_escape c with
  | Some e => e <> 117 /\ short_unescape e = Some c
  | None => c <> Ch.quote /\ c <> Ch.backslash
  end.
Proof.
  unfold short_escape.
  repeat match goal with
         | |- context [N.eqb c ?k] => destruct (N.eqb_spec c k) as [-> | ?]
         end; split; try reflexivity; try discriminate;
    unfold Ch.quote, Ch.backslash; assumption.
Qed.

Lemma parse_short_escape (c e : char16) (tail : jsstring) :
  short_escape c = Some e ->
  parse_string_body (Ch.backslash :: e :: tail) = cons_fst c (parse_string_body tail).
Proof.
  intros He. pose proof (short_escape_cases c) as Hc. rewrite He in Hc.
  destruct Hc as [Hu Hun]. cbn [parse_string_body].
  change (Ch.backslash =? Ch.quote) with false.
  change (Ch.backslash =? Ch.backslash) with true. cbv iota.
  apply N.eqb_neq in Hu. rewrite Hu, Hun. reflexivity.
Qed.

Lemma parse_verbatim (c : char16) (tail : jsstring) :
  c <> Ch.quote -> c <> Ch.backslash -> 32 <= c ->
  parse_string_body (c :: tail) = cons_fst c (parse_string_body tail).
Proof.
  intros Hq Hb Hc. cbn [parse_string_body].
  apply N.eqb_neq in Hq, Hb. rewrite Hq, Hb.
  apply N.ltb_ge in Hc. now rewrite Hc.
Qed.

Lemma surrogate_bounds (c : char16) :
  is_high_surrogate c = true \/ is_low_surrogate c = true ->
  c < 65536 /\ 32 <= c /\ c <> Ch.quote /\ c <> Ch.backslash.
Proof.
  unfold is_high_surrogate, is_low_surrogate, Ch.quote, Ch.backslash.
  rewrite !andb_true_iff, !N.leb_le. lia.
Qed.

Lemma parse_quote_body_bounded (n : nat) (s rest : jsstring) :
  (length s <= n)%nat ->
  parse_string_body (quote_body s ++ Ch.quote :: rest) = Some (s, rest).
Proof.
  revert s. induction n as [| n IH]; intros s Hlen.
  - destruct s; [reflexivity | simpl in Hlen; lia].
  - destruct s as [| c s]; [reflexivity |].
    cbn [length] in Hlen. cbn [quote_body].
    pose proof (short_escape_cases c) as Hcase.
    destruct (short_escape c) as [e |] eqn:He.
    { cbn [app]. rewrite (parse_short_escape c e _ He), IH by lia. reflexivity. }
    destruct Hcase as [Hq Hb].
    destruct (N.ltb_spec c 32) as [Hctl | Hprint].
    { rewrite <- app_assoc, parse_unicode_escape, IH by lia. reflexivity. }
    destruct (is_high_surrogate c) eqn:Hhigh.
    { pose proof (surrogate_bounds c (or_introl Hhigh)) as (Hc16 & _).
      destruct s as [| c2 s].
      - rewrite parse_unicode_escape by assumption. reflexivity.
      - destruct (is_low_surrogate c2) eqn:Hlow.
        + pose proof (surrogate_bounds c2 (or_intror Hlow)) as (_ & H32 & Hq2 & Hb2).
          cbn [app]. rewrite parse_verbatim, parse_verbatim by assumption.
          cbn [length] in Hlen. rewrite IH by lia. reflexivity.
        + rewrite <- app_assoc, parse_unicode_escape, IH by (assumption || lia).
          reflexivity. }
    destruct (is_low_surrogate c) eqn:Hlow.
    { pose proof (surrogate_bounds c (or_intror Hlow)) as (Hc16 & _).
      rewrite <- app_assoc, parse_unicode_escape, IH by (assumption || lia).
      reflexivity. }
    cbn [app]. rewrite parse_verbatim, IH by (assumption || lia). reflexivity.
Qed.

(** A string, quoted and read back, is itself. *)
Theorem parse_QuoteJSONString (s rest : jsstring) :
  parse_string_body (quote_body s ++ Ch.quote :: rest) = Some (s, rest).
Proof. apply (parse_quote_body_bounded (length s)). lia. Qed.

End StringRoundTrip.

(** ** The order of the properties of an object *)

Section ArrayIndex.

Local Open Scope N_scope.

Lemma is_digit_val (c : char16) :
  is_digit c = true -> digit_char (digit_val c) = c /\ digit_val c < 10.
Proof.
  unfold is_digit, digit_char, digit_val.
  rewrite andb_true_iff, !N.leb_le. lia.
Qed.

Lemma span_digits_whole (key : jsstring) (ds : list N) :
  span_digits key = (ds, []) -> key = show_digits ds /\ digits_ok ds.
Proof.
  revert ds. induction key as [| c key IH]; intros ds; cbn [span_digits].
  - intros [= <-]. split; [reflexivity | constructor].
  - destruct (is_digit c) eqn:Hc; [| discriminate].
    destruct (span_digits key) as [ds' rest'] eqn:Hspan.
    intros [= <- ->]. destruct (IH ds' eq_refl) as [-> Hok].
    destruct (is_digit_val c Hc) as [Hchar Hval].
    split.
    + cbn [show_digits map]. now rewrite Hchar.
    + now constructor.
Qed.

(** Digits without a leading zero are the digits of their value. *)
Lemma digits_aux_of_value (pre acc : list N) (fuel : nat) :
  digits_ok pre ->
  (exists d0 tl, pre = d0 :: tl /\ 0 < d0) ->
  digits_value pre < 2 ^ N.of_nat fuel ->
  digits_aux fuel (digits_value pre) acc = pre ++ acc.
Proof.
  revert acc fuel. induction pre as [| d pre' IH] using rev_ind; intros acc fuel Hok Hhead Hfuel.
  - destruct Hhead as (d0 & tl & Hnil & _). discriminate.
  - apply Forall_app in Hok. destruct Hok as [Hok' Hd]. inversion Hd as [| ? ? Hd10 _]; subst.
    rewrite digits_value_app in *. cbn [length] in *.
    change (digits_value [d]) with (10 * 0 + d) in *.
    change (10 ^ N.of_nat 1) with 10 in *.
    destruct pre' as [| d0 tl].
    + change (digits_value []) with 0 in *. cbn [app].
      replace (0 * 10 + (10 * 0 + d)) with d by lia.
      destruct fuel; cbn [digits_aux]; [reflexivity |].
      replace (d <? 10) with true by (symmetry; apply N.ltb_lt; lia). reflexivity.
    + assert (Hd0 : 0 < d0).
      { destruct Hhead as (d0' & tl' & Heq & Hpos). cbn [app] in Heq.
        injection Heq as <- _. assumption. }
      assert (Hv : 1 <= digits_value (d0 :: tl)).
      { rewrite digits_value_cons.
        assert (0 < 10 ^ N.of_nat (length tl)) by (apply N.neq_0_lt_0, N.pow_nonzero; lia).
        nia. }
      destruct fuel as [| fuel].
      { cbn [N.of_nat] in Hfuel. change (2 ^ 0) with 1 in Hfuel. lia. }
      cbn [digits_aux].
      replace (digits_value (d0 :: tl) * 10 + (10 * 0 + d) <? 10) with false
        by (symmetry; apply N.ltb_ge; lia).
      replace ((digits_value (d0 :: tl) * 10 + (10 * 0 + d)) / 10)
        with (digits_value (d0 :: tl)).
      2:{ apply N.div_unique with d; lia. }
      replace ((digits_value (d0 :: tl) * 10 + (10 * 0 + d)) mod 10) with d.
      2:{ apply N.mod_unique with (digits_value (d0 :: tl)); lia. }
      rewrite IH.
      * now rewrite <- app_assoc.
      * assumption.
      * now exists d0, tl.
      * rewrite Nat2N.inj_succ, N.pow_succ_r' in Hfuel. lia.
Qed.

Lemma digits_of_digits_value (ds : list N) :
  digits_ok ds ->
  (exists d0 tl, ds = d0 :: tl /\ (0 < d0 \/ tl = [])) ->
  digits_of (digits_value ds) = ds.
Proof.
  intros Hok (d0 & tl & -> & [Hd0 | ->]).
  - unfold digits_of. rewrite digits_aux_of_value.
    + apply app_nil_r.
    + assumption.
    + now exists d0, tl.
    + rewrite N2Nat.id. apply N.size_gt.
  - inversion Hok as [| ? ? Hd _]; subst.
    change (digits_value [d0]) with (10 * 0 + d0). replace (10 * 0 + d0) with d0 by lia.
    unfold digits_of. destruct (N.to_nat (N.size d0)); cbn [digits_aux]; [reflexivity |].
    replace (d0 <? 10) with true by (symmetry; apply N.ltb_lt; lia). reflexivity.
Qed.

(** An array index has one spelling. *)
Lemma array_index_show (key : jsstring) (i : N) :
  array_index key = Some i -> key = show_N i.
Proof.
  unfold array_index. destruct (span_digits key) as [ds rest] eqn:Hspan.
  destruct ds as [| d0 ds]; [discriminate |].
  destruct rest; [| discriminate].
  destruct ((d0 =? 0) && negb (length ds =? 0)%nat) eqn:Hlead; [discriminate |].
  destruct (digits_value (d0 :: ds) <? 4294967295); [| discriminate].
  intros [= <-]. destruct (span_digits_whole key (d0 :: ds) Hspan) as [-> Hok].
  unfold show_N. rewrite digits_of_digits_value; [reflexivity | assumption |].
  exists d0, ds. split; [reflexivity |].
  apply andb_false_iff in Hlead. destruct Hlead as [Hd | Hl].
  - left. apply N.eqb_neq in Hd. lia.
  - right. apply negb_false_iff, Nat.eqb_eq in Hl. now destruct ds.
Qed.

Lemma array_index_inj (k1 k2 : jsstring) (i : N) :
  array_index k1 = Some i -> array_index k2 = Some i -> k1 = k2.
Proof.
  intros H1 H2. rewrite (array_index_show k1 i H1). symmetry. now apply array_index_show.
Qed.

End ArrayIndex.

Section ObjectOrder.

Lemma has_property_In (key : jsstring) (o : JsonObject) :
  has_property key o = true <-> In key (map fst o).
Proof.
  unfold has_property. induction o as [| [k w] o IH]; cbn [get_property map fst In].
  - split; [discriminate | tauto].
  - destruct (jsstring_eqb k key) eqn:E.
    + apply jsstring_eqb_eq in E. tauto.
    + apply jsstring_eqb_neq in E. rewrite IH. tauto.
Qed.

Lemma has_property_false (key : jsstring) (o : JsonObject) :
  has_property key o = false <-> ~ In key (map fst o).
Proof.
  rewrite <- has_property_In. destruct (has_property key o); split; congruence.
Qed.

Lemma replace_property_keys (key : jsstring) (v : JsonValue) (o : JsonObject) :
  map fst (replace_property key v o) = map fst o.
Proof.
  induction o as [| [k w] o IH]; [reflexivity |].
  cbn [replace_property]. destruct (jsstring_eqb k key); cbn [map fst]; congruence.
Qed.

Lemma insert_index_keys (i : N) (key : jsstring) (v : JsonValue) (o : JsonObject) (x : jsstring) :
  In x (map fst (insert_index i key v o)) <-> x = key \/ In x (map fst o).
Proof.
  induction o as [| [k w] o IH]; cbn [insert_index map fst In].
  - intuition.
  - destruct (array_index k) as [j |]; [destruct (j <? i)%N |];
      cbn [map fst In]; rewrite ?IH; intuition.
Qed.

Lemma keys_wf_append (ks : list jsstring) (k : jsstring) :
  keys_wf ks -> ~ In k ks -> array_index k = None -> keys_wf (ks ++ [k]).
Proof.
  intros Hwf Hnew Hnot. induction Hwf as [| k0 ks Hwf IH Hk0 Hidx]; cbn [app].
  - constructor; [constructor | tauto |]. intros k' i' [].
  - cbn [In] in Hnew. constructor.
    + apply IH. tauto.
    + rewrite in_app_iff. cbn [In]. intuition.
    + intros k' i' Hin Hi'. apply in_app_iff in Hin. destruct Hin as [Hin | [<- | []]].
      * eauto.
      * congruence.
Qed.

Lemma keys_wf_insert (i : N) (key : jsstring) (v : JsonValue) (o : JsonObject) :
  object_wf o -> ~ In key (map fst o) -> array_index key = Some i ->
  object_wf (insert_index i key v o).
Proof.
  unfold object_wf. intros Hwf Hnew Hi.
  induction o as [| [k w] o IH]; cbn [insert_index map fst] in *.
  - constructor; [constructor | tauto |]. intros k' i' [].
  - inversion Hwf as [| ? ? Hwf' Hk Hidx]; subst.
    assert (Hkey : k <> key /\ ~ In key (map fst o)) by (cbn [In] in Hnew; tauto).
    destruct Hkey as [Hkk Hnew'].
    assert (Hstop : keys_wf (key :: k :: map fst o) \/
                    exists j, array_index k = Some j /\ (j < i)%N).
    { destruct (array_index k) as [j |] eqn:Hj.
      - destruct (N.lt_ge_cases j i) as [Hlt | Hge]; [right; eauto |].
        left. constructor; [assumption | assumption |].
        assert (Hji : (i < j)%N).
        { destruct (N.eq_dec i j) as [<- | Hne]; [| lia].
          exfalso. apply Hkk. apply (array_index_inj k key i Hj Hi). }
        intros k' i' [<- | Hin] Hi'.
        + exists i. split; [assumption |]. congruence.
        + destruct (Hidx k' i' Hin Hi') as (j' & Hj' & Hlt).
          exists i. split; [assumption |]. injection Hj' as <-. lia.
      - left. constructor; [assumption | assumption |].
        intros k' i' [<- | Hin] Hi'; [congruence |].
        destruct (Hidx k' i' Hin Hi') as (j' & Hj' & _). discriminate. }
    destruct (array_index k) as [j |] eqn:Hj.
    + destruct (N.ltb_spec j i) as [Hlt | Hge].
      * cbn [map fst]. constructor.
        -- apply IH; assumption.
        -- rewrite insert_index_keys. intros [Heq | Hin]; [congruence | contradiction].
        -- intros k' i' Hin Hi'. apply insert_index_keys in Hin.
           destruct Hin as [-> | Hin].
           ++ exists j. split; [exact Hj | congruence].
           ++ destruct (Hidx k' i' Hin Hi') as (j' & Hj' & Hlt').
              injection Hj' as <-. exists j. split; [exact Hj | assumption].
      * destruct Hstop as [Hstop | (j' & Hj' & Hlt)]; [exact Hstop |].
        injection Hj' as <-. lia.
    + destruct Hstop as [Hstop | (j' & Hj' & _)]; [exact Hstop | discriminate].
Qed.

(** [CreateDataProperty] keeps the order well formed. *)
Lemma set_property_wf (o : JsonObject) (kv : jsstring * JsonValue) :
  object_wf o -> object_wf (set_property o kv).
Proof.
  intros Hwf. destruct kv as [key v]. unfold set_property.
  destruct (has_property key o) eqn:Hhas.
  - unfold object_wf. now rewrite replace_property_keys.
  - apply has_property_false in Hhas.
    destruct (array_index key) as [i |] eqn:Hi.
    + now apply keys_wf_insert.
    + unfold object_wf. rewrite map_app. now apply keys_wf_append.
Qed.

Lemma fold_set_property_wf (members : list (jsstring * JsonValue)) (o : JsonObject) :
  object_wf o -> object_wf (fold_left set_property members o).
Proof.
  revert o. induction members as [| kv members IH]; intros o Hwf; [assumption |].
  cbn [fold_left]. apply IH. now apply set_property_wf.
Qed.

Lemma keys_wf_snoc_inv (ks : list jsstring) (k : jsstring) :
  keys_wf (ks ++ [k]) ->
  keys_wf ks /\ ~ In k ks /\
  (forall i, array_index k = Some i ->
     forall k', In k' ks -> exists j, array_index k' = Some j /\ (j < i)%N).
Proof.
  induction ks as [| k0 ks IH]; cbn [app]; intros Hwf.
  - split; [constructor |]. split; [tauto |]. intros i _ k' [].
  - inversion Hwf as [| ? ? Hwf' Hk0 Hidx]; subst.
    destruct (IH Hwf') as (Hks & Hk & Hlater).
    split; [| split].
    + constructor; [assumption | |].
      * intros Hin. apply Hk0. apply in_app_iff. now left.
      * intros k' i' Hin Hi'. apply (Hidx k' i'); [| assumption].
        apply in_app_iff. now left.
    + cbn [In]. intros [-> | Hin]; [| contradiction].
      apply Hk0. apply in_app_iff. right. now left.
    + intros i Hi k' [<- | Hin]; [| eauto].
      apply (Hidx k i); [| assumption]. apply in_app_iff. right. now left.
Qed.

Lemma insert_index_append (i : N) (key : jsstring) (v : JsonValue) (o : JsonObject) :
  (forall k', In k' (map fst o) -> exists j, array_index k' = Some j /\ (j < i)%N) ->
  insert_index i key v o = o ++ [(key, v)].
Proof.
  induction o as [| [k w] o IH]; intros Hall; [reflexivity |].
  cbn [insert_index app].
  destruct (Hall k) as (j & Hj & Hlt); [now left |].
  rewrite Hj. replace (j <? i)%N with true by (symmetry; now apply N.ltb_lt).
  rewrite IH; [reflexivity |]. intros k' Hin. apply Hall. now right.
Qed.

(** Setting the properties of a well-ordered object one after the other
    builds that object. *)
Lemma fold_set_property_rebuild (o : JsonObject) :
  object_wf o -> fold_left set_property o [] = o.
Proof.
  unfold object_wf. induction o as [| [key v] o IH] using rev_ind; [reflexivity |].
  rewrite map_app. cbn [map fst]. intros Hwf.
  destruct (keys_wf_snoc_inv _ _ Hwf) as (Hks & Hnew & Hlater).
  rewrite fold_left_app. cbn [fold_left]. rewrite (IH Hks).
  unfold set_property. apply has_property_false in Hnew. rewrite Hnew.
  destruct (array_index key) as [i |] eqn:Hi; [| reflexivity].
  apply insert_index_append. intros k' Hin. now apply (Hlater i).
Qed.

End ObjectOrder.

(** ** What JSON.parse returns *)

Section ParsedValues.

(** Induction over JSON values, through arrays and objects. *)
Lemma JsonValue_ind' (P : JsonValue -> Prop) :
  P JNull ->
  (forall b, P (JBool b)) ->
  (forall x, P (JNum x)) ->
  (forall s, P (JStr s)) ->
  (forall items, Forall P items -> P (JArr items)) ->
  (forall entries, Forall (fun kv => P (snd kv)) entries -> P (JObj entries)) ->
  forall v, P v.
Proof.
  intros Hnull Hbool Hnum Hstr Harr Hobj.
  fix IH 1. intros [| b | x | s | items | entries].
  - exact Hnull.
  - apply Hbool.
  - apply Hnum.
  - apply Hstr.
  - apply Harr. induction items as [| item items IHitems]; constructor.
    + apply IH.
    + exact IHitems.
  - apply Hobj. induction entries as [| [k w] entries IHentries]; constructor.
    + apply IH.
    + exact IHentries.
Qed.

Lemma value_wf_array (items : list JsonValue) :
  value_wf (JArr items) <-> Forall value_wf items.
Proof.
  cbn [value_wf]. induction items as [| x items IH].
  - split; constructor.
  - rewrite IH. split.
    + intros [Hx Hall]. now constructor.
    + intros Hall. now inversion Hall.
Qed.

Lemma value_wf_object (entries : JsonObject) :
  value_wf (JObj entries) <->
  object_wf entries /\ Forall (fun kv => value_wf (snd kv)) entries.
Proof.
  cbn [value_wf]. apply and_iff_compat_l.
  induction entries as [| kv entries IH].
  - split; constructor.
  - rewrite IH. split.
    + intros [Hx Hall]. now constructor.
    + intros Hall. now inversion Hall.
Qed.

Lemma Forall_values_set_property (P : JsonValue -> Prop) (o : JsonObject)
    (kv : jsstring * JsonValue) :
  Forall (fun e => P (snd e)) o -> P (snd kv) ->
  Forall (fun e => P (snd e)) (set_property o kv).
Proof.
  intros Ho Hv. destruct kv as [key v]. cbn [snd] in Hv. unfold set_property.
  destruct (has_property key o).
  - induction Ho as [| [k w] o Hw Ho IH]; cbn [replace_property]; [constructor |].
    destruct (jsstring_eqb k key); constructor; assumption.
  - destruct (array_index key) as [i |].
    + induction Ho as [| [k w] o Hw Ho IH]; cbn [insert_index].
      * now constructor.
      * destruct (array_index k) as [j |]; [destruct (j <? i)%N |];
          repeat constructor; assumption.
    + apply Forall_app. split; [assumption | now constructor].
Qed.

Lemma Forall_values_fold_set_property (P : JsonValue -> Prop)
    (members : list (jsstring * JsonValue)) (o : JsonObject) :
  Forall (fun e => P (snd e)) o -> Forall (fun e => P (snd e)) members ->
  Forall (fun e => P (snd e)) (fold_left set_property members o).
Proof.
  revert o. induction members as [| kv members IH]; intros o Ho Hm; [assumption |].
  inversion Hm; subst. cbn [fold_left]. apply IH; [| assumption].
  now apply Forall_values_set_property.
Qed.

Lemma parse_unsigned_wf (neg : bool) (s : jsstring) (x : Number) (r : jsstring) :
  parse_unsigned neg s = Some (x, r) -> Number_wf x.
Proof.
  unfold parse_unsigned. destruct (span_digits s) as [int_ds s2].
  destruct int_ds as [| d0 tl]; [discriminate |].
  destruct ((d0 =? 0)%N && negb (length tl =? 0)); [discriminate |].
  destruct (parse_frac s2) as [[frac_ds s3] |]; [| discriminate].
  destruct (parse_exp s3) as [[e s5] |]; [| discriminate].
  intros [= <- _]. apply Number_of_decimal_wf.
Qed.

Lemma parse_number_wf (s : jsstring) (x : Number) (r : jsstring) :
  parse_number s = Some (x, r) -> Number_wf x.
Proof.
  unfold parse_number. destruct s as [| c s]; [discriminate |].
  destruct (c =? Ch.minus)%N; apply parse_unsigned_wf.
Qed.

Lemma parse_literal_value (word : jsstring) (v v' : JsonValue) (s r : jsstring) :
  parse_literal word v s = Some (v', r) -> v' = v.
Proof.
  unfold parse_literal. destruct (starts_with word s); [| discriminate]. congruence.
Qed.

Lemma cons_fst_Some {A B : Type} (a : A) (r : option (list A * B)) (l : list A) (b : B) :
  cons_fst a r = Some (l, b) -> exists l', r = Some (l', b) /\ l = a :: l'.
Proof.
  destruct r as [[l' b'] |]; cbn [cons_fst]; [| discriminate].
  intros [= <- <-]. eauto.
Qed.

(** Every value the parser returns is well formed. *)
Lemma parse_wf (fuel : nat) :
  (forall s v r, parse_value fuel s = Some (v, r) -> value_wf v) /\
  (forall s vs r, parse_elements fuel s = Some (vs, r) -> Forall value_wf vs) /\
  (forall s ms r, parse_members fuel s = Some (ms, r) ->
     Forall (fun kv => value_wf (snd kv)) ms).
Proof.
  induction fuel as [| fuel (IHv & IHe & IHm)].
  - repeat split; intros; discriminate.
  - split; [| split].
    + intros s v r. cbn [parse_value].
      destruct (skip_ws s) as [| c rest]; [discriminate |].
      destruct (c =? Ch.lbrace)%N.
      { destruct (skip_ws rest) as [| c2 rest2]; [discriminate |].
        destruct (c2 =? Ch.rbrace)%N.
        - intros [= <- _]. apply value_wf_object. split; constructor.
        - destruct (parse_members fuel rest) as [[ms r'] |] eqn:Hm; [| discriminate].
          intros [= <- _]. apply value_wf_object. split.
          + apply fold_set_property_wf. constructor.
          + apply Forall_values_fold_set_property; [constructor | eauto]. }
      destruct (c =? Ch.lbracket)%N.
      { destruct (skip_ws rest) as [| c2 rest2]; [discriminate |].
        destruct (c2 =? Ch.rbracket)%N.
        - intros [= <- _]. apply value_wf_array. constructor.
        - destruct (parse_elements fuel rest) as [[vs r'] |] eqn:He; [| discriminate].
          intros [= <- _]. apply value_wf_array. eauto. }
      destruct (c =? Ch.quote)%N.
      { destruct (parse_string_body rest) as [[str r'] |]; [| discriminate].
        intros [= <- _]. exact I. }
      destruct (c =? 116)%N.
      { intros H. apply parse_literal_value in H. subst. exact I. }
      destruct (c =? 102)%N.
      { intros H. apply parse_literal_value in H. subst. exact I. }
      destruct (c =? 110)%N.
      { intros H. apply parse_literal_value in H. subst. exact I. }
      destruct (parse_number (c :: rest)) as [[x r'] |] eqn:Hn; [| discriminate].
      intros [= <- _]. cbn [value_wf]. eapply parse_number_wf, Hn.
    + intros s vs r. cbn [parse_elements].
      destruct (parse_value fuel s) as [[v r1] |] eqn:Hv; [| discriminate].
      destruct (skip_ws r1) as [| c r']; [discriminate |].
      destruct (c =? Ch.comma)%N.
      { intros H. apply cons_fst_Some in H. destruct H as (vs' & He & ->).
        constructor; eauto. }
      destruct (c =? Ch.rbracket)%N; [| discriminate].
      intros [= <- _]. constructor; eauto.
    + intros s ms r. cbn [parse_members].
      destruct (skip_ws s) as [| q r0]; [discriminate |].
      destruct (q =? Ch.quote)%N; [| discriminate].
      destruct (parse_string_body r0) as [[key r1] |]; [| discriminate].
      destruct (skip_ws r1) as [| c1 r2]; [discriminate |].
      destruct (c1 =? Ch.colon)%N; [| discriminate].
      destruct (parse_value fuel r2) as [[v r3] |] eqn:Hv; [| discriminate].
      destruct (skip_ws r3) as [| c r']; [discriminate |].
      destruct (c =? Ch.comma)%N.
      { intros H. apply cons_fst_Some in H. destruct H as (ms' & Hm & ->).
        constructor; [cbn [snd] |]; eauto. }
      destruct (c =? Ch.rbrace)%N; [| discriminate].
      intros [= <- _]. constructor; [cbn [snd] |]; eauto.
Qed.

Lemma JSON_parse_wf (text : jsstring) (v : JsonValue) :
  JSON_parse text = Some v -> value_wf v.
Proof.
  unfold JSON_parse.
  destruct (parse_value (2 * length text + 2) text) as [[v' rest] |] eqn:Hp; [| discriminate].
  destruct (is_empty (skip_ws rest)); [| discriminate].
  intros [= <-]. eapply (proj1 (parse_wf _)), Hp.
Qed.

End ParsedValues.

(** ** JSON.parse after JSON.stringify *)

Section RoundTrip.

Lemma size_array (items : list JsonValue) : size (JArr items) = S (sum_sizes items).
Proof. reflexivity. Qed.

Lemma size_object (entries : JsonObject) :
  size (JObj entries) = S (sum_member_sizes entries).
Proof. reflexivity. Qed.

Lemma all_finite_array (items : list JsonValue) :
  all_finite (JArr items) = true <-> Forall (fun v => all_finite v = true) items.
Proof.
  cbn [all_finite]. induction items as [| x items IH].
  - split; [constructor | reflexivity].
  - rewrite andb_true_iff, IH. split.
    + intros [Hx Hall]. now constructor.
    + intros Hall. now inversion Hall.
Qed.

Lemma all_finite_object (entries : JsonObject) :
  all_finite (JObj entries) = true <->
  Forall (fun kv => all_finite (snd kv) = true) entries.
Proof.
  cbn [all_finite]. induction entries as [| kv entries IH].
  - split; [constructor | reflexivity].
  - rewrite andb_true_iff, IH. split.
    + intros [Hx Hall]. now constructor.
    + intros Hall. now inversion Hall.
Qed.

Lemma ws_app (a b : jsstring) : ws a -> ws b -> ws (a ++ b).
Proof. unfold ws. intros Ha Hb. rewrite forallb_app, Ha, Hb. reflexivity. Qed.

Lemma ws_repeat_space (n : nat) : ws (repeat_str [Ch.space] n).
Proof. induction n as [| n IH]; [reflexivity | exact IH]. Qed.

Lemma ws_line_break (gap indent : jsstring) : ws indent -> ws (line_break gap indent).
Proof.
  intros Hi. unfold line_break. destruct (is_empty gap); [reflexivity | exact Hi].
Qed.

Lemma skip_ws_app (w s : jsstring) : ws w -> skip_ws (w ++ s) = skip_ws s.
Proof.
  unfold ws, skip_ws. induction w as [| c w IH]; [reflexivity |].
  cbn [forallb app drop_while]. intros H. apply andb_true_iff in H.
  destruct H as [Hc Hw]. rewrite Hc. now apply IH.
Qed.

Lemma skip_ws_stop (c : char16) (s : jsstring) :
  is_json_ws c = false -> skip_ws (c :: s) = c :: s.
Proof. intros Hc. unfold skip_ws. cbn [drop_while]. now rewrite Hc. Qed.

Lemma number_end_ws (w : jsstring) (c : char16) (rest : jsstring) :
  ws w -> delimiter c -> number_end (w ++ c :: rest).
Proof.
  intros Hw Hc. destruct w as [| x w].
  - cbn [app number_end]. unfold delimiter, Ch.comma, Ch.rbracket, Ch.rbrace in Hc.
    unfold Ch.dot, Ch.lower_e, Ch.upper_e.
    destruct Hc as [-> | [-> | ->]]; repeat split; discriminate.
  - cbn [app number_end]. unfold ws in Hw. cbn [forallb] in Hw.
    apply andb_true_iff in Hw. destruct Hw as [Hx _].
    unfold is_json_ws in Hx. rewrite !orb_true_iff, !N.eqb_eq in Hx.
    unfold Ch.dot, Ch.lower_e, Ch.upper_e.
    destruct Hx as [[[-> | ->] | ->] | ->]; repeat split; discriminate.
Qed.

Lemma join_concat (sep p : jsstring) (ps : list jsstring) :
  join sep (p :: ps) = p ++ concat (map (fun q => sep ++ q) ps).
Proof.
  revert p. induction ps as [| q ps IH]; intros p.
  - cbn. now rewrite app_nil_r.
  - change (join sep (p :: q :: ps)) with (p ++ sep ++ join sep (q :: ps)).
    rewrite IH. cbn [map concat]. now rewrite <- app_assoc.
Qed.

Lemma wrap_partial_cons (opening closing : char16) (gap stepback p : jsstring)
    (ps : list jsstring) :
  wrap_partial opening closing gap stepback (p :: ps)
  = opening :: line_break gap (stepback ++ gap) ++ p
    ++ concat (map (fun q => Ch.comma :: line_break gap (stepback ++ gap) ++ q) ps)
    ++ line_break gap stepback ++ [closing].
Proof.
  unfold wrap_partial, line_break.
  destruct (is_empty gap); rewrite join_concat; cbn [app];
    rewrite <- ?app_assoc; reflexivity.
Qed.

Lemma NumberToString_first (x : Number) :
  Number_wf x -> Number_finite x = true ->
  exists c tail, NumberToString x = c :: tail /\ (c = Ch.minus \/ is_digit c = true).
Proof.
  intros Hwf Hfin. destruct x as [| neg m e | neg]; [| | discriminate].
  - exists Ch.zero, []. split; [reflexivity | now right].
  - cbn [Number_wf] in Hwf. cbn [NumberToString].
    destruct (shortest_decimal_denotes neg m e Hwf) as [_ Hpos].
    destruct (shortest_decimal neg m e) as [ds n]. cbn [fst] in Hpos.
    destruct neg.
    + eexists _, _. split; [reflexivity | now left].
    + destruct (format_decimal_first ds n Hpos) as (d & rest' & -> & Hd).
      eexists _, _. split; [reflexivity |]. right. now apply is_digit_char.
Qed.

Lemma number_first_not_structural (c : char16) :
  c = Ch.minus \/ is_digit c = true ->
  is_json_ws c = false /\ (c =? Ch.lbrace)%N = false /\ (c =? Ch.lbracket)%N = false /\
  (c =? Ch.quote)%N = false /\ (c =? 116)%N = false /\ (c =? 102)%N = false /\
  (c =? 110)%N = false /\ c <> Ch.rbracket /\ c <> Ch.rbrace.
Proof.
  unfold is_digit, is_json_ws, Ch.minus, Ch.lbrace, Ch.lbracket, Ch.quote,
    Ch.rbracket, Ch.rbrace.
  rewrite andb_true_iff, !N.leb_le, !orb_false_iff, !N.eqb_neq. lia.
Qed.

(** The text of a value starts with a character that is neither white
    space nor a closing bracket. *)
Lemma Serialize_first (gap indent : jsstring) (v : JsonValue) :
  value_wf v ->
  exists c tail,
    SerializeJSONProperty gap indent v = c :: tail /\
    is_json_ws c = false /\ c <> Ch.rbracket /\ c <> Ch.rbrace.
Proof.
  intros Hwf. destruct v as [| [|] | x | s | items | entries].
  - eexists _, _. split; [reflexivity |]. repeat split; discriminate.
  - eexists _, _. split; [reflexivity |]. repeat split; discriminate.
  - eexists _, _. split; [reflexivity |]. repeat split; discriminate.
  - cbn [SerializeJSONProperty]. destruct (Number_finite x) eqn:Hfin.
    + destruct (NumberToString_first x Hwf Hfin) as (c & tail & -> & Hc).
      exists c, tail. split; [reflexivity |].
      pose proof (number_first_not_structural c Hc). tauto.
    + eexists _, _. split; [reflexivity |]. repeat split; discriminate.
  - eexists _, _. split; [reflexivity |]. repeat split; discriminate.
  - cbn [SerializeJSONProperty]. destruct items as [| item items].
    + eexists _, _. split; [reflexivity |]. repeat split; discriminate.
    + cbn [map]. rewrite wrap_partial_cons.
      eexists _, _. split; [reflexivity |]. repeat split; discriminate.
  - cbn [SerializeJSONProperty]. destruct entries as [| kv entries].
    + eexists _, _. split; [reflexivity |]. repeat split; discriminate.
    + cbn [map]. rewrite wrap_partial_cons.
      eexists _, _. split; [reflexivity |]. repeat split; discriminate.
Qed.

Lemma skip_ws_value (gap indent w : jsstring) (v : JsonValue) (rest : jsstring) :
  value_wf v -> ws w ->
  exists c tail,
    SerializeJSONProperty gap indent v = c :: tail /\
    skip_ws (w ++ SerializeJSONProperty gap indent v ++ rest) = c :: tail ++ rest /\
    c <> Ch.rbracket /\ c <> Ch.rbrace.
Proof.
  intros Hwf Hw.
  destruct (Serialize_first gap indent v Hwf) as (c & tail & Heq & Hc & Hb & Hbr).
  exists c, tail. rewrite Heq. repeat split; try assumption.
  rewrite skip_ws_app by assumption. cbn [app]. now apply skip_ws_stop.
Qed.

Lemma parse_elements_Serialize (gap indent w1 w3 rest : jsstring) :
  ws gap -> ws indent -> ws w1 -> ws w3 ->
  forall (vs : list JsonValue) (v1 : JsonValue) (fuel : nat),
    Forall reads_back (v1 :: vs) ->
    sum_sizes (v1 :: vs) <= fuel ->
    parse_elements fuel
      (w1 ++ SerializeJSONProperty gap indent v1
       ++ concat (map (fun q => Ch.comma :: w1 ++ q)
                      (map (SerializeJSONProperty gap indent) vs))
       ++ w3 ++ Ch.rbracket :: rest)
    = Some (v1 :: vs, rest).
Proof.
  intros Hgap Hindent Hw1 Hw3.
  induction vs as [| v2 vs IH]; intros v1 fuel Hall Hfuel.
  - inversion Hall as [| ? ? Hv1 _]; subst.
    cbn [sum_sizes] in Hfuel. destruct fuel as [| fuel]; [lia |].
    cbn [parse_elements map concat app].
    rewrite (Hv1 gap indent w1 (w3 ++ Ch.rbracket :: rest) fuel); try assumption.
    + rewrite skip_ws_app by assumption. reflexivity.
    + apply number_end_ws; [assumption |]. right. now left.
    + lia.
  - inversion Hall as [| ? ? Hv1 Hrest]; subst.
    cbn [sum_sizes] in Hfuel. destruct fuel as [| fuel]; [lia |].
    cbn [parse_elements map concat app].
    rewrite <- !app_assoc.
    rewrite (Hv1 gap indent w1 _ fuel); try assumption.
    + change (skip_ws (Ch.comma :: ?x)) with (Ch.comma :: x).
      cbv beta iota. rewrite N.eqb_refl.
      rewrite (IH v2 fuel Hrest); [reflexivity |]. cbn [sum_sizes]. lia.
    + apply (number_end_ws [] Ch.comma); [reflexivity | now left].
    + lia.
Qed.

Lemma parse_members_Serialize (gap indent w1 w3 rest : jsstring) :
  ws gap -> ws indent -> ws w1 -> ws w3 ->
  forall (ms : JsonObject) (m1 : jsstring * JsonValue) (fuel : nat),
    Forall (fun kv => reads_back (snd kv)) (m1 :: ms) ->
    sum_member_sizes (m1 :: ms) <= fuel ->
    parse_members fuel
      (w1 ++ member_text gap indent m1
       ++ concat (map (fun q => Ch.comma :: w1 ++ q) (map (member_text gap indent) ms))
       ++ w3 ++ Ch.rbrace :: rest)
    = Some (m1 :: ms, rest).
Proof.
  intros Hgap Hindent Hw1 Hw3.
  assert (Hsp : ws (if is_empty gap then [] else [Ch.space]))
    by (destruct (is_empty gap); reflexivity).
  induction ms as [| m2 ms IH]; intros [k1 v1] fuel Hall Hfuel.
  - inversion Hall as [| ? ? Hv1 _]; subst. cbn [snd] in Hv1.
    cbn [sum_member_sizes snd] in Hfuel. destruct fuel as [| fuel]; [lia |].
    cbn [parse_members map concat]. unfold member_text, QuoteJSONString. cbn [fst snd].
    rewrite skip_ws_app by assumption.
    rewrite <- !app_assoc. cbn [app]. rewrite <- ?app_assoc.
    change (skip_ws (Ch.quote :: ?x)) with (Ch.quote :: x).
    cbv beta iota. rewrite N.eqb_refl.
    rewrite parse_QuoteJSONString.
    change (skip_ws (Ch.colon :: ?x)) with (Ch.colon :: x).
    cbv beta iota. rewrite N.eqb_refl.
    rewrite (Hv1 gap indent _ (w3 ++ Ch.rbrace :: rest) fuel); try assumption.
    + rewrite skip_ws_app by assumption. reflexivity.
    + apply number_end_ws; [assumption |]. right. now right.
    + lia.
  - inversion Hall as [| ? ? Hv1 Hrest]; subst. cbn [snd] in Hv1.
    cbn [sum_member_sizes snd] in Hfuel. destruct fuel as [| fuel]; [lia |].
    cbn [parse_members map concat].
    unfold member_text at 1, QuoteJSONString. cbn [fst snd].
    rewrite skip_ws_app by assumption.
    rewrite <- !app_assoc. cbn [app]. rewrite <- ?app_assoc.
    change (skip_ws (Ch.quote :: ?x)) with (Ch.quote :: x).
    cbv beta iota. rewrite N.eqb_refl.
    rewrite parse_QuoteJSONString.
    change (skip_ws (Ch.colon :: ?x)) with (Ch.colon :: x).
    cbv beta iota. rewrite N.eqb_refl.
    rewrite (Hv1 gap indent _ _ fuel); try assumption.
    + change (skip_ws (Ch.comma :: ?x)) with (Ch.comma :: x).
      cbv beta iota. rewrite N.eqb_refl.
      rewrite (IH m2 fuel Hrest); [reflexivity |]. cbn [sum_member_sizes]. lia.
    + apply (number_end_ws [] Ch.comma); [reflexivity | now left].
    + lia.
Qed.

Lemma parse_value_bracket (fuel : nat) (w tail : jsstring) :
  ws w ->
  parse_value (S fuel) (w ++ Ch.lbracket :: tail)
  = match skip_ws tail with
    | [] => None
    | c2 :: rest2 =>
        if (c2 =? Ch.rbracket)%N then Some (JArr [], rest2)
        else match parse_elements fuel tail with
             | Some (items, r) => Some (JArr items, r)
             | None => None
             end
    end.
Proof.
  intros Hw. cbn [parse_value]. rewrite skip_ws_app by assumption. reflexivity.
Qed.

Lemma parse_value_brace (fuel : nat) (w tail : jsstring) :
  ws w ->
  parse_value (S fuel) (w ++ Ch.lbrace :: tail)
  = match skip_ws tail with
    | [] => None
    | c2 :: rest2 =>
        if (c2 =? Ch.rbrace)%N then Some (JObj [], rest2)
        else match parse_members fuel tail with
             | Some (members, r) => Some (JObj (fold_left set_property members []), r)
             | None => None
             end
    end.
Proof.
  intros Hw. cbn [parse_value]. rewrite skip_ws_app by assumption. reflexivity.
Qed.

Lemma parse_value_quote (fuel : nat) (w tail : jsstring) :
  ws w ->
  parse_value (S fuel) (w ++ Ch.quote :: tail)
  = match parse_string_body tail with
    | Some (str, r) => Some (JStr str, r)
    | None => None
    end.
Proof.
  intros Hw. cbn [parse_value]. rewrite skip_ws_app by assumption. reflexivity.
Qed.

Lemma parse_value_number (fuel : nat) (w : jsstring) (c : char16) (tail : jsstring) :
  ws w -> c = Ch.minus \/ is_digit c = true ->
  parse_value (S fuel) (w ++ c :: tail)
  = match parse_number (c :: tail) with
    | Some (x, r) => Some (JNum x, r)
    | None => None
    end.
Proof.
  intros Hw Hc.
  destruct (number_first_not_structural c Hc) as (Hws & H1 & H2 & H3 & H4 & H5 & H6 & _).
  cbn [parse_value]. rewrite skip_ws_app, skip_ws_stop by assumption.
  now rewrite H1, H2, H3, H4, H5, H6.
Qed.

Lemma fuel_succ (n fuel : nat) : S n <= fuel -> exists f, fuel = S f /\ n <= f.
Proof. destruct fuel as [| f]; [lia |]. exists f. split; [reflexivity | lia]. Qed.

Lemma Forall_modus_ponens2 {A : Type} (P Q R : A -> Prop) (l : list A) :
  Forall (fun a => P a -> Q a -> R a) l -> Forall P l -> Forall Q l -> Forall R l.
Proof.
  induction 1 as [| a l Ha _ IH]; intros HP HQ; constructor;
    inversion HP; inversion HQ; subst; auto.
Qed.

(** A well-formed value without infinities, printed with any
    indentation, reads back as itself. *)
Lemma Serialize_reads_back (v : JsonValue) :
  value_wf v -> all_finite v = true -> reads_back v.
Proof.
  induction v as [| b | x | s | items IH | entries IH] using JsonValue_ind';
    intros Hwf Hfin gap indent w rest fuel Hgap Hindent Hw Hend Hfuel.
  - destruct (fuel_succ 0 fuel Hfuel) as (f & -> & _).
    cbn [parse_value]. rewrite skip_ws_app by assumption. reflexivity.
  - destruct (fuel_succ 0 fuel Hfuel) as (f & -> & _).
    cbn [parse_value]. rewrite skip_ws_app by assumption. destruct b; reflexivity.
  - destruct (fuel_succ 0 fuel Hfuel) as (f & -> & _).
    cbn [value_wf all_finite] in Hwf, Hfin.
    cbn [SerializeJSONProperty]. rewrite Hfin.
    destruct (NumberToString_first x Hwf Hfin) as (c & tail & Heq & Hc).
    rewrite Heq. cbn [app]. rewrite (parse_value_number f w c _ Hw Hc).
    change (c :: tail ++ rest) with ((c :: tail) ++ rest). rewrite <- Heq.
    now rewrite (parse_number_NumberToString x rest Hwf Hfin Hend).
  - destruct (fuel_succ 0 fuel Hfuel) as (f & -> & _).
    cbn [SerializeJSONProperty]. unfold QuoteJSONString.
    rewrite <- !app_assoc. cbn [app].
    rewrite (parse_value_quote f w _ Hw), parse_QuoteJSONString. reflexivity.
  - rewrite size_array in Hfuel.
    destruct (fuel_succ _ fuel Hfuel) as (f & -> & Hf).
    apply value_wf_array in Hwf. apply all_finite_array in Hfin.
    cbn [SerializeJSONProperty].
    destruct items as [| v1 vs].
    { cbn [map wrap_partial app]. rewrite (parse_value_bracket f w _ Hw). reflexivity. }
    cbn [map]. rewrite wrap_partial_cons. cbn [app].
    rewrite <- !app_assoc. cbn [app].
    rewrite (parse_value_bracket f w _ Hw).
    assert (Hv1 : value_wf v1) by now inversion Hwf.
    destruct (skip_ws_value gap (indent ++ gap) (line_break gap (indent ++ gap)) v1
                (concat (map (fun q => Ch.comma :: line_break gap (indent ++ gap) ++ q)
                             (map (SerializeJSONProperty gap (indent ++ gap)) vs))
                 ++ line_break gap indent ++ Ch.rbracket :: rest) Hv1)
      as (c & tail & _ & Hskip & Hc & _).
    { apply ws_line_break, ws_app; assumption. }
    rewrite Hskip. apply N.eqb_neq in Hc. rewrite Hc.
    rewrite (parse_elements_Serialize gap (indent ++ gap)
               (line_break gap (indent ++ gap)) (line_break gap indent) rest);
      try assumption; try reflexivity.
    + now apply ws_app.
    + apply ws_line_break. now apply ws_app.
    + now apply ws_line_break.
    + exact (Forall_modus_ponens2 _ _ _ _ IH Hwf Hfin).
  - rewrite size_object in Hfuel.
    destruct (fuel_succ _ fuel Hfuel) as (f & -> & Hf).
    apply value_wf_object in Hwf. destruct Hwf as [Hord Hwf].
    apply all_finite_object in Hfin.
    cbn [SerializeJSONProperty].
    change (map (fun kv : jsstring * JsonValue =>
                   QuoteJSONString (fst kv) ++ [Ch.colon]
                   ++ (if is_empty gap then [] else [Ch.space])
                   ++ SerializeJSONProperty gap (indent ++ gap) (snd kv)) entries)
      with (map (member_text gap (indent ++ gap)) entries).
    destruct entries as [| m1 ms].
    { cbn [map wrap_partial app]. rewrite (parse_value_brace f w _ Hw). reflexivity. }
    cbn [map]. rewrite wrap_partial_cons. cbn [app].
    rewrite <- !app_assoc. cbn [app].
    rewrite (parse_value_brace f w _ Hw).
    rewrite (parse_members_Serialize gap (indent ++ gap)
               (line_break gap (indent ++ gap)) (line_break gap indent) rest);
      try assumption.
    + rewrite (skip_ws_app (line_break gap (indent ++ gap)))
        by (apply ws_line_break, ws_app; assumption).
      unfold member_text at 1, QuoteJSONString. rewrite <- !app_assoc. cbn [app].
      change (skip_ws (Ch.quote :: ?x)) with (Ch.quote :: x). cbv beta iota.
      change (Ch.quote =? Ch.rbrace)%N with false. cbv beta iota.
      now rewrite (fold_set_property_rebuild (m1 :: ms) Hord).
    + now apply ws_app.
    + apply ws_line_break. now apply ws_app.
    + now apply ws_line_break.
    + exact (Forall_modus_ponens2 _ _ _ _ IH Hwf Hfin).
Qed.

End RoundTrip.

Section FuelAndTrim.

Lemma sum_sizes_le_concat (f : JsonValue -> jsstring) (w : jsstring) (vs : list JsonValue) :
  Forall (fun v => size v <= length (f v)) vs ->
  sum_sizes vs <= length (concat (map (fun q => Ch.comma :: w ++ q) (map f vs))).
Proof.
  induction 1 as [| v vs Hv _ IH]; [apply le_n |].
  cbn [sum_sizes map concat]. rewrite length_app. cbn [length]. rewrite length_app. lia.
Qed.

Lemma sum_member_sizes_le_concat (f : jsstring * JsonValue -> jsstring) (w : jsstring)
    (ms : JsonObject) :
  Forall (fun kv => size (snd kv) <= length (f kv)) ms ->
  sum_member_sizes ms <= length (concat (map (fun q => Ch.comma :: w ++ q) (map f ms))).
Proof.
  induction 1 as [| kv ms Hv _ IH]; [apply le_n |].
  cbn [sum_member_sizes map concat]. rewrite length_app. cbn [length].
  rewrite length_app. lia.
Qed.

Lemma Forall_modus_ponens {A : Type} (P Q : A -> Prop) (l : list A) :
  Forall (fun a => P a -> Q a) l -> Forall P l -> Forall Q l.
Proof.
  induction 1 as [| a l Ha _ IH]; intros HP; constructor; inversion HP; subst; auto.
Qed.

(** The fuel a value takes is at most the length of its text. *)
Lemma size_le_length (v : JsonValue) :
  value_wf v ->
  forall gap indent, size v <= length (SerializeJSONProperty gap indent v).
Proof.
  induction v as [| b | x | s | items IH | entries IH] using JsonValue_ind';
    intros Hwf gap indent.
  1-4: destruct (Serialize_first gap indent _ Hwf) as (c & tail & -> & _);
       cbn [size length]; lia.
  - apply value_wf_array in Hwf. rewrite size_array.
    cbn [SerializeJSONProperty]. destruct items as [| v1 vs]; [cbn; lia |].
    cbn [map]. rewrite wrap_partial_cons. cbn [sum_sizes length].
    rewrite !length_app.
    pose proof (Forall_modus_ponens _ _ _ IH Hwf) as Hall.
    inversion Hall as [| ? ? Hv1 Hvs]; subst.
    specialize (Hv1 gap (indent ++ gap)).
    pose proof (sum_sizes_le_concat (SerializeJSONProperty gap (indent ++ gap))
                  (line_break gap (indent ++ gap)) vs) as Hsum.
    cbn [length]. lapply Hsum; [lia |].
    revert Hvs. apply Forall_impl. intros v Hv. apply Hv.
  - apply value_wf_object in Hwf. destruct Hwf as [_ Hwf]. rewrite size_object.
    cbn [SerializeJSONProperty].
    change (map (fun kv : jsstring * JsonValue =>
                   QuoteJSONString (fst kv) ++ [Ch.colon]
                   ++ (if is_empty gap then [] else [Ch.space])
                   ++ SerializeJSONProperty gap (indent ++ gap) (snd kv)) entries)
      with (map (member_text gap (indent ++ gap)) entries).
    destruct entries as [| m1 ms]; [cbn; lia |].
    cbn [map]. rewrite wrap_partial_cons. cbn [sum_member_sizes length].
    rewrite !length_app.
    pose proof (Forall_modus_ponens _ _ _ IH Hwf) as Hall.
    assert (Hmember : forall kv : jsstring * JsonValue,
               (forall gap indent, size (snd kv) <= length (SerializeJSONProperty gap indent (snd kv))) ->
               size (snd kv) <= length (member_text gap (indent ++ gap) kv)).
    { intros kv Hkv. unfold member_text. rewrite !length_app.
      specialize (Hkv gap (indent ++ gap)). lia. }
    inversion Hall as [| ? ? Hv1 Hvs]; subst.
    apply Hmember in Hv1.
    pose proof (sum_member_sizes_le_concat (member_text gap (indent ++ gap))
                  (line_break gap (indent ++ gap)) ms) as Hsum.
    cbn [length]. lapply Hsum; [lia |].
    revert Hvs. apply Forall_impl. exact Hmember.
Qed.

(** [JSON.parse(JSON.stringify(v, null, gap))] is [v]. *)
Theorem JSON_parse_Serialize (v : JsonValue) (gap : jsstring) :
  value_wf v -> all_finite v = true -> ws gap ->
  JSON_parse (SerializeJSONProperty gap [] v) = Some v.
Proof.
  intros Hwf Hfin Hgap. unfold JSON_parse.
  pose proof (Serialize_reads_back v Hwf Hfin gap [] [] []
                (2 * length (SerializeJSONProperty gap [] v) + 2)) as Hread.
  cbn [app] in Hread. rewrite app_nil_r in Hread.
  rewrite Hread; try assumption; try reflexivity; try exact I.
  pose proof (size_le_length v Hwf gap []). lia.
Qed.

Lemma drop_while_keeps (f : char16 -> bool) (c : char16) (s : jsstring) :
  In c s -> f c = false -> In c (drop_while f s).
Proof.
  intros Hin Hf. induction s as [| x s IH]; [contradiction |].
  cbn [drop_while]. destruct (f x) eqn:Hx; [| assumption].
  destruct Hin as [-> | Hin]; [congruence | auto].
Qed.

Lemma drop_while_head (f : char16 -> bool) (s : jsstring) (c : char16) (r : jsstring) :
  drop_while f s = c :: r -> In c s.
Proof.
  induction s as [| x s IH]; [discriminate |].
  cbn [drop_while]. destruct (f x).
  - intros H. right. auto.
  - intros [= -> _]. now left.
Qed.

Lemma trim_keeps (c : char16) (s : jsstring) :
  In c s -> is_js_space c = false -> In c (trim s).
Proof.
  intros Hin Hc. unfold trim. apply -> in_rev.
  apply drop_while_keeps; [| assumption]. apply -> in_rev.
  now apply drop_while_keeps.
Qed.

Lemma parse_number_first (c : char16) (rest : jsstring) (x : Number) (r : jsstring) :
  parse_number (c :: rest) = Some (x, r) -> c = Ch.minus \/ is_digit c = true.
Proof.
  cbn [parse_number]. destruct (N.eqb_spec c Ch.minus) as [-> | _]; [now left |].
  unfold parse_unsigned. cbn [span_digits].
  destruct (is_digit c); [now right | discriminate].
Qed.

(** A text that parses starts, after JSON white space, with a character
    that [trim] keeps. *)
Lemma parse_value_first (fuel : nat) (s : jsstring) (v : JsonValue) (r : jsstring) :
  parse_value fuel s = Some (v, r) ->
  exists c, In c s /\ is_js_space c = false.
Proof.
  destruct fuel as [| f]; [discriminate |]. cbn [parse_value].
  destruct (skip_ws s) as [| c rest] eqn:Hskip; [discriminate |].
  intros Hparse. exists c. split; [eapply drop_while_head, Hskip |].
  destruct (N.eqb_spec c Ch.lbrace) as [-> | _]; [reflexivity |].
  destruct (N.eqb_spec c Ch.lbracket) as [-> | _]; [reflexivity |].
  destruct (N.eqb_spec c Ch.quote) as [-> | _]; [reflexivity |].
  destruct (N.eqb_spec c 116) as [-> | _]; [reflexivity |].
  destruct (N.eqb_spec c 102) as [-> | _]; [reflexivity |].
  destruct (N.eqb_spec c 110) as [-> | _]; [reflexivity |].
  destruct (parse_number (c :: rest)) as [[x r'] |] eqn:Hn; [| discriminate].
  apply parse_number_first in Hn.
  unfold is_digit, Ch.minus in Hn. unfold is_js_space.
  rewrite andb_true_iff, !N.leb_le in Hn.
  rewrite !orb_false_iff, !andb_false_iff, !N.leb_gt, !N.eqb_neq. lia.
Qed.

Lemma JSON_parse_not_blank (text : jsstring) (v : JsonValue) :
  JSON_parse text = Some v -> is_empty (trim text) = false.
Proof.
  unfold JSON_parse.
  destruct (parse_value (2 * length text + 2) text) as [[v' rest] |] eqn:Hp; [| discriminate].
  intros _. destruct (parse_value_first _ _ _ _ Hp) as (c & Hin & Hc).
  pose proof (trim_keeps c text Hin Hc) as Hkept.
  destruct (trim text); [contradiction | reflexivity].
Qed.

End FuelAndTrim.

(** ** The fuel of JSON.parse is enough *)

Section Fuel.

Lemma drop_while_length (f : char16 -> bool) (s : jsstring) :
  length (drop_while f s) <= length s.
Proof.
  induction s as [| c s IH]; [apply le_n |].
  cbn [drop_while]. destruct (f c); cbn [length]; lia.
Qed.

Lemma skip_ws_cons_length (s : jsstring) (c : char16) (r : jsstring) :
  skip_ws s = c :: r -> length r < length s.
Proof.
  intros Hskip. pose proof (drop_while_length is_json_ws s) as Hlen.
  unfold skip_ws in Hskip. rewrite Hskip in Hlen. cbn [length] in Hlen. lia.
Qed.

Lemma span_digits_length (s : jsstring) :
  length (fst (span_digits s)) + length (snd (span_digits s)) = length s.
Proof.
  induction s as [| c s IH]; [reflexivity |].
  cbn [span_digits]. destruct (is_digit c); [| reflexivity].
  destruct (span_digits s) as [ds rest]. cbn [fst snd length] in *. lia.
Qed.

Lemma parse_string_body_length (n : nat) (s str r : jsstring) :
  length s <= n -> parse_string_body s = Some (str, r) -> length r < length s.
Proof.
  revert s str r. induction n as [| n IH]; intros s str r Hn.
  - destruct s; [discriminate | cbn [length] in Hn; lia].
  - destruct s as [| c s]; [discriminate |]. cbn [length] in Hn.
    cbn [parse_string_body].
    destruct (c =? Ch.quote)%N.
    { intros [= _ <-]. cbn [length]. lia. }
    destruct (c =? Ch.backslash)%N.
    { destruct s as [| e s]; [discriminate |].
      destruct (e =? 117)%N.
      - destruct s as [| h1 [| h2 [| h3 [| h4 s]]]]; try discriminate.
        destruct (hex4 h1 h2 h3 h4); [| discriminate].
        intros H. apply cons_fst_Some in H. destruct H as (l' & H & _).
        apply IH in H; cbn [length] in *; lia.
      - destruct (short_unescape e); [| discriminate].
        intros H. apply cons_fst_Some in H. destruct H as (l' & H & _).
        apply IH in H; cbn [length] in *; lia. }
    destruct (c <? 32)%N; [discriminate |].
    intros H. apply cons_fst_Some in H. destruct H as (l' & H & _).
    apply IH in H; cbn [length] in *; lia.
Qed.

Lemma parse_frac_length (s : jsstring) (fs : list N) (r : jsstring) :
  parse_frac s = Some (fs, r) -> length r <= length s.
Proof.
  unfold parse_frac. destruct s as [| c s]; [intros [= _ <-]; apply le_n |].
  destruct (c =? Ch.dot)%N; [| intros [= _ <-]; apply le_n].
  pose proof (span_digits_length s) as Hlen.
  destruct (span_digits s) as [[| d ds] s3]; [discriminate |].
  intros [= _ <-]. cbn [fst snd length] in *. lia.
Qed.

Lemma parse_exp_length (s : jsstring) (e : Z) (r : jsstring) :
  parse_exp s = Some (e, r) -> length r <= length s.
Proof.
  unfold parse_exp. destruct s as [| c s]; [intros [= _ <-]; apply le_n |].
  destruct ((c =? Ch.lower_e)%N || (c =? Ch.upper_e)%N); [| intros [= _ <-]; apply le_n].
  assert (Hsign : forall s4, length s4 <= length s ->
            match span_digits s4 with
            | ([], _) => None
            | (d :: es, s5) => Some (e, s5)
            end = Some (e, r) -> length r <= length (c :: s)).
  { intros s4 Hs4. pose proof (span_digits_length s4) as Hlen.
    destruct (span_digits s4) as [[| d ds] s5]; [discriminate |].
    intros [= <-]. cbn [fst snd length] in *. lia. }
  destruct s as [| g s'].
  - cbn [span_digits]. discriminate.
  - destruct (g =? Ch.minus)%N; [| destruct (g =? Ch.plus)%N].
    + pose proof (span_digits_length s') as Hlen.
      destruct (span_digits s') as [[| d ds] s5]; [discriminate |].
      intros [= _ <-]. cbn [fst snd length] in *. lia.
    + pose proof (span_digits_length s') as Hlen.
      destruct (span_digits s') as [[| d ds] s5]; [discriminate |].
      intros [= _ <-]. cbn [fst snd length] in *. lia.
    + pose proof (span_digits_length (g :: s')) as Hlen.
      destruct (span_digits (g :: s')) as [[| d ds] s5]; [discriminate |].
      intros [= _ <-]. cbn [fst snd length] in *. lia.
Qed.

Lemma parse_unsigned_length (neg : bool) (s : jsstring) (x : Number) (r : jsstring) :
  parse_unsigned neg s = Some (x, r) -> length r < length s.
Proof.
  unfold parse_unsigned. pose proof (span_digits_length s) as Hlen.
  destruct (span_digits s) as [int_ds s2]. cbn [fst snd] in Hlen.
  destruct int_ds as [| d0 tl]; [discriminate |].
  destruct ((d0 =? 0)%N && negb (length tl =? 0)); [discriminate |].
  destruct (parse_frac s2) as [[frac_ds s3] |] eqn:Hf; [| discriminate].
  destruct (parse_exp s3) as [[e s5] |] eqn:He; [| discriminate].
  intros [= _ <-]. apply parse_frac_length in Hf. apply parse_exp_length in He.
  cbn [length] in Hlen. lia.
Qed.

Lemma parse_number_length (s : jsstring) (x : Number) (r : jsstring) :
  parse_number s = Some (x, r) -> length r < length s.
Proof.
  unfold parse_number. destruct s as [| c s]; [discriminate |].
  destruct (c =? Ch.minus)%N; intros H; apply parse_unsigned_length in H;
    cbn [length] in *; lia.
Qed.

Lemma starts_with_length (p s : jsstring) : starts_with p s = true -> length p <= length s.
Proof.
  revert s. induction p as [| a p IH]; intros s; [cbn; lia |].
  destruct s as [| b s]; [discriminate |]. cbn [starts_with length].
  intros H. apply andb_true_iff in H. destruct H as [_ H]. apply IH in H. lia.
Qed.

Lemma parse_literal_length (word : jsstring) (v v' : JsonValue) (s r : jsstring) :
  word <> [] -> parse_literal word v s = Some (v', r) -> length r < length s.
Proof.
  intros Hword. unfold parse_literal.
  destruct (starts_with word s) eqn:Hs; [| discriminate].
  intros [= _ <-]. apply starts_with_length in Hs. rewrite length_skipn.
  destruct word; [congruence | cbn [length] in *; lia].
Qed.

(** A successful parse consumes text, and succeeds alike with any fuel
    of at least twice what it consumes. *)
Lemma parse_fuel_bound (fuel : nat) :
  (forall s v r, parse_value fuel s = Some (v, r) ->
     length r < length s /\
     forall fuel', 2 * (length s - length r) <= fuel' ->
       parse_value fuel' s = Some (v, r)) /\
  (forall s vs r, parse_elements fuel s = Some (vs, r) ->
     length r < length s /\
     forall fuel', 2 * (length s - length r) <= S fuel' ->
       parse_elements fuel' s = Some (vs, r)) /\
  (forall s ms r, parse_members fuel s = Some (ms, r) ->
     length r < length s /\
     forall fuel', 2 * (length s - length r) <= S fuel' ->
       parse_members fuel' s = Some (ms, r)).
Proof.
  induction fuel as [| fuel (IHv & IHe & IHm)].
  - repeat split; intros; discriminate.
  - split; [| split].
    + intros s v r. cbn [parse_value].
      destruct (skip_ws s) as [| c rest] eqn:Hskip; [discriminate |].
      pose proof (skip_ws_cons_length s c rest Hskip) as Hrest.
      destruct (c =? Ch.lbrace)%N eqn:E1.
      { destruct (skip_ws rest) as [| c2 rest2] eqn:Hskip2; [discriminate |].
        pose proof (skip_ws_cons_length rest c2 rest2 Hskip2) as Hrest2.
        destruct (c2 =? Ch.rbrace)%N eqn:E2.
        - intros [= <- <-]. split; [lia |]. intros fuel' Hfuel'.
          destruct fuel' as [| f']; [lia |].
          cbn [parse_value]. now rewrite Hskip, E1, Hskip2, E2.
        - destruct (parse_members fuel rest) as [[ms r'] |] eqn:Hm; [| discriminate].
          intros [= <- <-]. destruct (IHm _ _ _ Hm) as [Hlen Hmore].
          split; [lia |]. intros fuel' Hfuel'.
          destruct fuel' as [| f']; [lia |].
          cbn [parse_value]. rewrite Hskip, E1, Hskip2, E2, (Hmore f'); [reflexivity | lia]. }
      destruct (c =? Ch.lbracket)%N eqn:E3.
      { destruct (skip_ws rest) as [| c2 rest2] eqn:Hskip2; [discriminate |].
        pose proof (skip_ws_cons_length rest c2 rest2 Hskip2) as Hrest2.
        destruct (c2 =? Ch.rbracket)%N eqn:E2.
        - intros [= <- <-]. split; [lia |]. intros fuel' Hfuel'.
          destruct fuel' as [| f']; [lia |].
          cbn [parse_value]. now rewrite Hskip, E1, E3, Hskip2, E2.
        - destruct (parse_elements fuel rest) as [[vs r'] |] eqn:He; [| discriminate].
          intros [= <- <-]. destruct (IHe _ _ _ He) as [Hlen Hmore].
          split; [lia |]. intros fuel' Hfuel'.
          destruct fuel' as [| f']; [lia |].
          cbn [parse_value].
          rewrite Hskip, E1, E3, Hskip2, E2, (Hmore f'); [reflexivity | lia]. }
      intros Hres.
      assert (Hlen : length r < length s).
      { destruct (c =? Ch.quote)%N.
        - destruct (parse_string_body rest) as [[str r'] |] eqn:Hs; [| discriminate].
          injection Hres as _ <-.
          apply (parse_string_body_length (length rest)) in Hs; lia.
        - destruct (c =? 116)%N; [apply parse_literal_length in Hres;
                                   [cbn [length] in Hres; lia | discriminate] |].
          destruct (c =? 102)%N; [apply parse_literal_length in Hres;
                                   [cbn [length] in Hres; lia | discriminate] |].
          destruct (c =? 110)%N; [apply parse_literal_length in Hres;
                                   [cbn [length] in Hres; lia | discriminate] |].
          destruct (parse_number (c :: rest)) as [[x r'] |] eqn:Hn; [| discriminate].
          injection Hres as _ <-. apply parse_number_length in Hn.
          cbn [length] in Hn. lia. }
      split; [assumption |]. intros fuel' Hfuel'.
      destruct fuel' as [| f']; [lia |].
      cbn [parse_value]. rewrite Hskip, E1, E3. exact Hres.
    + intros s vs r. cbn [parse_elements].
      destruct (parse_value fuel s) as [[v r1] |] eqn:Hv; [| discriminate].
      destruct (IHv _ _ _ Hv) as [Hlen1 Hmore1].
      destruct (skip_ws r1) as [| c r'] eqn:Hskip; [discriminate |].
      pose proof (skip_ws_cons_length r1 c r' Hskip) as Hr'.
      destruct (c =? Ch.comma)%N eqn:E1.
      { intros H. apply cons_fst_Some in H. destruct H as (vs' & He & ->).
        destruct (IHe _ _ _ He) as [Hlen2 Hmore2].
        split; [lia |]. intros fuel' Hfuel'.
        destruct fuel' as [| f']; [lia |].
        cbn [parse_elements]. rewrite (Hmore1 f') by lia.
        rewrite Hskip, E1, (Hmore2 f') by lia. reflexivity. }
      destruct (c =? Ch.rbracket)%N eqn:E2; [| discriminate].
      intros [= <- <-]. split; [lia |]. intros fuel' Hfuel'.
      destruct fuel' as [| f']; [lia |].
      cbn [parse_elements]. rewrite (Hmore1 f') by lia.
      now rewrite Hskip, E1, E2.
    + intros s ms r. cbn [parse_members].
      destruct (skip_ws s) as [| q r0] eqn:Hskip0; [discriminate |].
      pose proof (skip_ws_cons_length s q r0 Hskip0) as Hr0.
      destruct (q =? Ch.quote)%N eqn:Eq; [| discriminate].
      destruct (parse_string_body r0) as [[key r1] |] eqn:Hkey; [| discriminate].
      pose proof (parse_string_body_length (length r0) r0 key r1 (le_n _) Hkey) as Hr1.
      destruct (skip_ws r1) as [| c1 r2] eqn:Hskip1; [discriminate |].
      pose proof (skip_ws_cons_length r1 c1 r2 Hskip1) as Hr2.
      destruct (c1 =? Ch.colon)%N eqn:Ec; [| discriminate].
      destruct (parse_value fuel r2) as [[v r3] |] eqn:Hv; [| discriminate].
      destruct (IHv _ _ _ Hv) as [Hlen1 Hmore1].
      destruct (skip_ws r3) as [| c r'] eqn:Hskip; [discriminate |].
      pose proof (skip_ws_cons_length r3 c r' Hskip) as Hr'.
      destruct (c =? Ch.comma)%N eqn:E1.
      { intros H. apply cons_fst_Some in H. destruct H as (ms' & Hm & ->).
        destruct (IHm _ _ _ Hm) as [Hlen2 Hmore2].
        split; [lia |]. intros fuel' Hfuel'.
        destruct fuel' as [| f']; [lia |].
        cbn [parse_members]. rewrite Hskip0, Eq, Hkey, Hskip1, Ec.
        rewrite (Hmore1 f') by lia.
        rewrite Hskip, E1, (Hmore2 f') by lia. reflexivity. }
      destruct (c =? Ch.rbrace)%N eqn:E2; [| discriminate].
      intros [= <- <-]. split; [lia |]. intros fuel' Hfuel'.
      destruct fuel' as [| f']; [lia |].
      cbn [parse_members]. rewrite Hskip0, Eq, Hkey, Hskip1, Ec.
      rewrite (Hmore1 f') by lia.
      now rewrite Hskip, E1, E2.
Qed.

(** The result of [JSON_parse] does not depend on its fuel: whatever the
    parser accepts with some fuel, it accepts with the fuel of
    [JSON_parse], and with any more. *)
Theorem JSON_parse_fuel_adequate (fuel : nat) (text : jsstring) (v : JsonValue)
    (rest : jsstring) :
  parse_value fuel text = Some (v, rest) ->
  forall fuel', 2 * length text + 2 <= fuel' ->
    parse_value fuel' text = Some (v, rest).
Proof.
  intros Hparse fuel' Hfuel'.
  destruct (proj1 (parse_fuel_bound fuel) text v rest Hparse) as [Hlen Hmore].
  apply Hmore. lia.
Qed.

End Fuel.

(** ** C1: formatting and minifying keep the value *)

(** C1, as stated, fails: [1e999] is valid JSON and parses to
    [Infinity], [JSON.stringify] writes [Infinity] as [null], and [null]
    parses to [null]. *)
Lemma formatJson_overflow_changes_value :
  JSON_parse (lit "1e999") = Some (JNum (NInfinity false)) /\
  formatted (formatJson (fun _ => lit "SyntaxError") (lit "1e999") 2) = lit "null" /\
  JSON_parse (formatted (formatJson (fun _ => lit "SyntaxError") (lit "1e999") 2))
  = Some JNull /\
  JSON_parse (formatted (minifyJson (fun _ => lit "SyntaxError") (lit "1e999")))
  = Some JNull /\
  JSON_parse (formatted (formatJson (fun _ => lit "SyntaxError") (lit "1e999") 2))
  <> JSON_parse (lit "1e999").
Proof.
  split; [vm_compute; reflexivity |].
  split; [vm_compute; reflexivity |].
  split; [vm_compute; reflexivity |].
  split; [vm_compute; reflexivity |].
  vm_compute. discriminate.
Qed.

(** C1, amended: when the input parses to a value in which no number
    has overflowed to an infinity, the outputs of [formatJson] (with any
    indentation) and of [minifyJson] parse to that same value. *)
Theorem format_minify_preserve_value
    (host : jsstring -> jsstring) (input : jsstring) (v : JsonValue) (spaces : Z) :
  JSON_parse input = Some v ->
  all_finite v = true ->
  JSON_parse (formatted (formatJson host input spaces)) = Some v /\
  JSON_parse (formatted (minifyJson host input)) = Some v.
Proof.
  intros Hparse Hfin.
  pose proof (JSON_parse_wf input v Hparse) as Hwf.
  pose proof (JSON_parse_not_blank input v Hparse) as Hblank.
  unfold formatJson, minifyJson. rewrite Hblank, Hparse. cbn [formatted].
  split.
  - apply JSON_parse_Serialize; [assumption | assumption | apply ws_repeat_space].
  - apply JSON_parse_Serialize; [assumption | assumption | reflexivity].
Qed.

Lemma format_minify_preserve_value_witness :
  JSON_parse (formatted (formatJson (fun _ => lit "SyntaxError") (lit "[1, -2.5e3,  null]") 2))
  = Some (JArr [JNum (num 1); JNum (NFinite true 5497558138880000 (-41)); JNull]).
Proof.
  apply (format_minify_preserve_value (fun _ => lit "SyntaxError")
           (lit "[1, -2.5e3,  null]")
           (JArr [JNum (num 1); JNum (NFinite true 5497558138880000 (-41)); JNull]) 2).
  - vm_compute. reflexivity.
  - reflexivity.
Defined.

(** ** validateJson *)

Section Validate.

Variable host : jsstring -> jsstring.

Lemma validateJson_syntax_error (input : jsstring) :
  is_empty (trim input) = false ->
  JSON_parse input = None ->
  validateJson host input
  = let position := match match_position (host input) with
                    | Some ds => parseInt ds
                    | None => O
                    end in
    let lines := split Ch.lf (substring0 input position) in
    {| valid := false; error := Some (host input);
       line := Some (length lines);
       column := Some (length (last lines []) + 1) |}.
Proof.
  intros Hblank Hparse. unfold validateJson. now rewrite Hblank, Hparse.
Qed.

End Validate.



Section NoOffset.

Lemma starts_with_prefix (p s : jsstring) :
  starts_with p s = true -> s = p ++ skipn (length p) s.
Proof.
  revert s. induction p as [| a p IH]; intros s; [reflexivity |].
  destruct s as [| b s]; [discriminate |]. cbn [starts_with length skipn app].
  intros H. apply andb_true_iff in H. destruct H as [Hab H].
  apply N.eqb_eq in Hab. subst b. f_equal. now apply IH.
Qed.

(** The pattern [/position (\d+)/] finds nothing in a message in which
    no [position ] is followed by a digit. *)
Lemma match_position_none (message : jsstring) :
  (forall pre d rest,
     message = pre ++ lit "position " ++ d :: rest -> is_digit d = false) ->
  match_position message = None.
Proof.
  induction message as [| c message IH]; intros Hnone; [reflexivity |].
  assert (Htail : match_position message = None).
  { apply IH. intros pre d rest ->. apply (Hnone (c :: pre) d rest). reflexivity. }
  cbn [match_position].
  destruct (starts_with (lit "position ") (c :: message)) eqn:Hstart; [| exact Htail].
  apply starts_with_prefix in Hstart.
  change (length (lit "position ")) with 9 in Hstart.
  destruct (skipn 9 (c :: message)) as [| d rest] eqn:Hskip; [exact Htail |].
  cbn [span_digits]. rewrite (Hnone [] d rest Hstart). exact Htail.
Qed.

(** It finds an offset in every other message. *)
Lemma match_position_found (pre : jsstring) (d : char16) (rest : jsstring) :
  is_digit d = true ->
  match_position (pre ++ lit "position " ++ d :: rest) <> None.
Proof.
  intros Hd. induction pre as [| c pre IH].
  - cbn [app]. cbn. rewrite Hd. destruct (span_digits rest). discriminate.
  - cbn [app match_position].
    destruct (starts_with (lit "position ") (c :: pre ++ lit "position " ++ d :: rest)).
    + destruct (span_digits (skipn 9 (c :: pre ++ lit "position " ++ d :: rest)))
        as [[| d0 ds] r]; [exact IH | discriminate].
    + exact IH.
Qed.

End NoOffset.

(** C4, as stated, fails: with a message that has no offset, as V8's
    "Unexpected end of JSON input", the result still has a line and a
    column, both 1. *)
Lemma validateJson_no_offset_has_line_column :
  JSON_parse truncated_object = None /\
  match_position (lit "Unexpected end of JSON input") = None /\
  line (validateJson (fun _ => lit "Unexpected end of JSON input") truncated_object)
  = Some 1 /\
  column (validateJson (fun _ => lit "Unexpected end of JSON input") truncated_object)
  = Some 1 /\
  line (validateJson (fun _ => lit "Unexpected end of JSON input") truncated_object)
  <> None.
Proof.
  repeat split; try reflexivity. vm_compute. discriminate.
Qed.

(** The offset is whatever follows the first [position ] of the message,
    also in a message that reports no offset and only repeats the
    input.  For the input [xx], two line feeds, [position 4], a message
    that quotes the input makes the result name line 3, column 1. *)
Lemma validateJson_echoed_position :
  validateJson
    (fun input => lit "Unexpected token 'x', " ++ [Ch.quote] ++ input ++ [Ch.quote]
                  ++ lit " is not valid JSON")
    (lit "xx" ++ [Ch.lf; Ch.lf] ++ lit "position 4")
  = {| valid := false;
       error := Some (lit "Unexpected token 'x', " ++ [Ch.quote]
                      ++ lit "xx" ++ [Ch.lf; Ch.lf] ++ lit "position 4" ++ [Ch.quote]
                      ++ lit " is not valid JSON");
       line := Some 3; column := Some 1 |}.
Proof. vm_compute. reflexivity. Qed.

(** C4, amended: when parsing fails and the message holds no
    [position ] followed by a digit, which is what the code takes for an
    offset, the result is invalid with line 1 and column 1. *)
Theorem validateJson_no_offset_line_1_column_1
    (host : jsstring -> jsstring) (input : jsstring) :
  is_empty (trim input) = false ->
  JSON_parse input = None ->
  (forall pre d rest,
     host input = pre ++ lit "position " ++ d :: rest -> is_digit d = false) ->
  validateJson host input
  = {| valid := false; error := Some (host input);
       line := Some 1; column := Some 1 |}.
Proof.
  intros Hblank Hparse Hnone.
  rewrite (validateJson_syntax_error host input Hblank Hparse),
    (match_position_none _ Hnone).
  reflexivity.
Qed.

Lemma validateJson_no_offset_line_1_column_1_witness :
  validateJson (fun _ => lit "Unexpected end of JSON input") (lit "[1,")
  = {| valid := false; error := Some (lit "Unexpected end of JSON input");
       line := Some 1; column := Some 1 |}.
Proof.
  apply (validateJson_no_offset_line_1_column_1
           (fun _ => lit "Unexpected end of JSON input") (lit "[1,"));
    try reflexivity.
  intros pre d rest Hmessage.
  destruct (is_digit d) eqn:Hd; [exfalso | reflexivity].
  apply (match_position_found pre d rest Hd). now rewrite <- Hmessage.
Defined.

(** ** Entry of the converters: parsing and the falsy guard *)

Lemma resolve_input_text (text : jsstring) (v : JsonValue) :
  JSON_parse text = Some v -> resolve_input (JStr text) = v.
Proof.
  intros Hparse. unfold resolve_input, parseJson. now rewrite Hparse.
Qed.

Lemma resolve_input_value (v : JsonValue) :
  (forall s, v <> JStr s) -> resolve_input v = v.
Proof.
  destruct v; intros Hs; try reflexivity. now elim (Hs s).
Qed.

Lemma resolve_input_empty_text : resolve_input (JStr []) = JNull.
Proof. reflexivity. Qed.

Lemma falsy_guard (obj : JsonValue) :
  falsy obj = true ->
  (if falsy obj then invalid_input else invalid_input) = invalid_input.
Proof. intros ->. reflexivity. Qed.

Lemma converters_reject_falsy (native : jsstring -> jsstring) (json : JsonValue) :
  falsy (resolve_input json) = true ->
  jsonToXml json = invalid_input /\
  jsonToCsv native json = invalid_input /\
  jsonToYaml json = invalid_input.
Proof.
  intros Hf. unfold jsonToXml, jsonToCsv, jsonToYaml. rewrite Hf. repeat split.
Qed.

(** C9: a parse that yields [null], [false], [0] or the empty string
    makes [jsonToXml], [jsonToCsv] and [jsonToYaml] throw "Invalid JSON
    input", for the text as for the value itself. *)
Theorem falsy_value_throws_invalid_input
    (native : jsstring -> jsstring) (v : JsonValue) :
  v = JNull \/ v = JBool false \/ v = JNum NZero \/ v = JStr [] ->
  (forall text, JSON_parse text = Some v ->
     jsonToXml (JStr text) = Throw (lit "Invalid JSON input") /\
     jsonToCsv native (JStr text) = Throw (lit "Invalid JSON input") /\
     jsonToYaml (JStr text) = Throw (lit "Invalid JSON input")) /\
  (jsonToXml v = Throw (lit "Invalid JSON input") /\
   jsonToCsv native v = Throw (lit "Invalid JSON input") /\
   jsonToYaml v = Throw (lit "Invalid JSON input")).
Proof.
  intros Hv. split.
  - intros text Hparse. apply converters_reject_falsy.
    rewrite (resolve_input_text text v Hparse).
    destruct Hv as [-> | [-> | [-> | ->]]]; reflexivity.
  - apply converters_reject_falsy.
    destruct Hv as [-> | [-> | [-> | ->]]]; reflexivity.
Qed.

Lemma falsy_value_throws_invalid_input_witness :
  JSON_parse (lit "false") = Some (JBool false) /\
  jsonToCsv v8_function_text (JStr (lit "false")) = Throw (lit "Invalid JSON input").
Proof.
  split; [reflexivity |].
  destruct (falsy_value_throws_invalid_input v8_function_text (JBool false)) as [Htext _].
  - right. left. reflexivity.
  - apply (Htext (lit "false")). reflexivity.
Defined.

(** C10: the empty array converts to the empty CSV text. *)
Theorem jsonToCsv_empty_array (native : jsstring -> jsstring) :
  jsonToCsv native (JArr []) = Ok [] /\ jsonToCsv native (JStr (lit "[]")) = Ok [].
Proof. split; reflexivity. Qed.

(** ** C2: the shape error of jsonToCsv *)

(** C2, as stated, fails: [null] parses, is neither array nor object, and
    is rejected by the falsy guard before the shape is looked at. *)
Lemma jsonToCsv_null_not_shape_error :
  JSON_parse (lit "null") = Some JNull /\
  is_container JNull = false /\
  jsonToCsv v8_function_text (JStr (lit "null")) = Throw (lit "Invalid JSON input") /\
  jsonToCsv v8_function_text (JStr (lit "null"))
    <> Throw (lit "JSON must be an object or array for CSV conversion").
Proof.
  repeat split; try reflexivity. vm_compute. discriminate.
Qed.

(** C2, amended: a parseable input whose value is [true], a non-zero
    number or a non-empty string makes [jsonToCsv] throw the shape
    error; so do [true] and a non-zero number passed as values. *)
Theorem jsonToCsv_truthy_scalar_shape_error
    (native : jsstring -> jsstring) (v : JsonValue) :
  v = JBool true \/ (exists x, v = JNum x /\ x <> NZero)
  \/ (exists s, v = JStr s /\ s <> []) ->
  (forall text, JSON_parse text = Some v ->
     jsonToCsv native (JStr text)
     = Throw (lit "JSON must be an object or array for CSV conversion")) /\
  ((forall s, v <> JStr s) ->
     jsonToCsv native v
     = Throw (lit "JSON must be an object or array for CSV conversion")).
Proof.
  intros Hv.
  assert (Hshape : forall json, resolve_input json = v ->
            jsonToCsv native json = Throw csv_shape_error).
  { intros json Hres. unfold jsonToCsv. rewrite Hres.
    destruct Hv as [-> | [(x & -> & Hx) | (s & -> & Hs)]].
    - reflexivity.
    - destruct x; [now elim Hx | reflexivity | reflexivity].
    - destruct s; [now elim Hs | reflexivity]. }
  split.
  - intros text Hparse. apply Hshape, (resolve_input_text text v Hparse).
  - intros Hnot. apply Hshape, resolve_input_value, Hnot.
Qed.

Lemma jsonToCsv_truthy_scalar_shape_error_witness :
  jsonToCsv v8_function_text (JStr (lit "5"))
  = Throw (lit "JSON must be an object or array for CSV conversion").
Proof.
  destruct (jsonToCsv_truthy_scalar_shape_error v8_function_text (JNum (num 5)))
    as [Htext _].
  - right. left. exists (num 5). split; [reflexivity | discriminate].
  - apply Htext. reflexivity.
Defined.

(** ** CSV *)

Section Csv.

Lemma escapeCsv_quoted (str : jsstring) :
  needs_quoting str ->
  escapeCsv str = [Ch.quote] ++ replace_all Ch.quote [Ch.quote; Ch.quote] str ++ [Ch.quote].
Proof.
  intros Hq. unfold escapeCsv.
  replace (includes [Ch.comma] str || includes [Ch.quote] str || includes [Ch.lf] str)
    with true; [reflexivity |].
  symmetry. rewrite !orb_true_iff, !includes_char. unfold needs_quoting in Hq. tauto.
Qed.

Lemma escapeCsv_verbatim (str : jsstring) :
  ~ needs_quoting str -> escapeCsv str = str.
Proof.
  intros Hq. unfold escapeCsv.
  replace (includes [Ch.comma] str || includes [Ch.quote] str || includes [Ch.lf] str)
    with false; [reflexivity |].
  symmetry. rewrite !orb_false_iff, !includes_char_false. unfold needs_quoting in Hq. tauto.
Qed.

Lemma escapeCsv_empty : escapeCsv [] = [].
Proof. reflexivity. Qed.

Variable native : jsstring -> jsstring.

Lemma csv_cell_escapes_raw (value : PropertyValue) :
  csv_cell native value = escapeCsv (raw_cell native value).
Proof.
  destruct value as [v | name | |]; [destruct v | | |]; reflexivity.
Qed.

Lemma csv_row_escapes_raw (keys : list jsstring) (item : JsonValue) :
  csv_row native keys item = join [Ch.comma] (map escapeCsv (raw_row native keys item)).
Proof.
  unfold csv_row, raw_row.
  destruct item; rewrite map_map; f_equal; apply map_ext; intros key;
    auto using csv_cell_escapes_raw.
Qed.

Lemma render_table_rows (keys : list jsstring) (items : list JsonValue) :
  map (fun row => join [Ch.comma] row)
      (map (map escapeCsv) (keys :: map (raw_row native keys) items))
  = join [Ch.comma] (map escapeCsv keys) :: map (csv_row native keys) items.
Proof.
  cbn [map]. f_equal. rewrite !map_map. apply map_ext.
  intros item. symmetry. apply csv_row_escapes_raw.
Qed.

Lemma jsonToCsv_renders_raw_table (json : JsonValue) (text : jsstring) :
  jsonToCsv native json = Ok text ->
  text = render_table (map (map escapeCsv) (csv_raw_table native (resolve_input json))).
Proof.
  unfold jsonToCsv. destruct (falsy (resolve_input json)); [discriminate |].
  destruct (resolve_input json) as [| b | x | s | items | entries]; try discriminate.
  - destruct items as [| item items]; intros Hok; injection Hok as Htext;
      subst text; [reflexivity |].
    unfold render_table, csv_raw_table. now rewrite render_table_rows.
  - intros Hok; injection Hok as Htext; subst text.
    unfold render_table, csv_raw_table. cbn [map].
    rewrite join_two, !map_map.
    rewrite (map_ext (fun key => csv_cell native (Get entries key))
               (fun key => escapeCsv (raw_cell native (Get entries key))));
      [reflexivity |].
    intros key. apply csv_cell_escapes_raw.
Qed.

End Csv.

Section Doubling.

Lemma replace_all_double_quotes (str : jsstring) :
  replace_all Ch.quote [Ch.quote; Ch.quote] str = double_quotes str.
Proof.
  unfold replace_all. induction str as [| c str IH]; [reflexivity |].
  cbn [flat_map double_quotes]. rewrite IH. now destruct (c =? Ch.quote)%N.
Qed.

Lemma double_quotes_length (str : jsstring) :
  length (double_quotes str) = length str + count_occ N.eq_dec str Ch.quote.
Proof.
  induction str as [| c str IH]; [reflexivity |].
  cbn [double_quotes count_occ length].
  destruct (N.eqb_spec c Ch.quote) as [-> | Hc].
  - destruct (N.eq_dec Ch.quote Ch.quote); [| contradiction]. cbn [length]. lia.
  - destruct (N.eq_dec c Ch.quote); [contradiction |]. cbn [length]. lia.
Qed.

Lemma double_quotes_count (str : jsstring) :
  count_occ N.eq_dec (double_quotes str) Ch.quote
  = 2 * count_occ N.eq_dec str Ch.quote.
Proof.
  induction str as [| c str IH]; [reflexivity |].
  cbn [double_quotes count_occ].
  destruct (N.eqb_spec c Ch.quote) as [-> | Hc].
  - cbn [count_occ]. destruct (N.eq_dec Ch.quote Ch.quote); [| contradiction]. lia.
  - cbn [count_occ]. destruct (N.eq_dec c Ch.quote); [contradiction |]. exact IH.
Qed.

End Doubling.

(** C6: every field of the CSV text is [escapeCsv] of its raw text.
    [escapeCsv] puts the text between double quotes, with each double
    quote inside written twice, exactly when the text holds a comma, a
    double quote or a line feed; any other text is emitted as it is.
    The field [say "hi"] is written between two double quotes with
    the two inside written twice. *)
Theorem csv_fields_quoted_iff_special :
  (forall str : jsstring,
     (In Ch.comma str \/ In Ch.quote str \/ In Ch.lf str <->
      escapeCsv str = [Ch.quote] ++ double_quotes str ++ [Ch.quote]) /\
     (~ (In Ch.comma str \/ In Ch.quote str \/ In Ch.lf str) ->
      escapeCsv str = str) /\
     length (double_quotes str) = length str + count_occ N.eq_dec str Ch.quote /\
     count_occ N.eq_dec (double_quotes str) Ch.quote
     = 2 * count_occ N.eq_dec str Ch.quote) /\
  (forall (native : jsstring -> jsstring) (json : JsonValue) (text : jsstring),
     jsonToCsv native json = Ok text ->
     text = join [Ch.lf]
              (map (fun row => join [Ch.comma] (map escapeCsv row))
                   (csv_raw_table native (resolve_input json)))) /\
  double_quotes say_hi
  = lit "say " ++ [Ch.quote; Ch.quote] ++ lit "hi" ++ [Ch.quote; Ch.quote] /\
  (forall native : jsstring -> jsstring,
     jsonToCsv native (JObj [(lit "a", JNum (num 1)); (lit "b", JStr (lit "x,y"))])
     = Ok (lit "a,b" ++ [Ch.lf] ++ lit "1," ++ [Ch.quote] ++ lit "x,y" ++ [Ch.quote]) /\
     jsonToCsv native (JObj [(lit "a", JStr say_hi)])
     = Ok (lit "a" ++ [Ch.lf] ++ [Ch.quote] ++ lit "say " ++ [Ch.quote; Ch.quote]
           ++ lit "hi" ++ [Ch.quote; Ch.quote] ++ [Ch.quote])).
Proof.
  split; [| split; [| split]].
  - intros str.
    assert (Hdec : needs_quoting str \/ ~ needs_quoting str).
    { unfold needs_quoting.
      destruct (in_dec N.eq_dec Ch.comma str); [tauto |].
      destruct (in_dec N.eq_dec Ch.quote str); [tauto |].
      destruct (in_dec N.eq_dec Ch.lf str); tauto. }
    split; [| split; [| split]].
    + split.
      * intros Hneeds. rewrite (escapeCsv_quoted str Hneeds).
        now rewrite replace_all_double_quotes.
      * intros Hquoted. destruct Hdec as [Hneeds | Hplain]; [exact Hneeds |].
        rewrite (escapeCsv_verbatim str Hplain) in Hquoted.
        right. left. rewrite Hquoted. now left.
    + apply escapeCsv_verbatim.
    + apply double_quotes_length.
    + apply double_quotes_count.
  - intros native json text Hok.
    rewrite (jsonToCsv_renders_raw_table native json text Hok).
    unfold render_table. now rewrite map_map.
  - reflexivity.
  - intros native. split; vm_compute; reflexivity.
Qed.

Lemma csv_fields_quoted_iff_special_witness :
  escapeCsv say_hi
  = [Ch.quote] ++ lit "say " ++ [Ch.quote; Ch.quote] ++ lit "hi"
    ++ [Ch.quote; Ch.quote] ++ [Ch.quote] /\
  escapeCsv (lit "xy") = lit "xy".
Proof.
  destruct csv_fields_quoted_iff_special as [Hescape _]. split.
  - destruct (Hescape say_hi) as (Hquoted & _).
    rewrite (proj1 Hquoted); [reflexivity |].
    right. left. vm_compute. tauto.
  - destruct (Hescape (lit "xy")) as (_ & Hplain & _).
    apply Hplain. simpl. unfold Ch.comma, Ch.quote, Ch.lf.
    intros [[H | [H | []]] | [[H | [H | []]] | [H | [H | []]]]]; discriminate H.
Defined.

(** ** The columns of the CSV table: [Array.from(new Set(...))] *)

Section Columns.

Lemma existsb_eqb_In (k : jsstring) (acc : list jsstring) :
  existsb (jsstring_eqb k) acc = true <-> In k acc.
Proof.
  rewrite existsb_exists. split.
  - intros (x & Hin & Heq). apply jsstring_eqb_eq in Heq. now subst.
  - intros Hin. exists k. split; [assumption | apply jsstring_eqb_refl].
Qed.

Lemma Set_add_cases (acc : list jsstring) (k : jsstring) :
  (In k acc /\ Set_add acc k = acc) \/ (~ In k acc /\ Set_add acc k = acc ++ [k]).
Proof.
  unfold Set_add. destruct (existsb (jsstring_eqb k) acc) eqn:E.
  - left. split; [now apply existsb_eqb_In | reflexivity].
  - right. split; [| reflexivity].
    intros Hin. apply existsb_eqb_In in Hin. congruence.
Qed.

(** Adding members never disturbs what the set already holds. *)
Lemma fold_Set_add_extends (l acc : list jsstring) :
  exists added, fold_left Set_add l acc = acc ++ added.
Proof.
  revert acc. induction l as [| k l IH]; intros acc; simpl.
  - exists []. now rewrite app_nil_r.
  - destruct (Set_add_cases acc k) as [[_ ->] | [_ ->]].
    + apply IH.
    + destruct (IH (acc ++ [k])) as [added ->].
      exists (k :: added). now rewrite <- app_assoc.
Qed.

Lemma fold_Set_add_In (l acc : list jsstring) (x : jsstring) :
  In x (fold_left Set_add l acc) <-> In x acc \/ In x l.
Proof.
  revert acc. induction l as [| k l IH]; intros acc; simpl.
  - tauto.
  - rewrite IH. destruct (Set_add_cases acc k) as [[Hin ->] | [_ ->]].
    + intuition (subst; auto).
    + rewrite in_app_iff. simpl. intuition (subst; auto).
Qed.

Lemma fold_Set_add_NoDup (l acc : list jsstring) :
  NoDup acc -> NoDup (fold_left Set_add l acc).
Proof.
  revert acc. induction l as [| k l IH]; intros acc Hnd; simpl; [assumption |].
  apply IH. destruct (Set_add_cases acc k) as [[_ ->] | [Hnot ->]]; [assumption |].
  apply NoDup_app; [assumption | repeat constructor; simpl; tauto |].
  intros x Hx [Heq | []]. subst x. contradiction.
Qed.

Lemma Set_from_In (l : list jsstring) (x : jsstring) : In x (Set_from l) <-> In x l.
Proof. unfold Set_from. rewrite fold_Set_add_In. simpl. tauto. Qed.

Lemma Set_from_NoDup (l : list jsstring) : NoDup (Set_from l).
Proof. apply fold_Set_add_NoDup. constructor. Qed.

(** First-seen order: where [k] first occurs after the prefix [seen], the
    members before it are those of [seen]. *)
Lemma Set_from_first_seen (seen rest : list jsstring) (k : jsstring) :
  ~ In k seen ->
  exists before after,
    Set_from (seen ++ k :: rest) = before ++ k :: after /\
    (forall x, In x before <-> In x seen).
Proof.
  intros Hnew. unfold Set_from. rewrite fold_left_app. simpl.
  fold (Set_from seen).
  destruct (Set_add_cases (Set_from seen) k) as [[Hin _] | [_ ->]].
  - rewrite Set_from_In in Hin. contradiction.
  - destruct (fold_Set_add_extends rest (Set_from seen ++ [k])) as [added ->].
    exists (Set_from seen), added. split.
    + now rewrite <- app_assoc.
    + intros x. apply Set_from_In.
Qed.

Lemma in_flat_map_item_keys (items : list JsonValue) (k : jsstring) :
  In k (flat_map item_keys items) <->
  exists entries, In (JObj entries) items /\ In k (map fst entries).
Proof.
  rewrite in_flat_map. split.
  - intros (item & Hitem & Hk). destruct item; try contradiction.
    now exists entries.
  - intros (entries & Hitem & Hk). now exists (JObj entries).
Qed.

End Columns.

Section Rows.

Variable native : jsstring -> jsstring.

Lemma csv_row_not_object (keys : list jsstring) (item : JsonValue) :
  (forall entries, item <> JObj entries) ->
  csv_row native keys item = join [Ch.comma] (repeat [] (length keys)).
Proof.
  intros Hnot.
  assert (Hmap : map (fun _ : jsstring => @nil char16) keys = repeat [] (length keys)).
  { induction keys as [| k keys IH]; simpl; [reflexivity | now rewrite IH]. }
  destruct item; simpl; rewrite ?Hmap; try reflexivity.
  now elim (Hnot entries).
Qed.

Lemma csv_cell_undefined_or_null (value : PropertyValue) :
  value = Undefined \/ value = Own JNull -> csv_cell native value = [].
Proof. intros [-> | ->]; reflexivity. Qed.

Lemma Forall2_map_r {A B : Type} (P : A -> B -> Prop) (f : A -> B) (l : list A) :
  (forall a, P a (f a)) -> Forall2 P l (map f l).
Proof.
  intros Hf. induction l; simpl; constructor; auto.
Qed.

End Rows.

(** A key the object does not have reads as [undefined], unless every
    object inherits a property of that name. *)
Lemma Get_absent (entries : JsonObject) (key : jsstring) :
  ~ In key (map fst entries) ->
  key <> lit "constructor" -> key <> lit "__proto__" ->
  ~ In key Object_prototype_methods ->
  Get entries key = Undefined.
Proof.
  intros Habsent Hc Hp Hm. unfold Get.
  replace (get_property key entries) with (@None JsonValue).
  - unfold inherited_property.
    apply jsstring_eqb_neq in Hc, Hp. rewrite Hc, Hp.
    replace (existsb (jsstring_eqb key) Object_prototype_methods) with false;
      [reflexivity |].
    symmetry. apply not_true_is_false. intros Hex. apply Hm.
    apply existsb_exists in Hex. destruct Hex as (x & Hin & Heq).
    apply jsstring_eqb_eq in Heq. now subst.
  - symmetry. induction entries as [| [k w] entries IH]; [reflexivity |].
    cbn [get_property]. cbn [map fst In] in Habsent.
    replace (jsstring_eqb k key) with false
      by (symmetry; apply jsstring_eqb_neq; tauto).
    apply IH. tauto.
Qed.

(** The table of a non-empty array: the header lists, escaped, the keys
    of the elements that are objects, each once and in the order they
    are first seen; there is one row per element, a row of empty fields
    for an element that is not an object, and in the row of an object an
    empty field for every key whose value is undefined or [null]: so
    for every key the object does not have, the names that objects
    inherit apart.  The array [[{a:1,b:2},{a:3}]] gives the header
    [a,b] and the rows [1,2] and [3,]. *)
Theorem jsonToCsv_array_columns (native : jsstring -> jsstring) :
  (forall items : list JsonValue,
   items <> [] ->
   exists (keys : list jsstring) (rows : list jsstring),
    jsonToCsv native (JArr items)
    = Ok (join [Ch.lf] (join [Ch.comma] (map escapeCsv keys) :: rows)) /\
    NoDup keys /\
    (forall k, In k keys <->
       exists entries, In (JObj entries) items /\ In k (map fst entries)) /\
    (forall seen k rest,
       flat_map item_keys items = seen ++ k :: rest -> ~ In k seen ->
       exists before after,
         keys = before ++ k :: after /\ (forall x, In x before <-> In x seen)) /\
    Forall2 (fun item row =>
       ((forall entries, item <> JObj entries) ->
        row = join [Ch.comma] (repeat [] (length keys))) /\
       (forall entries, item = JObj entries ->
        exists fields,
          row = join [Ch.comma] fields /\
          Forall2 (fun key field =>
             (Get entries key = Undefined \/ Get entries key = Own JNull ->
              field = []) /\
             (~ In key (map fst entries) ->
              key <> lit "constructor" -> key <> lit "__proto__" ->
              ~ In key Object_prototype_methods ->
              field = [])) keys fields)) items rows) /\
  jsonToCsv native
    (JArr [JObj [(lit "a", JNum (num 1)); (lit "b", JNum (num 2))];
           JObj [(lit "a", JNum (num 3))]])
  = Ok (lit "a,b" ++ [Ch.lf] ++ lit "1,2" ++ [Ch.lf] ++ lit "3,").
Proof.
  split; [| vm_compute; reflexivity].
  intros items Hne.
  exists (Set_from (flat_map item_keys items)).
  exists (map (csv_row native (Set_from (flat_map item_keys items))) items).
  split; [| split; [| split; [| split]]].
  - destruct items; [congruence | reflexivity].
  - apply Set_from_NoDup.
  - intros k. rewrite Set_from_In. apply in_flat_map_item_keys.
  - intros seen k rest Heq Hnew. rewrite Heq. now apply Set_from_first_seen.
  - apply Forall2_map_r. intros item. split.
    + apply csv_row_not_object.
    + intros entries ->. eexists. split; [reflexivity |].
      apply Forall2_map_r. intros key. split.
      * apply csv_cell_undefined_or_null.
      * intros Habsent Hc Hp Hm. apply csv_cell_undefined_or_null. left.
        now apply Get_absent.
Qed.

Lemma jsonToCsv_array_columns_witness :
  exists keys rows,
    jsonToCsv v8_function_text (JArr [JNum (num 7); JObj [(lit "k", JNull)]])
    = Ok (join [Ch.lf] (join [Ch.comma] (map escapeCsv keys) :: rows)) /\
    NoDup keys.
Proof.
  destruct (proj1 (jsonToCsv_array_columns v8_function_text)
              [JNum (num 7); JObj [(lit "k", JNull)]])
    as (keys & rows & Hcsv & Hnd & _).
  - discriminate.
  - now exists keys, rows.
Defined.

(** C5 promises an empty field for a value an element lacks.  The read
    [item[key]] goes through the prototype, so a key that names a
    property every object inherits is not undefined in an element
    without it: in V8 the text [[{"constructor":1},{}]] gives the rows
    [1] and [function Object() { [native code] }], not [1] and an empty
    row. *)
Theorem jsonToCsv_inherited_property :
  JSON_parse constructor_rows
  = Some (JArr [JObj [(lit "constructor", JNum (num 1))]; JObj []]) /\
  Get [] (lit "constructor") = BuiltinFunction (lit "Object") /\
  jsonToCsv v8_function_text (JStr constructor_rows)
  = Ok (lit "constructor" ++ [Ch.lf] ++ lit "1" ++ [Ch.lf]
        ++ lit "function Object() { [native code] }") /\
  jsonToCsv v8_function_text (JStr constructor_rows)
  <> Ok (lit "constructor" ++ [Ch.lf] ++ lit "1" ++ [Ch.lf]).
Proof.
  split; [vm_compute; reflexivity |].
  split; [vm_compute; reflexivity |].
  split; [vm_compute; reflexivity |].
  vm_compute. discriminate.
Qed.

(** ** XML *)

Section Xml.






End Xml.




(** ** YAML *)

Section Yaml.

Lemma convertToYaml_array_cons (item : JsonValue) (items : list JsonValue) (indent : nat) :
  convertToYaml (JArr (item :: items)) indent
  = yaml_item_block indent item ++ convertToYaml (JArr items) indent.
Proof.
  cbn [convertToYaml concat_map]. f_equal.
  unfold yaml_item_block, yaml_spaces. destruct item; reflexivity.
Qed.

Lemma convertToYaml_object_cons (kv : jsstring * JsonValue) (entries : JsonObject)
    (indent : nat) :
  convertToYaml (JObj (kv :: entries)) indent
  = yaml_member_block indent kv ++ convertToYaml (JObj entries) indent.
Proof.
  cbn [convertToYaml concat_map]. f_equal.
  unfold yaml_member_block, yaml_spaces. destruct (snd kv); reflexivity.
Qed.

Lemma yaml_item_block_spec (indent : nat) (item : JsonValue) :
  yaml_item indent item (yaml_item_block indent item).
Proof.
  unfold yaml_item, yaml_item_block. split; intros ->; reflexivity.
Qed.

Lemma yaml_member_block_spec (indent : nat) (kv : jsstring * JsonValue) :
  yaml_member indent kv (yaml_member_block indent kv).
Proof.
  unfold yaml_member, yaml_member_block. split; intros ->; reflexivity.
Qed.

Lemma convertToYaml_array (items : list JsonValue) (indent : nat) :
  exists blocks,
    convertToYaml (JArr items) indent = concat blocks /\
    Forall2 (yaml_item indent) items blocks.
Proof.
  exists (map (yaml_item_block indent) items). split.
  - induction items as [| item items IH]; [reflexivity |].
    rewrite convertToYaml_array_cons, IH. reflexivity.
  - apply Forall2_map_r, yaml_item_block_spec.
Qed.

Lemma convertToYaml_object (entries : JsonObject) (indent : nat) :
  exists blocks,
    convertToYaml (JObj entries) indent = concat blocks /\
    Forall2 (yaml_member indent) entries blocks.
Proof.
  exists (map (yaml_member_block indent) entries). split.
  - induction entries as [| kv entries IH]; [reflexivity |].
    rewrite convertToYaml_object_cons, IH. reflexivity.
  - apply Forall2_map_r, yaml_member_block_spec.
Qed.

End Yaml.

(** ** formatJson, minifyJson and validateJson together *)

Section Formatter.

Variable host : jsstring -> jsstring.

Lemma stringified_Serialize (v : JsonValue) :
  forall gap indent,
    SerializeJSONProperty gap indent (stringified v) = SerializeJSONProperty gap indent v.
Proof.
  induction v as [| b | x | s | items IH | entries IH] using JsonValue_ind';
    intros gap indent; try reflexivity.
  - cbn [stringified]. destruct x; reflexivity.
  - cbn [stringified SerializeJSONProperty]. f_equal.
    rewrite map_map. apply map_ext_Forall.
    revert IH. apply Forall_impl. intros item Hitem. apply Hitem.
  - cbn [stringified SerializeJSONProperty]. f_equal.
    rewrite map_map. apply map_ext_Forall.
    revert IH. apply Forall_impl. intros kv Hkv. cbn [fst snd]. now rewrite Hkv.
Qed.

Lemma stringified_finite (v : JsonValue) : all_finite (stringified v) = true.
Proof.
  induction v as [| b | x | s | items IH | entries IH] using JsonValue_ind';
    try reflexivity.
  - cbn [stringified]. destruct x; reflexivity.
  - cbn [stringified]. apply all_finite_array. apply Forall_map. exact IH.
  - cbn [stringified]. apply all_finite_object. apply Forall_map. exact IH.
Qed.

Lemma stringified_wf (v : JsonValue) : value_wf v -> value_wf (stringified v).
Proof.
  induction v as [| b | x | s | items IH | entries IH] using JsonValue_ind';
    try (intros; exact I).
  - cbn [stringified]. destruct (Number_finite x); [auto | intros; exact I].
  - intros Hwf. apply value_wf_array in Hwf. cbn [stringified].
    apply value_wf_array, Forall_map.
    revert Hwf. apply Forall_modus_ponens. exact IH.
  - intros Hwf. apply value_wf_object in Hwf. destruct Hwf as [Hkeys Hvals].
    cbn [stringified]. apply value_wf_object. split.
    + unfold object_wf in *. rewrite map_map. cbn [fst]. exact Hkeys.
    + apply Forall_map. cbn [snd].
      revert Hvals. apply Forall_modus_ponens. exact IH.
Qed.

Lemma stringified_fixed (v : JsonValue) : all_finite v = true -> stringified v = v.
Proof.
  induction v as [| b | x | s | items IH | entries IH] using JsonValue_ind';
    try reflexivity.
  - cbn [all_finite stringified]. now intros ->.
  - intros Hfin. apply all_finite_array in Hfin. cbn [stringified]. f_equal.
    rewrite <- (map_id items) at 2. apply map_ext_Forall.
    revert Hfin. apply Forall_modus_ponens. exact IH.
  - intros Hfin. apply all_finite_object in Hfin. cbn [stringified]. f_equal.
    rewrite <- (map_id entries) at 2. apply map_ext_Forall.
    revert Hfin. apply Forall_modus_ponens.
    revert IH. apply Forall_impl. intros [k w] Hkv Hw. cbn [fst snd] in *. now rewrite Hkv.
Qed.

(** The text of a value parses to what [JSON.stringify] kept of it. *)
Lemma JSON_parse_Serialize_stringified (v : JsonValue) (gap : jsstring) :
  value_wf v -> ws gap ->
  JSON_parse (SerializeJSONProperty gap [] v) = Some (stringified v).
Proof.
  intros Hwf Hgap. rewrite <- stringified_Serialize.
  apply JSON_parse_Serialize; auto using stringified_wf, stringified_finite.
Qed.

Lemma Serialize_not_empty (gap indent : jsstring) (v : JsonValue) :
  value_wf v -> SerializeJSONProperty gap indent v <> [].
Proof.
  intros Hwf. destruct (Serialize_first gap indent v Hwf) as (c & tail & -> & _).
  discriminate.
Qed.

Lemma formatJson_parsed (input : jsstring) (v : JsonValue) (spaces : Z) :
  JSON_parse input = Some v ->
  formatJson host input spaces
  = {| formatted := JSON_stringify v spaces; format_error := None |}.
Proof.
  intros Hparse. unfold formatJson.
  now rewrite (JSON_parse_not_blank input v Hparse), Hparse.
Qed.

Lemma minifyJson_parsed (input : jsstring) (v : JsonValue) :
  JSON_parse input = Some v ->
  minifyJson host input
  = {| formatted := JSON_stringify_compact v; format_error := None |}.
Proof.
  intros Hparse. unfold minifyJson.
  now rewrite (JSON_parse_not_blank input v Hparse), Hparse.
Qed.

Lemma JSON_parse_stringify (v : JsonValue) (spaces : Z) :
  value_wf v -> JSON_parse (JSON_stringify v spaces) = Some (stringified v).
Proof.
  intros Hwf. apply JSON_parse_Serialize_stringified; [assumption | apply ws_repeat_space].
Qed.

Lemma JSON_parse_stringify_compact (v : JsonValue) :
  value_wf v -> JSON_parse (JSON_stringify_compact v) = Some (stringified v).
Proof.
  intros Hwf. apply JSON_parse_Serialize_stringified; [assumption | reflexivity].
Qed.

End Formatter.

(** X1: [validateJson] answers valid exactly for the texts [JSON.parse]
    accepts, whatever the engine's messages; a valid result has no
    error, line or column, an invalid one always has an error text. *)
Theorem validateJson_valid_iff_parses (host : jsstring -> jsstring) (input : jsstring) :
  (valid (validateJson host input) = true <-> exists v, JSON_parse input = Some v) /\
  (valid (validateJson host input) = true ->
   validateJson host input
   = {| valid := true; error := None; line := None; column := None |}) /\
  (valid (validateJson host input) = false ->
   exists message, error (validateJson host input) = Some message).
Proof.
  unfold validateJson.
  destruct (is_empty (trim input)) eqn:Hblank.
  - cbn [valid error]. repeat split; try discriminate.
    + intros [v Hv]. apply JSON_parse_not_blank in Hv. congruence.
    + intros _. eexists. reflexivity.
  - destruct (JSON_parse input) as [v |] eqn:Hparse; cbn [valid error].
    + repeat split; try discriminate; eauto.
    + repeat split; try discriminate.
      * intros [v Hv]. discriminate.
      * intros _. eexists. reflexivity.
Qed.

Lemma validateJson_valid_iff_parses_witness :
  validateJson (fun _ => lit "SyntaxError") (lit "[1]")
  = {| valid := true; error := None; line := None; column := None |}.
Proof.
  destruct (validateJson_valid_iff_parses (fun _ => lit "SyntaxError") (lit "[1]"))
    as (_ & Hvalid & _).
  apply Hvalid. vm_compute. reflexivity.
Defined.

(** X2: [formatJson] and [minifyJson] fail on exactly the inputs that
    [validateJson] calls invalid, and with the same message; a failure
    carries the empty text, a success a text that is not empty. *)
Theorem format_error_iff_invalid
    (host : jsstring -> jsstring) (input : jsstring) (spaces : Z) :
  format_error (formatJson host input spaces) = error (validateJson host input) /\
  format_error (minifyJson host input) = error (validateJson host input) /\
  (valid (validateJson host input) = false ->
   formatted (formatJson host input spaces) = [] /\
   formatted (minifyJson host input) = []) /\
  (valid (validateJson host input) = true ->
   formatted (formatJson host input spaces) <> [] /\
   formatted (minifyJson host input) <> []).
Proof.
  unfold formatJson, minifyJson, validateJson.
  destruct (is_empty (trim input)) eqn:Hblank.
  - cbn [valid error formatted format_error].
    split; [reflexivity |]. split; [reflexivity |].
    split; [intros _; split; reflexivity | discriminate].
  - destruct (JSON_parse input) as [v |] eqn:Hparse; cbn [valid error formatted format_error].
    + pose proof (JSON_parse_wf input v Hparse) as Hwf.
      split; [reflexivity |]. split; [reflexivity |].
      split; [discriminate |]. intros _.
      split; apply Serialize_not_empty, Hwf.
    + split; [reflexivity |]. split; [reflexivity |].
      split; [intros _; split; reflexivity | discriminate].
Qed.

Lemma format_error_iff_invalid_witness :
  formatted (formatJson (fun _ => lit "SyntaxError") (lit "[1,") 2) = [].
Proof.
  destruct (format_error_iff_invalid (fun _ => lit "SyntaxError") (lit "[1,") 2)
    as (_ & _ & Hinvalid & _).
  destruct Hinvalid as [Hformat _]; [vm_compute; reflexivity | exact Hformat].
Defined.

(** X3: The output of [formatJson] parses to the value of the input with
    every number that overflowed to an infinity replaced by [null], and
    so does the output of [minifyJson]. *)
Theorem format_minify_parse_back
    (host : jsstring -> jsstring) (input : jsstring) (v : JsonValue) (spaces : Z) :
  JSON_parse input = Some v ->
  JSON_parse (formatted (formatJson host input spaces)) = Some (stringified v) /\
  JSON_parse (formatted (minifyJson host input)) = Some (stringified v).
Proof.
  intros Hparse. pose proof (JSON_parse_wf input v Hparse) as Hwf.
  rewrite (formatJson_parsed host input v spaces Hparse),
    (minifyJson_parsed host input v Hparse). cbn [formatted].
  split; [apply JSON_parse_stringify | apply JSON_parse_stringify_compact]; assumption.
Qed.

Lemma format_minify_parse_back_witness :
  JSON_parse (formatted (formatJson (fun _ => lit "SyntaxError") (lit "[1e999, 2]") 2))
  = Some (JArr [JNull; JNum (num 2)]).
Proof.
  destruct (format_minify_parse_back (fun _ => lit "SyntaxError") (lit "[1e999, 2]")
              (JArr [JNum (NInfinity false); JNum (num 2)]) 2) as [Hformat _].
  - vm_compute. reflexivity.
  - exact Hformat.
Defined.

(** X4: Formatting is idempotent and so is minifying: on a valid input,
    running either again on its own output returns the same result. *)
Theorem format_minify_idempotent
    (host : jsstring -> jsstring) (input : jsstring) (v : JsonValue) (spaces : Z) :
  JSON_parse input = Some v ->
  formatJson host (formatted (formatJson host input spaces)) spaces
  = formatJson host input spaces /\
  minifyJson host (formatted (minifyJson host input)) = minifyJson host input.
Proof.
  intros Hparse. pose proof (JSON_parse_wf input v Hparse) as Hwf.
  rewrite (formatJson_parsed host input v spaces Hparse),
    (minifyJson_parsed host input v Hparse). cbn [formatted].
  rewrite (formatJson_parsed host _ _ spaces (JSON_parse_stringify v spaces Hwf)),
    (minifyJson_parsed host _ _ (JSON_parse_stringify_compact v Hwf)).
  unfold JSON_stringify, JSON_stringify_compact.
  now rewrite !stringified_Serialize.
Qed.

Lemma format_minify_idempotent_witness :
  formatJson (fun _ => lit "SyntaxError")
    (formatted (formatJson (fun _ => lit "SyntaxError") (lit "[1, [2]]") 4)) 4
  = formatJson (fun _ => lit "SyntaxError") (lit "[1, [2]]") 4.
Proof.
  destruct (format_minify_idempotent (fun _ => lit "SyntaxError") (lit "[1, [2]]")
              (JArr [JNum (num 1); JArr [JNum (num 2)]]) 4) as [Hformat _].
  - vm_compute. reflexivity.
  - exact Hformat.
Defined.

(** X5: The two commute with each other: minifying a formatted text gives
    what minifying the input gives, and formatting a minified text gives
    what formatting the input gives. *)
Theorem format_minify_compose
    (host : jsstring -> jsstring) (input : jsstring) (v : JsonValue) (spaces : Z) :
  JSON_parse input = Some v ->
  minifyJson host (formatted (formatJson host input spaces)) = minifyJson host input /\
  formatJson host (formatted (minifyJson host input)) spaces
  = formatJson host input spaces.
Proof.
  intros Hparse. pose proof (JSON_parse_wf input v Hparse) as Hwf.
  rewrite (formatJson_parsed host input v spaces Hparse),
    (minifyJson_parsed host input v Hparse). cbn [formatted].
  rewrite (minifyJson_parsed host _ _ (JSON_parse_stringify v spaces Hwf)),
    (formatJson_parsed host _ _ spaces (JSON_parse_stringify_compact v Hwf)).
  unfold JSON_stringify, JSON_stringify_compact.
  now rewrite !stringified_Serialize.
Qed.

Lemma format_minify_compose_witness :
  minifyJson (fun _ => lit "SyntaxError")
    (formatted (formatJson (fun _ => lit "SyntaxError") (lit "[1, [2]]") 4))
  = minifyJson (fun _ => lit "SyntaxError") (lit "[1, [2]]").
Proof.
  destruct (format_minify_compose (fun _ => lit "SyntaxError") (lit "[1, [2]]")
              (JArr [JNum (num 1); JArr [JNum (num 2)]]) 4) as [Hminify _].
  - vm_compute. reflexivity.
  - exact Hminify.
Defined.

(** ** The indentation of formatJson; the bounds of a reported position *)

Section Indentation.

Lemma JSON_stringify_no_gap (v : JsonValue) (spaces : Z) :
  (spaces <= 0)%Z -> JSON_stringify v spaces = JSON_stringify_compact v.
Proof.
  intros Hs. unfold JSON_stringify, JSON_stringify_compact.
  replace (Z.to_nat (Z.min 10 spaces)) with 0 by lia. reflexivity.
Qed.

Lemma JSON_stringify_ten (v : JsonValue) (spaces : Z) :
  (10 <= spaces)%Z -> JSON_stringify v spaces = JSON_stringify v 10.
Proof.
  intros Hs. unfold JSON_stringify.
  now replace (Z.min 10 spaces) with (Z.min 10 10) by lia.
Qed.

Lemma count_occ_firstn (c : char16) (n : nat) (s : jsstring) :
  count_occ N.eq_dec (firstn n s) c <= count_occ N.eq_dec s c.
Proof.
  revert n. induction s as [| x s IH]; intros [| n]; cbn [firstn count_occ]; try lia.
  specialize (IH n). destruct (N.eq_dec x c); lia.
Qed.

Lemma last_line_length (s : jsstring) :
  length (last (split Ch.lf s) []) <= length s.
Proof.
  destruct (last_sep_decompose Ch.lf s) as [Hnone | (b & t & -> & Ht)].
  - rewrite (split_no_sep Ch.lf s Hnone). apply le_n.
  - rewrite (split_last_line Ch.lf b t Ht), length_app. cbn [length]. lia.
Qed.

End Indentation.

(** X6: With an indentation of 0 or less [formatJson] returns what
    [minifyJson] returns, and an indentation above ten counts as ten. *)
Theorem formatJson_indentation
    (host : jsstring -> jsstring) (input : jsstring) (spaces : Z) :
  ((spaces <= 0)%Z -> formatJson host input spaces = minifyJson host input) /\
  ((10 <= spaces)%Z -> formatJson host input spaces = formatJson host input 10).
Proof.
  unfold formatJson, minifyJson. split; intros Hs;
    destruct (is_empty (trim input)); try reflexivity;
    destruct (JSON_parse input) as [v |]; try reflexivity.
  - now rewrite JSON_stringify_no_gap.
  - now rewrite JSON_stringify_ten.
Qed.

Lemma formatJson_indentation_witness :
  formatJson (fun _ => lit "SyntaxError") (lit "[1, 2]") 0
  = minifyJson (fun _ => lit "SyntaxError") (lit "[1, 2]").
Proof.
  destruct (formatJson_indentation (fun _ => lit "SyntaxError") (lit "[1, 2]") 0)
    as [Hcompact _].
  apply Hcompact. lia.
Defined.

(** X7: The position [validateJson] reports lies in the text, whatever
    offset the message of the engine names: the line is at least 1 and
    at most the number of lines of the input, the column at least 1 and
    at most one more than the length of the input. *)
Theorem validateJson_position_in_text
    (host : jsstring -> jsstring) (input : jsstring) (l c : nat) :
  line (validateJson host input) = Some l ->
  column (validateJson host input) = Some c ->
  1 <= l <= length (split Ch.lf input) /\ 1 <= c <= length input + 1.
Proof.
  unfold validateJson.
  destruct (is_empty (trim input)); [discriminate |].
  destruct (JSON_parse input); [discriminate |].
  cbn [line column]. intros [= <-] [= <-].
  set (position := match match_position (host input) with
                   | Some ds => parseInt ds
                   | None => 0
                   end).
  unfold substring0. rewrite !split_length.
  pose proof (count_occ_firstn Ch.lf position input).
  pose proof (last_line_length (firstn position input)).
  pose proof (length_firstn position input).
  lia.
Qed.

Lemma validateJson_position_in_text_witness :
  1 <= 2 <= length (split Ch.lf (lit "[1," ++ [Ch.lf] ++ lit "2, ]")) /\
  1 <= 5 <= length (lit "[1," ++ [Ch.lf] ++ lit "2, ]") + 1.
Proof.
  apply (validateJson_position_in_text
           (fun _ => lit "Unexpected token ] in JSON at position 8")
           (lit "[1," ++ [Ch.lf] ++ lit "2, ]") 2 5);
    vm_compute; reflexivity.
Defined.

(** ** The characters of a printed value *)

Section Characters.

Ltac split_chars :=
  repeat match goal with
         | |- Forall _ (_ ++ _) => apply Forall_app; split
         end.

Lemma shortest_from_digits_ok (fuel : nat) (k : Z) (neg : bool) (m : positive) (e : Z)
    (a b n0 : Z) :
  digits_ok (fst (shortest_from fuel k neg m e a b n0)).
Proof.
  assert (Hmk : forall s j, digits_ok (fst (mk_decimal s n0 j))).
  { intros s j. unfold mk_decimal. destruct (s =? 10 ^ j)%Z; cbn [fst].
    - constructor; [reflexivity | constructor].
    - apply digits_of_ok. }
  revert k. induction fuel as [| fuel IH]; intros k; cbn [shortest_from].
  - apply digits_of_ok.
  - unfold candidates.
    destruct ((_ <? _)%Z || _);
      repeat match goal with
             | |- context [Number_eqb ?x ?y] => destruct (Number_eqb x y)
             end; auto.
Qed.

Lemma show_digits_chars (ds : list N) :
  digits_ok ds -> Forall (fun c => number_char c = true) (show_digits ds).
Proof.
  intros Hok. unfold show_digits. apply Forall_map.
  revert Hok. apply Forall_impl. intros d Hd.
  unfold number_char. now rewrite is_digit_char.
Qed.

Lemma show_exponent_chars (e : Z) :
  Forall (fun c => number_char c = true) (show_exponent e).
Proof.
  unfold show_exponent. split_chars.
  - repeat constructor.
  - destruct (0 <=? e)%Z; repeat constructor.
  - apply show_digits_chars, digits_of_ok.
Qed.

Lemma format_decimal_chars (ds : list N) (n : Z) :
  digits_ok ds -> Forall (fun c => number_char c = true) (format_decimal (ds, n)).
Proof.
  intros Hok. unfold format_decimal.
  destruct (_ && _).
  { apply Forall_app. split; [now apply show_digits_chars |].
    rewrite zeros_show. apply show_digits_chars, digits_ok_zeros. }
  destruct (_ && _).
  { split_chars.
    - now apply show_digits_chars, digits_ok_firstn.
    - repeat constructor.
    - now apply show_digits_chars, digits_ok_skipn. }
  destruct (_ && _).
  { split_chars.
    - repeat constructor.
    - rewrite zeros_show. apply show_digits_chars, digits_ok_zeros.
    - now apply show_digits_chars. }
  destruct ds as [| d0 [| d1 ds]].
  - apply show_exponent_chars.
  - apply Forall_app. split; [now apply show_digits_chars | apply show_exponent_chars].
  - inversion Hok as [| ? ? Hd0 Hrest]; subst.
    split_chars.
    + apply show_digits_chars. constructor; [assumption | constructor].
    + repeat constructor.
    + now apply show_digits_chars.
    + apply show_exponent_chars.
Qed.

(** A number is written with digits, a sign, a point and an exponent
    mark, or as [Infinity]. *)
Lemma NumberToString_chars (x : Number) :
  Forall (fun c => number_char c = true) (NumberToString x).
Proof.
  destruct x as [| neg m e | [|]]; cbn [NumberToString].
  - repeat constructor.
  - apply Forall_app. split.
    + destruct neg; repeat constructor.
    + pose proof (shortest_from_digits_ok 17 1 neg m e
                    (scale 2 (Z.pos m) e) (scale 2 1 (- e))
                    (dec_exponent (scale 2 (Z.pos m) e) (scale 2 1 (- e)))) as Hok.
      fold (shortest_decimal neg m e) in Hok.
      destruct (shortest_decimal neg m e) as [ds n]. now apply format_decimal_chars.
  - repeat constructor.
  - repeat constructor.
Qed.

Lemma number_char_printable (c : char16) :
  number_char c = true -> (43 <= c <= 121)%N.
Proof.
  unfold number_char, is_digit. cbn [existsb lit map list_ascii_of_string].
  rewrite !orb_true_iff, andb_true_iff, !N.leb_le, !N.eqb_eq.
  cbn. lia.
Qed.

Lemma hex_char_printable (d : N) : (d < 16 -> 48 <= hex_char d <= 102)%N.
Proof. unfold hex_char. destruct (N.ltb_spec d 10); lia. Qed.

Variable P : char16 -> Prop.
Hypothesis printable : forall c, (33 <= c <= 126)%N -> P c.

Lemma unicode_escape_chars (c : char16) : Forall P (unicode_escape c).
Proof.
  unfold unicode_escape.
  repeat constructor; apply printable;
    try (unfold Ch.backslash; lia);
    match goal with
    | |- context [hex_char ?d] =>
        pose proof (hex_char_printable d (N.mod_upper_bound _ 16 ltac:(lia))); lia
    end.
Qed.

Lemma short_escape_printable (c e : char16) :
  short_escape c = Some e -> (33 <= e <= 126)%N.
Proof.
  unfold short_escape.
  repeat match goal with
         | |- context [N.eqb c ?k] => destruct (N.eqb c k)
         end; intros [= <-]; lia.
Qed.

Lemma quote_body_chars (s : jsstring) :
  Forall (fun c => (32 <= c)%N -> P c) s -> Forall P (quote_body s).
Proof.
  remember (length s) as n eqn:Hn. revert s Hn.
  induction n as [n IH] using lt_wf_ind. intros s Hn Hs.
  destruct s as [| c s]; [constructor |].
  inversion Hs as [| ? ? Hc Hrest]; subst. cbn [quote_body].
  assert (Htail : Forall P (quote_body s))
    by (apply (IH (length s)); [cbn [length]; lia | reflexivity | assumption]).
  destruct (short_escape c) as [e |] eqn:He.
  { constructor; [apply printable; unfold Ch.backslash; lia |].
    constructor; [apply printable, (short_escape_printable c e He) | assumption]. }
  destruct (N.ltb_spec c 32) as [Hlow | Hhigh].
  { apply Forall_app. split; [apply unicode_escape_chars | assumption]. }
  destruct (is_high_surrogate c).
  { destruct s as [| c2 s]; [apply unicode_escape_chars |].
    destruct (is_low_surrogate c2) eqn:Hc2.
    - inversion Hrest as [| ? ? Hc2' Hrest']; subst.
      constructor; [auto |]. constructor.
      + apply Hc2'. unfold is_low_surrogate in Hc2.
        apply andb_true_iff in Hc2. destruct Hc2 as [Hc2 _]. apply N.leb_le in Hc2. lia.
      + apply (IH (length s)); [cbn [length]; lia | reflexivity | assumption].
    - apply Forall_app. split; [apply unicode_escape_chars | assumption]. }
  destruct (is_low_surrogate c).
  { apply Forall_app. split; [apply unicode_escape_chars | assumption]. }
  constructor; auto.
Qed.

Lemma QuoteJSONString_chars (s : jsstring) :
  Forall (fun c => (32 <= c)%N -> P c) s -> Forall P (QuoteJSONString s).
Proof.
  intros Hs. unfold QuoteJSONString. split_chars.
  - repeat constructor. apply printable. unfold Ch.quote. lia.
  - now apply quote_body_chars.
  - repeat constructor. apply printable. unfold Ch.quote. lia.
Qed.

Lemma join_comma_chars (parts : list jsstring) :
  Forall (Forall P) parts -> Forall P (join [Ch.comma] parts).
Proof.
  induction 1 as [| p ps Hp Hps IH]; [constructor |].
  destruct ps as [| q ps]; [exact Hp |].
  change (join [Ch.comma] (p :: q :: ps)) with (p ++ [Ch.comma] ++ join [Ch.comma] (q :: ps)).
  split_chars; try assumption.
  repeat constructor. apply printable. unfold Ch.comma. lia.
Qed.

Lemma wrap_compact_chars (opening closing : char16) (stepback : jsstring)
    (partial : list jsstring) :
  (33 <= opening <= 126)%N -> (33 <= closing <= 126)%N ->
  Forall (Forall P) partial ->
  Forall P (wrap_partial opening closing [] stepback partial).
Proof.
  intros Ho Hc Hparts. unfold wrap_partial.
  destruct partial as [| p ps]; [repeat constructor; auto |].
  cbn [is_empty]. split_chars.
  - repeat constructor; auto.
  - now apply join_comma_chars.
  - repeat constructor; auto.
Qed.

Lemma number_chars_P (x : Number) : Forall P (NumberToString x).
Proof.
  generalize (NumberToString_chars x). apply Forall_impl. intros c Hc.
  apply printable. pose proof (number_char_printable c Hc). lia.
Qed.

(** The compact text of a value: every character is a printable ASCII
    character other than the space, or a character of one of its
    strings. *)
Lemma Serialize_compact_chars (v : JsonValue) :
  forall indent,
    Forall (Forall (fun c => (32 <= c)%N -> P c)) (texts v) ->
    Forall P (SerializeJSONProperty [] indent v).
Proof.
  induction v as [| b | x | s | items IH | entries IH] using JsonValue_ind';
    intros indent Htexts; cbn [SerializeJSONProperty].
  - repeat constructor; apply printable; cbn; lia.
  - destruct b; repeat constructor; apply printable; cbn; lia.
  - destruct (Number_finite x); [apply number_chars_P |].
    repeat constructor; apply printable; cbn; lia.
  - cbn [texts] in Htexts. inversion Htexts; subst. now apply QuoteJSONString_chars.
  - apply wrap_compact_chars; try (unfold Ch.lbracket, Ch.rbracket; lia).
    cbn [texts] in Htexts. apply Forall_map.
    induction IH as [| item items Hitem _ IHitems]; [constructor |].
    cbn [flat_map] in Htexts. apply Forall_app in Htexts. destruct Htexts as [H1 H2].
    constructor; [apply Hitem, H1 | apply IHitems, H2].
  - apply wrap_compact_chars; try (unfold Ch.lbrace, Ch.rbrace; lia).
    cbn [texts] in Htexts. apply Forall_map.
    induction IH as [| kv entries Hkv _ IHentries]; [constructor |].
    cbn [flat_map] in Htexts. inversion Htexts as [| ? ? Hkey Hrest]; subst.
    apply Forall_app in Hrest. destruct Hrest as [H1 H2].
    constructor; [| apply IHentries, H2].
    cbn [is_empty]. split_chars.
    + now apply QuoteJSONString_chars.
    + repeat constructor. apply printable. unfold Ch.colon. lia.
    + constructor.
    + apply Hkv, H1.
Qed.

End Characters.

(** X8: The text [minifyJson] returns holds no character below U+0020:
    no line feed, no carriage return, no tab.  A space in it comes from
    inside a string or a key of the value. *)
Theorem minifyJson_no_white_space (host : jsstring -> jsstring) (input : jsstring) :
  Forall (fun c => (32 <= c)%N) (formatted (minifyJson host input)) /\
  (forall v, JSON_parse input = Some v ->
     In Ch.space (formatted (minifyJson host input)) ->
     exists s, In s (texts v) /\ In Ch.space s).
Proof.
  unfold minifyJson.
  destruct (is_empty (trim input)) eqn:Hblank; cbn [formatted].
  { split; [constructor |]. intros v Hv.
    apply JSON_parse_not_blank in Hv. congruence. }
  destruct (JSON_parse input) as [v |]; cbn [formatted];
    [| split; [constructor | discriminate]]. unfold JSON_stringify_compact. split.
  - apply Serialize_compact_chars; [intros c Hc; lia |].
    apply Forall_forall. intros s _. apply Forall_forall. auto.
  - intros v' [= <-] Hin.
    pose proof (Serialize_compact_chars
                  (fun c => c = Ch.space -> exists s, In s (texts v) /\ In Ch.space s)) as Hchars.
    cbv beta in Hchars.
    assert (Hall : Forall (fun c => c = Ch.space -> exists s, In s (texts v) /\ In Ch.space s)
                     (SerializeJSONProperty [] [] v)).
    { apply Hchars.
      - intros c Hc ->. unfold Ch.space in Hc. lia.
      - apply Forall_forall. intros s Hs. apply Forall_forall.
        intros c Hc _ ->. now exists s. }
    rewrite Forall_forall in Hall. now apply (Hall Ch.space).
Qed.

Lemma minifyJson_no_white_space_witness :
  exists s, In s (texts (JArr [JStr (lit "a b")])) /\ In Ch.space s.
Proof.
  destruct (minifyJson_no_white_space (fun _ => lit "SyntaxError")
              (lit "[ " ++ [Ch.quote] ++ lit "a b" ++ [Ch.quote] ++ lit " ]"))
    as [_ Hspace].
  apply Hspace; vm_compute; [reflexivity | tauto].
Defined.

(** ** escapeJson and unescapeJson *)

Section Escapes.

Lemma flat_map_flat_map {A B C : Type} (f : A -> list B) (g : B -> list C) (l : list A) :
  flat_map g (flat_map f l) = flat_map (fun x => flat_map g (f x)) l.
Proof.
  induction l as [| x l IH]; [reflexivity |].
  cbn [flat_map]. now rewrite flat_map_app, IH.
Qed.

(** The five replacements of [escapeJson] amount to one pass that
    escapes each character on its own: what an earlier replacement
    wrote is not touched by a later one. *)
Lemma escapeJson_flat_map (str : jsstring) : escapeJson str = flat_map json_escape str.
Proof.
  unfold escapeJson, replace_all. rewrite !flat_map_flat_map.
  apply flat_map_ext. intros c. unfold json_escape.
  unfold Ch.backslash, Ch.quote, Ch.lf, Ch.cr, Ch.tab.
  destruct (N.eqb_spec c 92) as [-> | H92]; [reflexivity |].
  destruct (N.eqb_spec c 34) as [-> | H34]; [reflexivity |].
  destruct (N.eqb_spec c 10) as [-> | H10]; [reflexivity |].
  destruct (N.eqb_spec c 13) as [-> | H13]; [reflexivity |].
  destruct (N.eqb_spec c 9) as [-> | H9]; [reflexivity |].
  cbn [flat_map app].
  apply N.eqb_neq in H34, H10, H13, H9.
  repeat (progress (rewrite ?H34, ?H10, ?H13, ?H9; cbn [flat_map app])).
  reflexivity.
Qed.

Lemma json_escape_cases (c : char16) :
  (c = Ch.backslash /\ json_escape c = [Ch.backslash; Ch.backslash]) \/
  (c = Ch.quote /\ json_escape c = [Ch.backslash; Ch.quote]) \/
  (c = Ch.lf /\ json_escape c = [Ch.backslash; 110%N]) \/
  (c = Ch.cr /\ json_escape c = [Ch.backslash; 114%N]) \/
  (c = Ch.tab /\ json_escape c = [Ch.backslash; 116%N]) \/
  (c <> Ch.backslash /\ c <> Ch.quote /\ c <> Ch.lf /\ c <> Ch.cr /\ c <> Ch.tab /\
   json_escape c = [c]).
Proof.
  unfold json_escape.
  destruct (N.eqb_spec c Ch.backslash); [tauto |].
  destruct (N.eqb_spec c Ch.quote); [tauto |].
  destruct (N.eqb_spec c Ch.lf); [tauto |].
  destruct (N.eqb_spec c Ch.cr); [tauto |].
  destruct (N.eqb_spec c Ch.tab); [tauto |].
  repeat right. tauto.
Qed.

End Escapes.

Section Unescape.

Lemma replace_pair_skip (a b : char16) (r : jsstring) (x : char16) (rest : jsstring) :
  x <> a \/ (forall z tail, rest = z :: tail -> z <> b) ->
  replace_pair a b r (x :: rest) = x :: replace_pair a b r rest.
Proof.
  intros Hskip. destruct rest as [| z tail]; [reflexivity |].
  cbn [replace_pair].
  replace ((x =? a) && (z =? b))%N with false; [reflexivity |].
  symmetry. apply andb_false_iff.
  destruct Hskip as [Hx | Hz]; [left | right]; apply N.eqb_neq; eauto.
Qed.

Lemma replace_pair_hit (a b : char16) (r rest : jsstring) :
  replace_pair a b r (a :: b :: rest) = r ++ replace_pair a b r rest.
Proof. cbn [replace_pair]. now rewrite !N.eqb_refl. Qed.

Lemma no_backslash_before_weaken (bad bad' : char16 -> bool) (s : jsstring) :
  (forall c, bad c = true -> bad' c = true) ->
  no_backslash_before bad' s = true -> no_backslash_before bad s = true.
Proof.
  intros Hsub. induction s as [| x s IH]; [reflexivity |].
  cbn [no_backslash_before]. rewrite !andb_true_iff, !negb_true_iff, !andb_false_iff.
  intros [Hx Hs]. split; [| auto].
  destruct Hx as [Hx | Hx]; [now left | right].
  destruct s as [| y s]; [reflexivity |].
  destruct (bad y) eqn:Hy; [| reflexivity]. apply Hsub in Hy. congruence.
Qed.

Section Pass.

Variables (b : char16) (r : jsstring) (tok tok' : char16 -> jsstring).
Variable bad : char16 -> bool.

Hypothesis tokens : forall c,
  (tok c = [Ch.backslash; b] /\ tok' c = r) \/
  (exists y, tok c = [Ch.backslash; y] /\ y <> b /\ tok' c = tok c
             /\ (y = Ch.backslash -> c = Ch.backslash)) \/
  (tok c = [c] /\ c <> Ch.backslash /\ tok' c = [c]).
Hypothesis heads : forall c z rest,
  tok c = z :: rest -> z = b -> b <> Ch.backslash -> bad c = true.

(** One replacement of [unescapeJson] on a text made of tokens. *)
Lemma replace_pair_tokens (s : jsstring) :
  no_backslash_before bad s = true ->
  replace_pair Ch.backslash b r (flat_map tok s) = flat_map tok' s.
Proof.
  induction s as [| c s IH]; [reflexivity |].
  cbn [no_backslash_before]. rewrite andb_true_iff, negb_true_iff.
  intros [Hc Hs]. specialize (IH Hs). cbn [flat_map].
  destruct (tokens c) as [[Ht Ht'] | [(y & Ht & Hy & Ht' & Hbs) | (Ht & Hplain & Ht')]];
    rewrite Ht' , ?Ht; cbn [app].
  - now rewrite replace_pair_hit, IH.
  - rewrite replace_pair_skip, replace_pair_skip, IH; [reflexivity | |].
    + destruct (N.eq_dec y Ch.backslash) as [Hy' | Hy']; [right | now left].
      specialize (Hbs Hy'). subst c. rewrite N.eqb_refl in Hc. cbn [andb] in Hc.
      intros z tail Hrest ->.
      destruct s as [| c' s]; [discriminate |]. cbn [flat_map] in Hrest.
      destruct (tok c') as [| z' rest'] eqn:Hc'.
      { destruct (tokens c') as [[H _] | [(? & H & _) | (H & _)]]; congruence. }
      cbn [app] in Hrest. injection Hrest as -> _.
      rewrite (heads c' b rest' Hc' eq_refl) in Hc; [discriminate | congruence].
    + right. intros z tail [= <- _]. assumption.
  - now rewrite replace_pair_skip, IH by now left.
Qed.

End Pass.

Ltac escape_cases c :=
  destruct (json_escape_cases c)
    as [[-> Hesc] | [[-> Hesc] | [[-> Hesc] | [[-> Hesc] | [[-> Hesc] |
        (H1 & H2 & H3 & H4 & H5 & Hesc)]]]]];
  unfold json_escape_except; cbn [existsb];
  try (apply N.eqb_neq in H1, H2, H3, H4, H5; rewrite ?H1, ?H2, ?H3, ?H4, ?H5;
       apply N.eqb_neq in H1, H2, H3, H4, H5);
  cbn [orb]; rewrite ?Hesc.

Lemma unescape_line_feeds (s : jsstring) :
  no_backslash_before escape_letter s = true ->
  replace_pair Ch.backslash 110%N [Ch.lf] (flat_map json_escape s)
  = flat_map (json_escape_except [Ch.lf]) s.
Proof.
  intros Hs.
  apply (replace_pair_tokens 110%N [Ch.lf] json_escape (json_escape_except [Ch.lf])
           (fun c => (c =? 110)%N)).
  - intros c. escape_cases c.
    + right. left. exists Ch.backslash. repeat split; discriminate.
    + right. left. exists Ch.quote. repeat split; discriminate.
    + left. split; reflexivity.
    + right. left. exists 114%N. repeat split; discriminate.
    + right. left. exists 116%N. repeat split; discriminate.
    + right. right. tauto.
  - intros c z rest Htok -> _.
    destruct (json_escape_cases c)
      as [[-> Hesc] | [[-> Hesc] | [[-> Hesc] | [[-> Hesc] | [[-> Hesc] |
          (H1 & H2 & H3 & H4 & H5 & Hesc)]]]]];
      rewrite Hesc in Htok; try discriminate.
    injection Htok as -> _. reflexivity.
  - revert Hs. apply no_backslash_before_weaken.
    intros c Hc. unfold escape_letter. now rewrite Hc.
Qed.

Lemma unescape_carriage_returns (s : jsstring) :
  no_backslash_before escape_letter s = true ->
  replace_pair Ch.backslash 114%N [Ch.cr] (flat_map (json_escape_except [Ch.lf]) s)
  = flat_map (json_escape_except [Ch.lf; Ch.cr]) s.
Proof.
  intros Hs.
  apply (replace_pair_tokens 114%N [Ch.cr] (json_escape_except [Ch.lf])
           (json_escape_except [Ch.lf; Ch.cr]) (fun c => (c =? 114)%N)).
  - intros c. escape_cases c.
    + right. left. exists Ch.backslash. repeat split; discriminate.
    + right. left. exists Ch.quote. repeat split; discriminate.
    + right. right. repeat split; discriminate.
    + left. split; reflexivity.
    + right. left. exists 116%N. repeat split; discriminate.
    + right. right. tauto.
  - intros c z rest Htok -> _. revert Htok. escape_cases c; try discriminate.
    now intros [= ->].
  - revert Hs. apply no_backslash_before_weaken.
    intros c Hc. unfold escape_letter. rewrite Hc.
    now rewrite ?orb_true_r, ?orb_true_l.
Qed.

Lemma unescape_tabs (s : jsstring) :
  no_backslash_before escape_letter s = true ->
  replace_pair Ch.backslash 116%N [Ch.tab] (flat_map (json_escape_except [Ch.lf; Ch.cr]) s)
  = flat_map (json_escape_except [Ch.lf; Ch.cr; Ch.tab]) s.
Proof.
  intros Hs.
  apply (replace_pair_tokens 116%N [Ch.tab] (json_escape_except [Ch.lf; Ch.cr])
           (json_escape_except [Ch.lf; Ch.cr; Ch.tab]) (fun c => (c =? 116)%N)).
  - intros c. escape_cases c.
    + right. left. exists Ch.backslash. repeat split; discriminate.
    + right. left. exists Ch.quote. repeat split; discriminate.
    + right. right. repeat split; discriminate.
    + right. right. repeat split; discriminate.
    + left. split; reflexivity.
    + right. right. tauto.
  - intros c z rest Htok -> _. revert Htok. escape_cases c; try discriminate.
    now intros [= ->].
  - revert Hs. apply no_backslash_before_weaken.
    intros c Hc. unfold escape_letter. rewrite Hc.
    now rewrite ?orb_true_r, ?orb_true_l.
Qed.

Lemma no_backslash_before_nothing (s : jsstring) :
  no_backslash_before (fun _ => false) s = true.
Proof.
  induction s as [| x [| y s] IH]; [reflexivity | |];
    cbn [no_backslash_before] in *; rewrite ?andb_false_r; cbn [negb andb]; auto.
Qed.

Lemma unescape_quotes (s : jsstring) :
  replace_pair Ch.backslash Ch.quote [Ch.quote]
    (flat_map (json_escape_except [Ch.lf; Ch.cr; Ch.tab]) s)
  = flat_map (json_escape_except [Ch.lf; Ch.cr; Ch.tab; Ch.quote]) s.
Proof.
  apply (replace_pair_tokens Ch.quote [Ch.quote] (json_escape_except [Ch.lf; Ch.cr; Ch.tab])
           (json_escape_except [Ch.lf; Ch.cr; Ch.tab; Ch.quote]) (fun _ => false)).
  - intros c. escape_cases c.
    + right. left. exists Ch.backslash. repeat split; discriminate.
    + left. split; reflexivity.
    + right. right. repeat split; discriminate.
    + right. right. repeat split; discriminate.
    + right. right. repeat split; discriminate.
    + right. right. tauto.
  - intros c z rest Htok -> _. revert Htok. escape_cases c; try discriminate.
    intros [= ->]. congruence.
  - apply no_backslash_before_nothing.
Qed.

Lemma unescape_backslashes (s : jsstring) :
  replace_pair Ch.backslash Ch.backslash [Ch.backslash]
    (flat_map (json_escape_except [Ch.lf; Ch.cr; Ch.tab; Ch.quote]) s)
  = s.
Proof.
  rewrite (replace_pair_tokens Ch.backslash [Ch.backslash]
             (json_escape_except [Ch.lf; Ch.cr; Ch.tab; Ch.quote])
             (fun c => [c]) (fun _ => false)).
  - induction s as [| c s IH]; [reflexivity |]. cbn [flat_map app]. now rewrite IH.
  - intros c. escape_cases c.
    + left. split; reflexivity.
    + right. right. repeat split; discriminate.
    + right. right. repeat split; discriminate.
    + right. right. repeat split; discriminate.
    + right. right. repeat split; discriminate.
    + right. right. tauto.
  - intros c z rest _ _ Hb. congruence.
  - apply no_backslash_before_nothing.
Qed.

End Unescape.

(** X9: [escapeJson] escapes each character on its own: a backslash, a
    double quote, a line feed, a carriage return and a tab become two
    characters, the first a backslash, and every other character stays.
    The result holds no line feed, carriage return or tab. *)
Theorem escapeJson_per_character (str : jsstring) :
  escapeJson str = flat_map json_escape str /\
  ~ In Ch.lf (escapeJson str) /\ ~ In Ch.cr (escapeJson str) /\
  ~ In Ch.tab (escapeJson str).
Proof.
  split; [apply escapeJson_flat_map |].
  rewrite escapeJson_flat_map.
  assert (H : forall x, In x (flat_map json_escape str) ->
                        x <> Ch.lf /\ x <> Ch.cr /\ x <> Ch.tab).
  { intros x Hin. apply in_flat_map in Hin. destruct Hin as (c & _ & Hx).
    destruct (json_escape_cases c)
      as [[-> Hesc] | [[-> Hesc] | [[-> Hesc] | [[-> Hesc] | [[-> Hesc] |
          (H1 & H2 & H3 & H4 & H5 & Hesc)]]]]];
      rewrite Hesc in Hx; cbn [In] in Hx;
      repeat match goal with
             | H : _ \/ _ |- _ => destruct H as [<- | H]
             | H : False |- _ => contradiction
             | H : _ = x |- _ => subst x
             end; repeat split; try discriminate; assumption. }
  repeat split; intros Hin; apply H in Hin; tauto.
Qed.

(** X10: [unescapeJson] undoes [escapeJson] on every string in which no
    backslash is followed by one of the letters [n], [r] and [t].  It
    does not on the two characters backslash, [n]: they are escaped to
    backslash, backslash, [n], and unescaped to backslash, line feed. *)
Theorem unescapeJson_escapeJson (str : jsstring) :
  (no_backslash_before escape_letter str = true ->
   unescapeJson (escapeJson str) = str) /\
  unescapeJson (escapeJson (Ch.backslash :: lit "n")) = [Ch.backslash; Ch.lf].
Proof.
  split; [| reflexivity].
  intros Hs. unfold unescapeJson. rewrite escapeJson_flat_map.
  rewrite unescape_line_feeds, unescape_carriage_returns, unescape_tabs by assumption.
  now rewrite unescape_quotes, unescape_backslashes.
Qed.

Lemma unescapeJson_escapeJson_witness :
  unescapeJson (escapeJson ([Ch.quote] ++ lit "a\b" ++ [Ch.lf]))
  = [Ch.quote] ++ lit "a\b" ++ [Ch.lf].
Proof.
  destruct (unescapeJson_escapeJson ([Ch.quote] ++ lit "a\b" ++ [Ch.lf])) as [Hback _].
  apply Hback. reflexivity.
Defined.

Section EscapedLiteral.

Lemma json_text_char_spec (c : char16) :
  json_text_char c = true <-> (32 <= c)%N \/ c = Ch.tab \/ c = Ch.lf \/ c = Ch.cr.
Proof.
  unfold json_text_char. rewrite !orb_true_iff, N.leb_le, !N.eqb_eq. tauto.
Qed.

Lemma parse_escaped_body (s rest : jsstring) :
  parse_string_body (flat_map json_escape s ++ Ch.quote :: rest)
  = if forallb json_text_char s then Some (s, rest) else None.
Proof.
  induction s as [| c s IH].
  - cbn [flat_map app forallb parse_string_body]. now rewrite N.eqb_refl.
  - cbn [flat_map forallb]. rewrite <- app_assoc.
    destruct (json_escape_cases c)
      as [[-> Hesc] | [[-> Hesc] | [[-> Hesc] | [[-> Hesc] | [[-> Hesc] |
          (H1 & H2 & H3 & H4 & H5 & Hesc)]]]]];
      rewrite Hesc; cbn [app].
    1-5: match type of Hesc with
         | json_escape ?c = [_; ?e] => rewrite (parse_short_escape c e _ eq_refl), IH
         end;
      change (json_text_char _) with true; cbn [andb];
      destruct (forallb json_text_char s); reflexivity.
    destruct (N.leb_spec 32 c) as [Hprint | Hctl].
    + rewrite parse_verbatim, IH by assumption.
      replace (json_text_char c) with true
        by (symmetry; apply json_text_char_spec; now left).
      cbn [andb]. destruct (forallb json_text_char s); reflexivity.
    + replace (json_text_char c) with false.
      2:{ symmetry. apply not_true_is_false. rewrite json_text_char_spec.
          intros [H | [H | [H | H]]]; [lia | | |]; contradiction. }
      cbn [andb parse_string_body].
      apply N.eqb_neq in H1, H2. rewrite H1, H2.
      apply N.ltb_lt in Hctl. now rewrite Hctl.
Qed.

End EscapedLiteral.

(** X11: Between double quotes, [escapeJson(s)] is a JSON string literal for
    [s] exactly when [s] holds no control character other than tab,
    line feed and carriage return; [escapeJson] leaves the other control
    characters as they are, and [JSON.parse] rejects the text. *)
Theorem JSON_parse_escapeJson (str : jsstring) :
  JSON_parse (Ch.quote :: escapeJson str ++ [Ch.quote])
  = if forallb json_text_char str then Some (JStr str) else None.
Proof.
  unfold JSON_parse. rewrite escapeJson_flat_map.
  set (tail := flat_map json_escape str ++ [Ch.quote]).
  replace (2 * length (Ch.quote :: tail) + 2) with (S (2 * length tail + 3))
    by (cbn [length]; lia).
  change (Ch.quote :: tail) with ([] ++ Ch.quote :: tail).
  rewrite (parse_value_quote _ [] tail eq_refl). unfold tail.
  rewrite parse_escaped_body.
  destruct (forallb json_text_char str); reflexivity.
Qed.

(** ** getJsonStats *)

Section Stats.

Lemma count_occ_le_length (c : char16) (s : jsstring) :
  count_occ N.eq_dec s c <= length s.
Proof.
  induction s as [| x s IH]; [apply le_n |].
  cbn [count_occ length]. destruct (N.eq_dec x c); lia.
Qed.

Lemma Blob_size_bounds (n : nat) (s : jsstring) :
  length s <= n -> length s <= Blob_size s <= 3 * length s.
Proof.
  revert s. induction n as [| n IH]; intros s Hlen.
  - destruct s; [cbn; lia | cbn [length] in Hlen; lia].
  - destruct s as [| c s]; [cbn; lia |]. cbn [length] in Hlen.
    cbn [Blob_size length].
    pose proof (IH s ltac:(lia)) as Hs.
    destruct (c <? 128)%N; [lia |].
    destruct (c <? 2048)%N; [lia |].
    destruct (is_high_surrogate c); [| lia].
    destruct s as [| c2 s]; [cbn; lia |].
    destruct (is_low_surrogate c2); [| lia].
    cbn [length] in *. pose proof (IH s ltac:(lia)). lia.
Qed.

Lemma Blob_size_ascii (s : jsstring) :
  Forall (fun c => (c < 128)%N) s -> Blob_size s = length s.
Proof.
  induction 1 as [| c s Hc _ IH]; [reflexivity |].
  cbn [Blob_size length]. apply N.ltb_lt in Hc. now rewrite Hc, IH.
Qed.

End Stats.

(** X12: [getJsonStats] counts one line more than the text has line feeds, so
    at least one and at most one more than its characters; the size in
    bytes is at least the number of characters (UTF-16 code units) and
    at most three times as much, and equal to it for ASCII text; the
    text is reported valid exactly when [JSON.parse] accepts it. *)
Theorem getJsonStats_counts (host : jsstring -> jsstring) (input : jsstring) :
  let stats := getJsonStats host input in
  stats_characters stats = length input /\
  stats_lines stats = count_occ N.eq_dec input Ch.lf + 1 /\
  1 <= stats_lines stats <= stats_characters stats + 1 /\
  stats_characters stats <= stats_size stats <= 3 * stats_characters stats /\
  (Forall (fun c => (c < 128)%N) input -> stats_size stats = stats_characters stats) /\
  (stats_valid stats = true <-> exists v, JSON_parse input = Some v).
Proof.
  cbn zeta. unfold getJsonStats.
  cbn [stats_characters stats_lines stats_size stats_valid].
  rewrite split_length.
  pose proof (count_occ_le_length Ch.lf input).
  pose proof (Blob_size_bounds (length input) input (le_n _)).
  repeat split; try lia.
  - apply Blob_size_ascii.
  - unfold validateJson.
    destruct (is_empty (trim input)) eqn:Hblank; [discriminate |].
    destruct (JSON_parse input) as [v |]; [eauto | discriminate].
  - intros [v Hv]. unfold validateJson.
    rewrite (JSON_parse_not_blank input v Hv), Hv. reflexivity.
Qed.

Lemma getJsonStats_counts_witness :
  stats_size (getJsonStats (fun _ => lit "SyntaxError") (lit "[1]"))
  = stats_characters (getJsonStats (fun _ => lit "SyntaxError") (lit "[1]")).
Proof.
  destruct (getJsonStats_counts (fun _ => lit "SyntaxError") (lit "[1]"))
    as (_ & _ & _ & _ & Hascii & _).
  apply Hascii. repeat constructor.
Defined.

(** ** What the converters accept *)

(** X13: The converters fail in two ways only.  [jsonToXml] and [jsonToYaml]
    convert every value that is not falsy and throw "Invalid JSON input"
    for the others; [jsonToCsv] converts exactly the arrays and objects,
    and throws the shape error for the other values that are not falsy.
    A text that is not JSON is taken as [null]: the converters throw
    "Invalid JSON input" for it, never a syntax error. *)
Theorem converters_outcome (native : jsstring -> jsstring) (json : JsonValue) :
  let obj := resolve_input json in
  (falsy obj = true ->
   jsonToXml json = invalid_input /\ jsonToCsv native json = invalid_input /\
   jsonToYaml json = invalid_input) /\
  (falsy obj = false ->
   (exists text, jsonToXml json = Ok text) /\ (exists text, jsonToYaml json = Ok text)) /\
  (is_container obj = true -> exists text, jsonToCsv native json = Ok text) /\
  (falsy obj = false -> is_container obj = false ->
   jsonToCsv native json = Throw csv_shape_error) /\
  (forall text, JSON_parse text = None ->
   jsonToXml (JStr text) = invalid_input /\ jsonToCsv native (JStr text) = invalid_input /\
   jsonToYaml (JStr text) = invalid_input).
Proof.
  cbn zeta. unfold jsonToXml, jsonToCsv, jsonToYaml, invalid_input.
  split; [| split; [| split; [| split]]].
  - intros ->. repeat split.
  - intros ->. split; eexists; reflexivity.
  - destruct (resolve_input json) as [| b | x | s | [| item items] | entries];
      try discriminate; intros _; cbn [falsy]; eexists; reflexivity.
  - intros ->. destruct (resolve_input json); try discriminate; reflexivity.
  - intros text Hparse. cbn [resolve_input]. unfold parseJson. rewrite Hparse.
    repeat split.
Qed.

Lemma converters_outcome_witness :
  exists text, jsonToCsv v8_function_text (JStr (lit "[]")) = Ok text.
Proof.
  destruct (converters_outcome v8_function_text (JStr (lit "[]")))
    as (_ & _ & Hcsv & _).
  apply Hcsv. reflexivity.
Defined.

(** ** The CSV table *)

Section CsvTable.

Variable native : jsstring -> jsstring.

Lemma join_empty_fields (n : nat) :
  join [Ch.comma] (repeat [] n) = repeat Ch.comma (n - 1).
Proof.
  induction n as [| [| n] IH]; [reflexivity | reflexivity |].
  change (repeat [] (S (S n))) with (@nil char16 :: [] :: repeat [] n).
  change (join [Ch.comma] ([] :: [] :: repeat [] n))
    with ([] ++ [Ch.comma] ++ join [Ch.comma] (repeat [] (S n))).
  rewrite IH. cbn [app]. replace (S (S n) - 1) with (S (S n - 1)) by lia. reflexivity.
Qed.

Lemma join_empty_lines (n : nat) :
  join [Ch.lf] (repeat [] n) = repeat Ch.lf (n - 1).
Proof.
  induction n as [| [| n] IH]; [reflexivity | reflexivity |].
  change (repeat [] (S (S n))) with (@nil char16 :: [] :: repeat [] n).
  change (join [Ch.lf] ([] :: [] :: repeat [] n))
    with ([] ++ [Ch.lf] ++ join [Ch.lf] (repeat [] (S n))).
  rewrite IH. cbn [app]. replace (S (S n) - 1) with (S (S n - 1)) by lia. reflexivity.
Qed.

Lemma item_keys_no_object (items : list JsonValue) :
  Forall (fun item => is_plain_object item = false) items ->
  flat_map item_keys items = [].
Proof.
  induction 1 as [| item items Hitem _ IH]; [reflexivity |].
  cbn [flat_map]. rewrite IH. destruct item; try discriminate; reflexivity.
Qed.

Lemma csv_rows_no_keys (items : list JsonValue) :
  map (csv_row native []) items = repeat [] (length items).
Proof.
  induction items as [| item items IH]; [reflexivity |].
  cbn [map length repeat]. rewrite IH. now destruct item.
Qed.

Lemma fold_Set_add_fresh (l acc : list jsstring) :
  NoDup (acc ++ l) -> fold_left Set_add l acc = acc ++ l.
Proof.
  revert acc. induction l as [| k l IH]; intros acc Hnd.
  - now rewrite app_nil_r.
  - cbn [fold_left].
    destruct (Set_add_cases acc k) as [[Hin _] | [_ ->]].
    + apply NoDup_remove_2 in Hnd. exfalso. apply Hnd, in_or_app. now left.
    + rewrite IH; rewrite <- app_assoc; [reflexivity | exact Hnd].
Qed.

Lemma Set_from_distinct (l : list jsstring) : NoDup l -> Set_from l = l.
Proof. intros Hnd. apply (fold_Set_add_fresh l []). exact Hnd. Qed.

Lemma raw_row_length (keys : list jsstring) (item : JsonValue) :
  length (raw_row native keys item) = length keys.
Proof. destruct item; cbn [raw_row]; apply length_map. Qed.

End CsvTable.

(** X14: An array without any object among its elements has no column: its
    CSV text is an empty header and one empty row per element, that is
    as many line feeds as the array has elements. *)
Theorem jsonToCsv_array_without_objects
    (native : jsstring -> jsstring) (items : list JsonValue) :
  items <> [] ->
  Forall (fun item => is_plain_object item = false) items ->
  jsonToCsv native (JArr items) = Ok (repeat Ch.lf (length items)).
Proof.
  intros Hne Hitems. unfold jsonToCsv. cbn [resolve_input falsy].
  destruct items as [| item items]; [contradiction |].
  rewrite (item_keys_no_object _ Hitems).
  change (Set_from []) with (@nil jsstring). cbn [map].
  change (join [Ch.comma] []) with (@nil char16).
  rewrite csv_rows_no_keys.
  replace (csv_row native [] item) with (@nil char16) by now destruct item.
  change ([] :: [] :: repeat [] (length items))
    with (repeat (@nil char16) (S (S (length items)))).
  rewrite join_empty_lines. reflexivity.
Qed.

Lemma jsonToCsv_array_without_objects_witness :
  jsonToCsv v8_function_text (JArr [JNum (num 1); JArr []; JNull])
  = Ok [Ch.lf; Ch.lf; Ch.lf].
Proof.
  apply (jsonToCsv_array_without_objects v8_function_text
           [JNum (num 1); JArr []; JNull]).
  - discriminate.
  - repeat constructor.
Defined.

(** X15: An object alone converts to the same CSV text as the array that
    holds just that object. *)
Theorem jsonToCsv_object_as_single_row
    (native : jsstring -> jsstring) (entries : JsonObject) :
  NoDup (map fst entries) ->
  jsonToCsv native (JObj entries) = jsonToCsv native (JArr [JObj entries]).
Proof.
  intros Hnd. unfold jsonToCsv. cbn [resolve_input falsy flat_map item_keys].
  rewrite app_nil_r. unfold Object_keys.
  rewrite (Set_from_distinct _ Hnd). cbn [map csv_row].
  now rewrite join_two.
Qed.

Lemma jsonToCsv_object_as_single_row_witness :
  jsonToCsv v8_function_text (JObj [(lit "a", JNum (num 1)); (lit "b", JNull)])
  = jsonToCsv v8_function_text (JArr [JObj [(lit "a", JNum (num 1)); (lit "b", JNull)]]).
Proof.
  apply (jsonToCsv_object_as_single_row v8_function_text
           [(lit "a", JNum (num 1)); (lit "b", JNull)]).
  cbn [map fst]. apply NoDup_cons.
  - intros [H | []]. discriminate.
  - apply NoDup_cons; [intros [] | apply NoDup_nil].
Defined.

(** X16: The CSV text is a rectangular table: the header and every row
    have the same number of fields, one per column; an array gives one
    row per element and an object one row. *)
Theorem jsonToCsv_table_rectangular
    (native : jsstring -> jsstring) (json : JsonValue) (text : jsstring) :
  jsonToCsv native json = Ok text ->
  exists table,
    text = render_table (map (map escapeCsv) table) /\
    (forall header rows, table = header :: rows ->
       Forall (fun row => length row = length header) rows) /\
    (forall items, resolve_input json = JArr items -> items <> [] ->
       length table = S (length items)) /\
    (forall entries, resolve_input json = JObj entries -> length table = 2).
Proof.
  intros Hok. exists (csv_raw_table native (resolve_input json)).
  split; [now apply jsonToCsv_renders_raw_table |].
  destruct (resolve_input json) as [| b | x | s | [| item items] | entries];
    unfold csv_raw_table; repeat split; try discriminate; try congruence.
  - intros header rows [= <- <-].
    apply Forall_forall. intros row [<- | Hin]; [apply raw_row_length |].
    apply in_map_iff in Hin. destruct Hin as (it & <- & _). apply raw_row_length.
  - intros its [= <-] _. cbn [length]. now rewrite length_map.
  - intros header rows [= <- <-]. constructor; [apply length_map | constructor].
Qed.

Lemma jsonToCsv_table_rectangular_witness :
  exists table,
    lit "a,b" ++ [Ch.lf] ++ lit "1,2" ++ [Ch.lf] ++ lit "3,"
    = render_table (map (map escapeCsv) table) /\
    length table = 3.
Proof.
  destruct (jsonToCsv_table_rectangular v8_function_text
              (JArr [JObj [(lit "a", JNum (num 1)); (lit "b", JNum (num 2))];
                     JObj [(lit "a", JNum (num 3))]])
              (lit "a,b" ++ [Ch.lf] ++ lit "1,2" ++ [Ch.lf] ++ lit "3,"))
    as (table & Htext & _ & Hlen & _).
  - vm_compute. reflexivity.
  - exists table. split; [exact Htext |].
    apply (Hlen _ eq_refl). discriminate.
Defined.

(** ** The escaping functions lose nothing *)

Section Injective.

Lemma flat_map_prefix_free (tok : char16 -> jsstring) :
  (forall c, tok c <> []) ->
  (forall c1 c2 r1 r2, tok c1 ++ r1 = tok c2 ++ r2 -> c1 = c2) ->
  forall s1 s2, flat_map tok s1 = flat_map tok s2 -> s1 = s2.
Proof.
  intros Hne Hfree. induction s1 as [| c1 s1 IH]; intros [| c2 s2] Heq.
  - reflexivity.
  - cbn [flat_map] in Heq. symmetry in Heq. apply app_eq_nil in Heq.
    destruct Heq as [Heq _]. now apply Hne in Heq.
  - cbn [flat_map] in Heq. apply app_eq_nil in Heq.
    destruct Heq as [Heq _]. now apply Hne in Heq.
  - cbn [flat_map] in Heq. pose proof (Hfree _ _ _ _ Heq) as ->.
    apply app_inv_head in Heq. f_equal. now apply IH.
Qed.

Lemma xml_entity_cases (c : char16) :
  (c = Ch.amp /\ xml_entity c = lit "&amp;") \/
  (c = Ch.lt /\ xml_entity c = lit "&lt;") \/
  (c = Ch.gt /\ xml_entity c = lit "&gt;") \/
  (c = Ch.quote /\ xml_entity c = lit "&quot;") \/
  (c = Ch.apos /\ xml_entity c = lit "&apos;") \/
  (c <> Ch.amp /\ c <> Ch.lt /\ c <> Ch.gt /\ c <> Ch.quote /\ c <> Ch.apos /\
   xml_entity c = [c]).
Proof.
  unfold xml_entity.
  destruct (N.eqb_spec c Ch.amp); [tauto |].
  destruct (N.eqb_spec c Ch.lt); [tauto |].
  destruct (N.eqb_spec c Ch.gt); [tauto |].
  destruct (N.eqb_spec c Ch.quote); [tauto |].
  destruct (N.eqb_spec c Ch.apos); [tauto |].
  repeat right. tauto.
Qed.

(** The five replacements of [escapeXml] amount to one pass: the
    ampersand is replaced first, so the ampersand of an entity written
    later is not escaped again. *)
Lemma escapeXml_flat_map (str : jsstring) : escapeXml str = flat_map xml_entity str.
Proof.
  unfold escapeXml, replace_all. rewrite !flat_map_flat_map.
  apply flat_map_ext. intros c. unfold xml_entity.
  unfold Ch.amp, Ch.lt, Ch.gt, Ch.quote, Ch.apos.
  destruct (N.eqb_spec c 38) as [-> | H38]; [reflexivity |].
  destruct (N.eqb_spec c 60) as [-> | H60]; [reflexivity |].
  destruct (N.eqb_spec c 62) as [-> | H62]; [reflexivity |].
  destruct (N.eqb_spec c 34) as [-> | H34]; [reflexivity |].
  destruct (N.eqb_spec c 39) as [-> | H39]; [reflexivity |].
  cbn [flat_map app].
  apply N.eqb_neq in H60, H62, H34, H39.
  repeat (progress (rewrite ?H60, ?H62, ?H34, ?H39; cbn [flat_map app])).
  reflexivity.
Qed.

Ltac token_cases H :=
  cbn in H; injection H; intros; subst; try congruence; try discriminate.

Lemma xml_entity_prefix_free (c1 c2 : char16) (r1 r2 : jsstring) :
  xml_entity c1 ++ r1 = xml_entity c2 ++ r2 -> c1 = c2.
Proof.
  destruct (xml_entity_cases c1)
    as [[-> E1] | [[-> E1] | [[-> E1] | [[-> E1] | [[-> E1] | (A1 & B1 & C1 & D1 & F1 & E1)]]]]];
  destruct (xml_entity_cases c2)
    as [[-> E2] | [[-> E2] | [[-> E2] | [[-> E2] | [[-> E2] | (A2 & B2 & C2 & D2 & F2 & E2)]]]]];
  rewrite ?E1, ?E2; intros H; try reflexivity; token_cases H.
Qed.

Lemma json_escape_prefix_free (c1 c2 : char16) (r1 r2 : jsstring) :
  json_escape c1 ++ r1 = json_escape c2 ++ r2 -> c1 = c2.
Proof.
  destruct (json_escape_cases c1)
    as [[-> E1] | [[-> E1] | [[-> E1] | [[-> E1] | [[-> E1] | (A1 & B1 & C1 & D1 & F1 & E1)]]]]];
  destruct (json_escape_cases c2)
    as [[-> E2] | [[-> E2] | [[-> E2] | [[-> E2] | [[-> E2] | (A2 & B2 & C2 & D2 & F2 & E2)]]]]];
  rewrite ?E1, ?E2; intros H; try reflexivity; token_cases H.
Qed.

Lemma double_quotes_prefix_free (c1 c2 : char16) (r1 r2 : jsstring) :
  (if (c1 =? Ch.quote)%N then [Ch.quote; Ch.quote] else [c1]) ++ r1
  = (if (c2 =? Ch.quote)%N then [Ch.quote; Ch.quote] else [c2]) ++ r2 ->
  c1 = c2.
Proof.
  destruct (N.eqb_spec c1 Ch.quote) as [-> | H1], (N.eqb_spec c2 Ch.quote) as [-> | H2];
    intros H; try reflexivity; token_cases H.
Qed.

Lemma replace_quotes_injective (s1 s2 : jsstring) :
  replace_all Ch.quote [Ch.quote; Ch.quote] s1
  = replace_all Ch.quote [Ch.quote; Ch.quote] s2 -> s1 = s2.
Proof.
  unfold replace_all. apply flat_map_prefix_free.
  - intros c. destruct (c =? Ch.quote)%N; discriminate.
  - apply double_quotes_prefix_free.
Qed.

Lemma needs_quoting_dec (str : jsstring) : needs_quoting str \/ ~ needs_quoting str.
Proof.
  unfold needs_quoting.
  destruct (in_dec N.eq_dec Ch.comma str); [tauto |].
  destruct (in_dec N.eq_dec Ch.quote str); [tauto |].
  destruct (in_dec N.eq_dec Ch.lf str); tauto.
Qed.

Lemma escapeCsv_injective (s1 s2 : jsstring) : escapeCsv s1 = escapeCsv s2 -> s1 = s2.
Proof.
  destruct (needs_quoting_dec s1) as [Q1 | Q1], (needs_quoting_dec s2) as [Q2 | Q2];
    rewrite ?(escapeCsv_quoted _ Q1), ?(escapeCsv_quoted _ Q2),
      ?(escapeCsv_verbatim _ Q1), ?(escapeCsv_verbatim _ Q2).
  - intros H. injection H as H. apply app_inv_tail in H.
    now apply replace_quotes_injective.
  - intros H. exfalso. apply Q2. right. left. rewrite <- H. now left.
  - intros H. exfalso. apply Q1. right. left. rewrite H. now left.
  - auto.
Qed.

End Injective.

(** X17: [escapeXml] writes an entity for each of the five characters
    [&], [<], [>], the double quote and the apostrophe, and leaves every
    other character: an entity is never escaped a second time, and none
    of [<], [>], the double quote and the apostrophe is left in the
    result. *)
Theorem escapeXml_entities (str : jsstring) :
  escapeXml str = flat_map xml_entity str /\
  ~ In Ch.lt (escapeXml str) /\ ~ In Ch.gt (escapeXml str) /\
  ~ In Ch.quote (escapeXml str) /\ ~ In Ch.apos (escapeXml str) /\
  escapeXml (lit "a<b & c") = lit "a&lt;b &amp; c".
Proof.
  split; [apply escapeXml_flat_map |].
  rewrite escapeXml_flat_map.
  assert (H : forall x, In x (flat_map xml_entity str) ->
                        x <> Ch.lt /\ x <> Ch.gt /\ x <> Ch.quote /\ x <> Ch.apos).
  { intros x Hin. apply in_flat_map in Hin. destruct Hin as (c & _ & Hx).
    destruct (xml_entity_cases c)
      as [[-> E] | [[-> E] | [[-> E] | [[-> E] | [[-> E] | (A & B & C & D & F & E)]]]]];
      rewrite E in Hx; cbn in Hx;
      repeat match goal with
             | H : _ \/ _ |- _ => destruct H as [<- | H]
             | H : False |- _ => contradiction
             end; repeat split; try discriminate; assumption. }
  repeat split; try (intros Hin; apply H in Hin; tauto).
Qed.

(** X18: None of the escaping functions sends two different texts to the
    same text: [escapeXml], [escapeCsv] and [escapeJson] are
    injective. *)
Theorem escapes_injective (s1 s2 : jsstring) :
  (escapeXml s1 = escapeXml s2 -> s1 = s2) /\
  (escapeCsv s1 = escapeCsv s2 -> s1 = s2) /\
  (escapeJson s1 = escapeJson s2 -> s1 = s2).
Proof.
  split; [| split].
  - rewrite !escapeXml_flat_map. apply flat_map_prefix_free.
    + intros c. destruct (xml_entity_cases c)
        as [[_ E] | [[_ E] | [[_ E] | [[_ E] | [[_ E] | (_ & _ & _ & _ & _ & E)]]]]];
        rewrite E; discriminate.
    + apply xml_entity_prefix_free.
  - apply escapeCsv_injective.
  - rewrite !escapeJson_flat_map. apply flat_map_prefix_free.
    + intros c. destruct (json_escape_cases c)
        as [[_ E] | [[_ E] | [[_ E] | [[_ E] | [[_ E] | (_ & _ & _ & _ & _ & E)]]]]];
        rewrite E; discriminate.
    + apply json_escape_prefix_free.
Qed.

Lemma escapes_injective_witness : lit "a,b" = lit "a,b".
Proof.
  destruct (escapes_injective (lit "a,b") (lit "a,b")) as (_ & Hcsv & _).
  apply Hcsv. reflexivity.
Defined.

(** ** YAML: the other layouts, and what the text does not tell apart *)

Section YamlScalars.

Lemma number_char_not_special (c : char16) :
  number_char c = true -> c <> Ch.colon /\ c <> Ch.hash /\ c <> Ch.lf.
Proof.
  unfold number_char, is_digit. cbn [existsb lit map list_ascii_of_string].
  rewrite !orb_true_iff, andb_true_iff, !N.leb_le, !N.eqb_eq.
  unfold Ch.colon, Ch.hash, Ch.lf. cbn. lia.
Qed.

Lemma formatYamlValue_plain (s : jsstring) :
  ~ In Ch.colon s -> ~ In Ch.hash s -> ~ In Ch.lf s -> formatYamlValue (JStr s) = s.
Proof.
  intros H1 H2 H3. cbn [formatYamlValue].
  apply includes_char_false in H1, H2, H3. now rewrite H1, H2, H3.
Qed.

(** The text of [null], of a boolean or of a number needs no quotes. *)
Lemma formatYamlValue_scalar_text (v : JsonValue) :
  is_container v = false -> (forall s, v <> JStr s) ->
  formatYamlValue (JStr (formatYamlValue v)) = formatYamlValue v.
Proof.
  intros Hscalar Hstr.
  destruct v as [| [|] | x | s | items | entries]; try discriminate;
    try reflexivity.
  - apply formatYamlValue_plain;
      intros Hin; cbn [formatYamlValue] in Hin;
      pose proof (NumberToString_chars x) as Hchars;
      rewrite Forall_forall in Hchars; apply Hchars in Hin;
      apply number_char_not_special in Hin; tauto.
  - now destruct (Hstr s).
Qed.

End YamlScalars.

(** X20: What C8 leaves out of [jsonToYaml]: an array element that is an
    array or an object is written as a dash alone on its line, followed
    by its own block one level deeper; a value that is not an array or
    an object is written on one line; an empty array and an empty object
    give no text at all. *)
Theorem jsonToYaml_other_layouts :
  (forall (items : list JsonValue) (indent : nat),
     exists blocks,
       convertToYaml (JArr items) indent = concat blocks /\
       Forall2 (fun item block =>
         is_container item = true ->
         block = repeat_str (lit "  ") indent ++ [Ch.minus; Ch.lf]
                 ++ convertToYaml item (indent + 1)) items blocks) /\
  (forall v : JsonValue,
     falsy v = false -> is_container v = false -> (forall s, v <> JStr s) ->
     jsonToYaml v = Ok (formatYamlValue v ++ [Ch.lf])) /\
  (forall indent : nat,
     convertToYaml (JArr []) indent = [] /\ convertToYaml (JObj []) indent = []) /\
  jsonToYaml (JArr [JArr [JNum (num 1)]; JObj [(lit "a", JNull)]])
  = Ok (lit "-" ++ [Ch.lf] ++ lit "  - 1" ++ [Ch.lf]
        ++ lit "-" ++ [Ch.lf] ++ lit "  a: null" ++ [Ch.lf]).
Proof.
  split; [| split; [| split]].
  - intros items indent.
    destruct (convertToYaml_array items indent) as (blocks & Heq & Hall).
    exists blocks. split; [assumption |].
    revert Hall. apply Forall2_impl. intros item block [_ Hnested]. exact Hnested.
  - intros v Hfalsy Hscalar Hstr. unfold jsonToYaml.
    destruct v as [| b | x | s | items | entries]; try discriminate.
    + cbn [resolve_input]. rewrite Hfalsy. reflexivity.
    + cbn [resolve_input]. rewrite Hfalsy. reflexivity.
    + now destruct (Hstr s).
  - intros indent. split; reflexivity.
  - vm_compute. reflexivity.
Qed.

Lemma jsonToYaml_other_layouts_witness :
  jsonToYaml (JNum (num 5)) = Ok (lit "5" ++ [Ch.lf]).
Proof.
  destruct jsonToYaml_other_layouts as (_ & Hscalar & _).
  apply (Hscalar (JNum (num 5))); [reflexivity | reflexivity | discriminate].
Defined.

(** X21: The YAML text does not tell a string from the value it spells: a
    string that reads [null], [true], [false] or as a number is written
    without quotes, exactly like that value, as a member of an object
    and as an element of an array.  Nor does it tell an empty array
    from an empty object. *)
Theorem jsonToYaml_ambiguous (v : JsonValue) (key : jsstring) (indent : nat) :
  (is_container v = false -> (forall s, v <> JStr s) ->
   convertToYaml (JObj [(key, JStr (formatYamlValue v))]) indent
   = convertToYaml (JObj [(key, v)]) indent /\
   convertToYaml (JArr [JStr (formatYamlValue v)]) indent
   = convertToYaml (JArr [v]) indent) /\
  convertToYaml (JObj [(key, JArr [])]) indent
  = convertToYaml (JObj [(key, JObj [])]) indent.
Proof.
  split; [| reflexivity].
  intros Hscalar Hstr.
  pose proof (formatYamlValue_scalar_text v Hscalar Hstr) as Htext.
  cbn [convertToYaml concat_map fst snd]. rewrite Htext.
  destruct v as [| b | x | s | items | entries]; try discriminate; split; reflexivity.
Qed.

Lemma jsonToYaml_ambiguous_witness :
  convertToYaml (JObj [(lit "a", JStr (lit "true"))]) 0
  = convertToYaml (JObj [(lit "a", JBool true)]) 0.
Proof.
  destruct (jsonToYaml_ambiguous (JBool true) (lit "a") 0) as [Hsame _].
  destruct Hsame as [Hmember _]; [reflexivity | discriminate |].
  exact Hmember.
Defined.

(** ** XML: the elements of an array *)

Section XmlItems.

Lemma concat_mapi_blocks {A : Type} (f : nat -> A -> jsstring) (l : list A) :
  forall k,
    concat_mapi f k l
    = concat (map (fun p => f (fst p) (snd p)) (combine (seq k (length l)) l)).
Proof.
  induction l as [| x l IH]; intros k; [reflexivity |].
  cbn [concat_mapi length seq combine map concat fst snd]. now rewrite IH.
Qed.

Lemma nth_error_combine_seq {A : Type} (l : list A) :
  forall k i x,
    nth_error l i = Some x ->
    nth_error (combine (seq k (length l)) l) i = Some (k + i, x).
Proof.
  induction l as [| y l IH]; intros k [| i] x; try discriminate.
  - cbn. intros [= ->]. now rewrite Nat.add_0_r.
  - cbn [nth_error length seq combine]. intros Hx.
    rewrite (IH (S k) i x Hx). f_equal. f_equal. lia.
Qed.

Lemma indent_lines_one_line (pad text : jsstring) :
  ~ In Ch.lf text -> indent_lines pad text = pad ++ text.
Proof.
  intros Hline. unfold indent_lines. now rewrite (split_no_sep Ch.lf text Hline).
Qed.

End XmlItems.

(** X19: An array converts to one [item] element per element of the array,
    in order, each numbered by its index from 0 and holding the
    conversion of the element indented by four spaces.  For an element
    that is not an array or an object and whose text is one line, that
    is the escaped text on a line of its own. *)
Theorem jsonToXml_array_items (items : list JsonValue) :
  exists blocks,
    convertToXml (JArr items) = concat blocks /\
    length blocks = length items /\
    forall (i : nat) (item : JsonValue),
      nth_error items i = Some item ->
      nth_error blocks i
      = Some (lit "  <item index=" ++ [Ch.quote] ++ show_nat i ++ [Ch.quote; Ch.gt; Ch.lf]
              ++ indent_lines (lit "    ") (convertToXml item)
              ++ [Ch.lf] ++ lit "  </item>" ++ [Ch.lf]) /\
      (is_container item = false -> ~ In Ch.lf (ToString item) ->
       indent_lines (lit "    ") (convertToXml item)
       = lit "    " ++ escapeXml (ToString item)).
Proof.
  eexists. split; [| split].
  - cbn [convertToXml]. apply concat_mapi_blocks.
  - rewrite length_map, length_combine, length_seq. apply Nat.min_id.
  - intros i item Hitem. split.
    + rewrite nth_error_map, (nth_error_combine_seq items 0 i item Hitem).
      cbn [option_map fst snd Nat.add]. unfold item_tag.
      now rewrite <- !app_assoc.
    + intros Hscalar Hline.
      assert (Hxml : convertToXml item = escapeXml (ToString item))
        by (destruct item; try discriminate; reflexivity).
      rewrite Hxml. apply indent_lines_one_line.
      rewrite escapeXml_flat_map. intros Hin. apply in_flat_map in Hin.
      destruct Hin as (c & Hc & Hlf).
      destruct (xml_entity_cases c)
        as [[-> E] | [[-> E] | [[-> E] | [[-> E] | [[-> E] | (_ & _ & _ & _ & _ & E)]]]]];
        rewrite E in Hlf; cbn in Hlf;
        repeat match goal with
               | H : _ \/ _ |- _ => destruct H as [H | H]
               | H : False |- _ => contradiction
               end; try discriminate.
      subst c. contradiction.
Qed.

Lemma jsonToXml_array_items_witness :
  indent_lines (lit "    ") (convertToXml (JStr (lit "a<b")))
  = lit "    " ++ escapeXml (lit "a<b").
Proof.
  destruct (jsonToXml_array_items [JStr (lit "a<b")]) as (blocks & _ & _ & Hitems).
  destruct (Hitems 0 (JStr (lit "a<b")) eq_refl) as [_ Hline].
  apply Hline; [reflexivity |].
  cbn. intros [H | [H | [H | []]]]; discriminate.
Defined.

(** ** C8: the layouts of jsonToYaml *)

Section YamlLines.

Lemma repeat_str_chars (P : char16 -> Prop) (s : jsstring) (n : nat) :
  Forall P s -> Forall P (repeat_str s n).
Proof.
  intros Hs. induction n as [| n IH]; [constructor |].
  cbn [repeat_str]. apply Forall_app. now split.
Qed.

Lemma yaml_indentation_no_line_feed (indent : nat) :
  ~ In Ch.lf (repeat_str (lit "  ") indent).
Proof.
  pose proof (repeat_str_chars (fun c => c <> Ch.lf) (lit "  ") indent) as Hspaces.
  assert (Hblank : Forall (fun c => c <> Ch.lf) (lit "  "))
    by (repeat constructor; discriminate).
  specialize (Hspaces Hblank). rewrite Forall_forall in Hspaces.
  intros Hin. now apply (Hspaces _ Hin).
Qed.

Lemma replace_all_keeps_out (c x : char16) (by_ s : jsstring) :
  ~ In x by_ -> ~ In x s -> ~ In x (replace_all c by_ s).
Proof.
  intros Hby Hs Hin. unfold replace_all in Hin. apply in_flat_map in Hin.
  destruct Hin as (y & Hy & Hin). destruct (y =? c)%N; [auto |].
  destruct Hin as [<- | []]. auto.
Qed.

(** The text of a scalar is one line, unless it is a string that holds
    a line feed. *)
Lemma formatYamlValue_one_line (v : JsonValue) :
  is_container v = false -> (forall s, v = JStr s -> ~ In Ch.lf s) ->
  ~ In Ch.lf (formatYamlValue v).
Proof.
  intros Hscalar Hstr.
  destruct v as [| [|] | x | s | items | entries]; try discriminate.
  - cbn. intros H. repeat destruct H as [H | H]; try discriminate; exact H.
  - cbn. intros H. repeat destruct H as [H | H]; try discriminate; exact H.
  - cbn. intros H. repeat destruct H as [H | H]; try discriminate; exact H.
  - cbn [formatYamlValue]. intros Hin.
    pose proof (NumberToString_chars x) as Hchars.
    rewrite Forall_forall in Hchars. apply Hchars in Hin.
    apply number_char_not_special in Hin. tauto.
  - specialize (Hstr s eq_refl). cbn [formatYamlValue].
    destruct (includes [Ch.colon] s || includes [Ch.hash] s || includes [Ch.lf] s);
      [| assumption].
    intros Hin. apply in_app_or in Hin. destruct Hin as [[H | []] | Hin]; [discriminate |].
    apply in_app_or in Hin. destruct Hin as [Hin | [H | []]]; [| discriminate].
    revert Hin. apply replace_all_keeps_out; [| assumption].
    intros [H | [H | []]]; discriminate.
Qed.

Lemma no_line_feed_app (a b : jsstring) :
  ~ In Ch.lf a -> ~ In Ch.lf b -> ~ In Ch.lf (a ++ b).
Proof. intros Ha Hb Hin. apply in_app_or in Hin. tauto. Qed.

End YamlLines.

(** C8, as stated, fails: a scalar element is not always on one line.
    A string that holds a line feed is put between double quotes with
    the line feed kept, so the array of the text [["a\nb"]] gives two
    lines for its one element. *)
Lemma jsonToYaml_scalar_on_two_lines :
  JSON_parse two_lines_array = Some (JArr [JStr two_lines]) /\
  jsonToYaml (JStr two_lines_array)
  = Ok (lit "- " ++ [Ch.quote] ++ lit "a" ++ [Ch.lf] ++ lit "b" ++ [Ch.quote] ++ [Ch.lf]) /\
  split Ch.lf (lit "- " ++ [Ch.quote] ++ lit "a" ++ [Ch.lf] ++ lit "b" ++ [Ch.quote] ++ [Ch.lf])
  = [lit "- " ++ [Ch.quote] ++ lit "a"; lit "b" ++ [Ch.quote]; []] /\
  In Ch.lf (lit "- " ++ formatYamlValue (JStr two_lines)).
Proof.
  split; [vm_compute; reflexivity |].
  split; [vm_compute; reflexivity |].
  split; [vm_compute; reflexivity |].
  vm_compute. tauto.
Qed.

(** C8, amended: [jsonToYaml] writes a scalar element of an array as
    [- scalar] and a line feed, a key whose value is an object or array
    as [key:] and a line feed followed by the block of the value one
    two-space level deeper, and a key with a scalar value as
    [key: scalar] and a line feed.  Each is one line (the key alone on
    its line) as long as the key and a string scalar hold no line feed;
    the text of [null], of a boolean and of a number never does.
    [{a:[1,2],b:{c:3}}] gives the lines [a:], [  - 1], [  - 2], [b:],
    [  c: 3]. *)
Theorem jsonToYaml_blocks :
  (forall (items : list JsonValue) (indent : nat),
     exists blocks,
       convertToYaml (JArr items) indent = concat blocks /\
       Forall2 (fun item block =>
         is_container item = false ->
         block = repeat_str (lit "  ") indent ++ lit "- " ++ formatYamlValue item ++ [Ch.lf] /\
         ((forall s, item = JStr s -> ~ In Ch.lf s) ->
          ~ In Ch.lf (repeat_str (lit "  ") indent ++ lit "- " ++ formatYamlValue item)))
         items blocks) /\
  (forall (entries : JsonObject) (indent : nat),
     exists blocks,
       convertToYaml (JObj entries) indent = concat blocks /\
       Forall2 (fun kv block =>
         (is_container (snd kv) = true ->
          block = repeat_str (lit "  ") indent ++ fst kv ++ lit ":" ++ [Ch.lf]
                  ++ convertToYaml (snd kv) (indent + 1) /\
          (~ In Ch.lf (fst kv) ->
           ~ In Ch.lf (repeat_str (lit "  ") indent ++ fst kv ++ lit ":"))) /\
         (is_container (snd kv) = false ->
          block = repeat_str (lit "  ") indent ++ fst kv ++ lit ": "
                  ++ formatYamlValue (snd kv) ++ [Ch.lf] /\
          (~ In Ch.lf (fst kv) -> (forall s, snd kv = JStr s -> ~ In Ch.lf s) ->
           ~ In Ch.lf (repeat_str (lit "  ") indent ++ fst kv ++ lit ": "
                       ++ formatYamlValue (snd kv)))))
         entries blocks) /\
  (forall v : JsonValue, is_container v = true -> jsonToYaml v = Ok (convertToYaml v 0)) /\
  jsonToYaml (JObj [(lit "a", JArr [JNum (num 1); JNum (num 2)]);
                    (lit "b", JObj [(lit "c", JNum (num 3))])])
  = Ok (lit "a:" ++ [Ch.lf] ++ lit "  - 1" ++ [Ch.lf] ++ lit "  - 2" ++ [Ch.lf]
        ++ lit "b:" ++ [Ch.lf] ++ lit "  c: 3" ++ [Ch.lf]).
Proof.
  assert (Hdash : ~ In Ch.lf (lit "- ")) by (intros [H | [H | []]]; discriminate).
  assert (Hcolon : ~ In Ch.lf (lit ":")) by (intros [H | []]; discriminate).
  assert (Hcolon_space : ~ In Ch.lf (lit ": ")) by (intros [H | [H | []]]; discriminate).
  split; [| split; [| split]].
  - intros items indent.
    destruct (convertToYaml_array items indent) as (blocks & Heq & Hall).
    exists blocks. split; [assumption |].
    revert Hall. apply Forall2_impl. intros item block [Hscalar _] Hitem.
    split; [exact (Hscalar Hitem) |].
    intros Hstr. repeat apply no_line_feed_app; try assumption.
    + apply yaml_indentation_no_line_feed.
    + now apply formatYamlValue_one_line.
  - intros entries indent.
    destruct (convertToYaml_object entries indent) as (blocks & Heq & Hall).
    exists blocks. split; [assumption |].
    revert Hall. apply Forall2_impl. intros kv block [Hscalar Hnested].
    split.
    + intros Hkv. split; [exact (Hnested Hkv) |].
      intros Hkey. repeat apply no_line_feed_app; try assumption.
      apply yaml_indentation_no_line_feed.
    + intros Hkv. split; [exact (Hscalar Hkv) |].
      intros Hkey Hstr. repeat apply no_line_feed_app; try assumption.
      * apply yaml_indentation_no_line_feed.
      * now apply formatYamlValue_one_line.
  - intros v Hv. destruct v; try discriminate; reflexivity.
  - vm_compute. reflexivity.
Qed.

Lemma jsonToYaml_blocks_witness :
  convertToYaml (JArr [JNum (num 1)]) 1 = lit "  - 1" ++ [Ch.lf] /\
  ~ In Ch.lf (lit "  - 1") /\
  convertToYaml (JObj [(lit "b", JObj [])]) 0 = lit "b:" ++ [Ch.lf] /\
  ~ In Ch.lf (lit "b:").
Proof.
  destruct jsonToYaml_blocks as (Harray & Hobject & _).
  destruct (Harray [JNum (num 1)] 1) as (blocks & Htext & Hblocks).
  destruct (Hobject [(lit "b", JObj [])] 0) as (blocks' & Htext' & Hblocks').
  inversion Hblocks as [| item block items rest Hblock Hrest]; subst.
  inversion Hrest; subst.
  inversion Hblocks' as [| kv block' entries rest' Hblock' Hrest']; subst.
  inversion Hrest'; subst.
  destruct (Hblock eq_refl) as [Hline Hone].
  destruct Hblock' as [Hnested _]. destruct (Hnested eq_refl) as [Hline' Hone'].
  rewrite Htext, Htext', Hline, Hline'. repeat split.
  - apply Hone. discriminate.
  - apply Hone'. intros [H | []]. discriminate.
Defined.

(** ** The tabs of the page *)

Ltac pick_tab :=
  repeat match goal with
         | |- context [jsstring_eqb (lit ?a) (lit ?b)] =>
             let r := eval vm_compute in (jsstring_eqb (lit a) (lit b)) in
             change (jsstring_eqb (lit a) (lit b)) with r
         end;
  cbv iota.

(** X22: What the conversion tabs of the page show.  Nothing for an input
    that does not parse or parses to a falsy value.  For an array or an
    object the conversion itself, never an error.  A string value is
    handed to the converters as a text to parse, so for an input that is
    a JSON string the tabs convert what the string's own text parses to,
    and show "Error: Invalid JSON input" when that text is not JSON.
    For [true] and for a number other than 0 the CSV tab shows the shape
    error. *)
Theorem getOutputContent_tabs
    (host native : jsstring -> jsstring) (inputJson outputJson : jsstring) :
  (falsy (parseJson inputJson) = true ->
   forall tab, getOutputContent host native inputJson outputJson tab = []) /\
  (forall v, JSON_parse inputJson = Some v -> is_container v = true ->
     jsonToXml v = Ok (getOutputContent host native inputJson outputJson (lit "xml")) /\
     jsonToCsv native v = Ok (getOutputContent host native inputJson outputJson (lit "csv")) /\
     jsonToYaml v = Ok (getOutputContent host native inputJson outputJson (lit "yaml"))) /\
  (forall s, JSON_parse inputJson = Some (JStr s) -> s <> [] ->
     getOutputContent host native inputJson outputJson (lit "xml") = shown (jsonToXml (JStr s)) /\
     (JSON_parse s = None ->
      getOutputContent host native inputJson outputJson (lit "xml")
      = lit "Error: Invalid JSON input" /\
      getOutputContent host native inputJson outputJson (lit "csv")
      = lit "Error: Invalid JSON input" /\
      getOutputContent host native inputJson outputJson (lit "yaml")
      = lit "Error: Invalid JSON input")) /\
  (forall v, JSON_parse inputJson = Some v ->
     falsy v = false -> is_container v = false -> (forall s, v <> JStr s) ->
     getOutputContent host native inputJson outputJson (lit "csv")
     = lit "Error: " ++ csv_shape_error).
Proof.
  unfold getOutputContent, parseJson.
  split; [| split; [| split]].
  - intros ->. reflexivity.
  - intros v -> Hv.
    destruct v as [| b | x | s | items | entries]; try discriminate;
      cbn [falsy]; pick_tab.
    + repeat split; try reflexivity.
      unfold jsonToCsv. cbn [resolve_input falsy]. destruct items; reflexivity.
    + repeat split; reflexivity.
  - intros s -> Hs.
    assert (Hfalsy : falsy (JStr s) = false) by (destruct s; [contradiction | reflexivity]).
    rewrite Hfalsy. split; [reflexivity |].
    intros Hparse.
    pick_tab. unfold jsonToXml, jsonToCsv, jsonToYaml.
    cbn [resolve_input]. unfold parseJson. rewrite Hparse. repeat split.
  - intros v -> Hfalsy Hscalar Hstr. rewrite Hfalsy.
    pick_tab. unfold jsonToCsv.
    destruct v as [| b | x | s | items | entries]; try discriminate.
    + cbn [resolve_input]. rewrite Hfalsy. reflexivity.
    + cbn [resolve_input]. rewrite Hfalsy. reflexivity.
    + now destruct (Hstr s).
Qed.

Lemma getOutputContent_tabs_witness :
  getOutputContent (fun _ => lit "SyntaxError") v8_function_text
    ([Ch.quote] ++ lit "hello" ++ [Ch.quote]) [] (lit "xml")
  = lit "Error: Invalid JSON input".
Proof.
  destruct (getOutputContent_tabs (fun _ => lit "SyntaxError") v8_function_text
              ([Ch.quote] ++ lit "hello" ++ [Ch.quote]) [])
    as (_ & _ & Hstring & _).
  destruct (Hstring (lit "hello")) as [_ Herror].
  - vm_compute. reflexivity.
  - discriminate.
  - destruct Herror as [Hxml _]; [vm_compute; reflexivity | exact Hxml].
Defined.

(** ** TreeView: the expanded nodes *)

Section Expanded.

Lemma Set_has_In (s : list jsstring) (x : jsstring) : Set_has s x = true <-> In x s.
Proof. apply existsb_eqb_In. Qed.

Lemma Set_delete_In (s : list jsstring) (x y : jsstring) :
  In y (Set_delete s x) <-> In y s /\ y <> x.
Proof.
  unfold Set_delete. rewrite filter_In, negb_true_iff. apply and_iff_compat_l.
  split.
  - intros Hne ->. now rewrite jsstring_eqb_refl in Hne.
  - intros Hne. apply jsstring_eqb_neq. congruence.
Qed.

Lemma toggleNode_In (s : list jsstring) (path q : jsstring) :
  In q (toggleNode s path) <-> (q = path /\ ~ In path s) \/ (q <> path /\ In q s).
Proof.
  unfold toggleNode. destruct (Set_has s path) eqn:Hhas.
  - apply Set_has_In in Hhas. rewrite Set_delete_In. split.
    + intros [Hq Hne]. now right.
    + intros [[-> Hnot] | [Hne Hq]]; [contradiction | now split].
  - assert (Hnot : ~ In path s)
      by (intros Hin; apply Set_has_In in Hin; congruence).
    destruct (Set_add_cases s path) as [[Hin _] | [_ ->]]; [contradiction |].
    rewrite in_app_iff. cbn [In]. split.
    + intros [Hq | [<- | []]]; [right | now left].
      split; [intros ->; contradiction | assumption].
    + intros [[-> _] | [_ Hq]]; [right; now left | now left].
Qed.

End Expanded.

(** X23: A click changes the state of the node clicked and of no other: the
    path is expanded after [toggleNode] exactly when it was not before,
    and every other path stays as it was.  Two clicks on a node leave
    every path as it was, and the set keeps each path once. *)
Theorem toggleNode_flips_one (expandedNodes : list jsstring) (path : jsstring) :
  (Set_has (toggleNode expandedNodes path) path = negb (Set_has expandedNodes path)) /\
  (forall q, q <> path ->
     Set_has (toggleNode expandedNodes path) q = Set_has expandedNodes q) /\
  (forall q,
     Set_has (toggleNode (toggleNode expandedNodes path) path) q
     = Set_has expandedNodes q) /\
  (NoDup expandedNodes -> NoDup (toggleNode expandedNodes path)).
Proof.
  assert (Hbool : forall a b : bool, (a = true <-> b = true) -> a = b)
    by (intros [|] [|] [H1 H2]; auto; symmetry; auto).
  split; [| split; [| split]].
  - apply Hbool. rewrite negb_true_iff, Set_has_In, toggleNode_In.
    split.
    + intros [[_ Hnot] | [Hne _]]; [| congruence].
      apply not_true_is_false. now rewrite Set_has_In.
    + intros Hhas. left. split; [reflexivity |].
      intros Hin. apply Set_has_In in Hin. congruence.
  - intros q Hq. apply Hbool. rewrite !Set_has_In, toggleNode_In. tauto.
  - intros q. apply Hbool. rewrite !Set_has_In, !toggleNode_In.
    destruct (list_eq_dec N.eq_dec q path) as [-> | Hne];
      destruct (in_dec (list_eq_dec N.eq_dec) path expandedNodes); tauto.
  - intros Hnd. unfold toggleNode. destruct (Set_has expandedNodes path) eqn:Hhas.
    + unfold Set_delete. now apply NoDup_filter.
    + destruct (Set_add_cases expandedNodes path) as [[_ ->] | [Hnot ->]];
        [assumption |].
      apply NoDup_app; [assumption | repeat constructor; intros [] |].
      intros x Hx [<- | []]. contradiction.
Qed.

Lemma toggleNode_flips_one_witness :
  NoDup (toggleNode [lit "root"] (lit "root.a")).
Proof.
  destruct (toggleNode_flips_one [lit "root"] (lit "root.a")) as (_ & _ & _ & Hnd).
  apply Hnd. repeat constructor. intros [].
Defined.

(** ** TreeView: the paths of the nodes *)

Section Paths.

Lemma in_flat_mapi {A B : Type} (f : nat -> A -> list B) (l : list A) (x : B) :
  forall k,
    In x (flat_mapi f k l) <->
    exists i a, nth_error l i = Some a /\ In x (f (k + i) a).
Proof.
  induction l as [| y l IH]; intros k; cbn [flat_mapi].
  - split; [contradiction |]. intros (i & a & Hnth & _). destruct i; discriminate.
  - rewrite in_app_iff, IH. split.
    + intros [Hx | (i & a & Hnth & Hx)].
      * exists 0, y. rewrite Nat.add_0_r. now split.
      * exists (S i), a. split; [assumption |].
        now replace (k + S i) with (S k + i) by lia.
    + intros ([| i] & a & Hnth & Hx).
      * left. cbn in Hnth. injection Hnth as <-. now rewrite Nat.add_0_r in Hx.
      * right. exists i, a. split; [assumption |].
        now replace (S k + i) with (k + S i) by lia.
Qed.

Lemma NoDup_flat_mapi {A B : Type} (f : nat -> A -> list B) (l : list A) :
  forall k,
    (forall i a, nth_error l i = Some a -> NoDup (f (k + i) a)) ->
    (forall i j a b x, i <> j -> nth_error l i = Some a -> nth_error l j = Some b ->
       In x (f (k + i) a) -> In x (f (k + j) b) -> False) ->
    NoDup (flat_mapi f k l).
Proof.
  induction l as [| y l IH]; intros k Heach Hapart; cbn [flat_mapi]; [constructor |].
  apply NoDup_app.
  - specialize (Heach 0 y eq_refl). now rewrite Nat.add_0_r in Heach.
  - apply IH.
    + intros i a Hnth. replace (S k + i) with (k + S i) by lia. now apply Heach.
    + intros i j a b x Hij Ha Hb.
      replace (S k + i) with (k + S i) by lia.
      replace (S k + j) with (k + S j) by lia.
      apply (Hapart (S i) (S j)); [lia | assumption | assumption].
  - intros x Hx Hin. apply in_flat_mapi in Hin. destruct Hin as (i & a & Hnth & Hin).
    replace (S k + i) with (k + S i) in Hin by lia.
    apply (Hapart 0 (S i) y a x); [lia | reflexivity | assumption | | assumption].
    now rewrite Nat.add_0_r.
Qed.

Lemma flat_map_flat_mapi {A B : Type} (g : A -> list B) (l : list A) :
  forall k, flat_map g l = flat_mapi (fun _ => g) k l.
Proof.
  induction l as [| y l IH]; intros k; [reflexivity |].
  cbn [flat_map flat_mapi]. now rewrite (IH (S k)).
Qed.

(** A key without a dot is what stands before the first dot. *)
Lemma dot_free_prefix (k1 k2 t1 t2 : jsstring) :
  ~ In Ch.dot k1 -> ~ In Ch.dot k2 ->
  (t1 = [] \/ exists r, t1 = Ch.dot :: r) ->
  (t2 = [] \/ exists r, t2 = Ch.dot :: r) ->
  k1 ++ t1 = k2 ++ t2 -> k1 = k2.
Proof.
  revert k2. induction k1 as [| c k1 IH]; intros [| d k2] H1 H2 T1 T2 Heq.
  - reflexivity.
  - exfalso. apply H2. cbn [app] in Heq.
    destruct T1 as [-> | [r ->]]; [discriminate |].
    injection Heq as <- _. now left.
  - exfalso. apply H1. cbn [app] in Heq.
    destruct T2 as [-> | [r ->]]; [discriminate |].
    injection Heq as -> _. now left.
  - cbn [app] in Heq. injection Heq as -> Heq. f_equal.
    apply IH; try assumption; intros Hin; [apply H1 | apply H2]; now right.
Qed.

Lemma show_digits_injective (a b : list N) : show_digits a = show_digits b -> a = b.
Proof.
  revert b. induction a as [| x a IH]; intros [| y b]; try discriminate; [reflexivity |].
  unfold show_digits. cbn [map]. intros H.
  assert (Hxy : digit_char x = digit_char y) by congruence.
  assert (Hab : map digit_char a = map digit_char b) by congruence.
  unfold digit_char in Hxy. f_equal; [lia | now apply IH].
Qed.

Lemma show_nat_injective (i j : nat) : show_nat i = show_nat j -> i = j.
Proof.
  unfold show_nat, show_N. intros H. apply show_digits_injective in H.
  apply (f_equal digits_value) in H. rewrite !digits_of_value in H. lia.
Qed.

Lemma show_nat_no_dot (i : nat) : ~ In Ch.dot (show_nat i).
Proof.
  unfold show_nat, show_N, show_digits. rewrite in_map_iff.
  intros (d & Hd & Hin).
  pose proof (digits_of_ok (N.of_nat i)) as Hok.
  unfold digits_ok in Hok. rewrite Forall_forall in Hok. apply Hok in Hin.
  unfold digit_char, Ch.dot in Hd. lia.
Qed.

(** A path of a node below [path] is [path] itself or goes on with a
    dot. *)
Lemma node_paths_below (v : JsonValue) :
  forall path q,
    In q (node_paths v path) ->
    exists tail, q = path ++ tail /\ (tail = [] \/ exists r, tail = Ch.dot :: r).
Proof.
  induction v as [| b | x | s | items IH | entries IH] using JsonValue_ind';
    intros path q Hq; try contradiction.
  - cbn [node_paths In] in Hq. destruct Hq as [<- | Hq].
    { exists []. split; [now rewrite app_nil_r | now left]. }
    apply in_flat_mapi in Hq. destruct Hq as (i & item & Hnth & Hq).
    rewrite Forall_forall in IH.
    destruct (IH item (nth_error_In _ _ Hnth) _ _ Hq) as (tail & -> & _).
    exists (Ch.dot :: show_nat (0 + i) ++ tail). split; [| right; eauto].
    unfold child_path. now rewrite <- !app_assoc.
  - cbn [node_paths In] in Hq. destruct Hq as [<- | Hq].
    { exists []. split; [now rewrite app_nil_r | now left]. }
    apply in_flat_map in Hq. destruct Hq as (kv & Hkv & Hq).
    rewrite Forall_forall in IH.
    destruct (IH kv Hkv _ _ Hq) as (tail & -> & _).
    exists (Ch.dot :: fst kv ++ tail). split; [| right; eauto].
    unfold child_path. now rewrite <- !app_assoc.
Qed.

Lemma children_apart (path k1 k2 q : jsstring) (a b : JsonValue) :
  ~ In Ch.dot k1 -> ~ In Ch.dot k2 -> k1 <> k2 ->
  In q (node_paths a (child_path path k1)) ->
  In q (node_paths b (child_path path k2)) -> False.
Proof.
  intros H1 H2 Hne Ha Hb.
  destruct (node_paths_below a _ _ Ha) as (t1 & -> & T1).
  destruct (node_paths_below b _ _ Hb) as (t2 & Heq & T2).
  unfold child_path in Heq. rewrite <- !app_assoc in Heq.
  apply app_inv_head in Heq. cbn [app] in Heq. injection Heq as Heq.
  apply Hne. now apply (dot_free_prefix k1 k2 t1 t2).
Qed.

Lemma path_not_below (path k q : jsstring) (a : JsonValue) :
  In q (node_paths a (child_path path k)) -> q <> path.
Proof.
  intros Ha Heq. destruct (node_paths_below a _ _ Ha) as (t & Hq & _).
  subst q. unfold child_path in Hq. rewrite <- !app_assoc in Hq.
  rewrite <- (app_nil_r path) in Hq at 1. apply app_inv_head in Hq. discriminate.
Qed.

Lemma plain_keys_array (items : list JsonValue) :
  plain_keys (JArr items) <-> Forall plain_keys items.
Proof.
  cbn [plain_keys]. induction items as [| x items IH].
  - split; constructor.
  - rewrite IH. split.
    + intros [Hx Hall]. now constructor.
    + intros Hall. now inversion Hall.
Qed.

Lemma plain_keys_object (entries : JsonObject) :
  plain_keys (JObj entries) <->
  NoDup (map fst entries) /\
  Forall (fun kv => ~ In Ch.dot (fst kv) /\ plain_keys (snd kv)) entries.
Proof.
  cbn [plain_keys]. apply and_iff_compat_l.
  induction entries as [| kv entries IH].
  - split; constructor.
  - rewrite IH. split.
    + intros [Hx Hall]. now constructor.
    + intros Hall. now inversion Hall.
Qed.

Lemma node_paths_NoDup (v : JsonValue) :
  plain_keys v -> forall path, NoDup (node_paths v path).
Proof.
  induction v as [| b | x | s | items IH | entries IH] using JsonValue_ind';
    intros Hkeys path; try constructor.
  - intros Hin. apply in_flat_mapi in Hin. destruct Hin as (i & item & _ & Hin).
    now apply path_not_below in Hin.
  - apply plain_keys_array in Hkeys. rewrite Forall_forall in IH, Hkeys.
    apply NoDup_flat_mapi.
    + intros i item Hnth. apply nth_error_In in Hnth. now apply IH; [| apply Hkeys].
    + intros i j a b q Hij _ _. apply children_apart; try apply show_nat_no_dot.
      intros Heq. apply show_nat_injective in Heq. lia.
  - intros Hin. apply in_flat_map in Hin. destruct Hin as (kv & _ & Hin).
    now apply path_not_below in Hin.
  - apply plain_keys_object in Hkeys. destruct Hkeys as [Hnd Hkeys].
    rewrite Forall_forall in IH, Hkeys.
    rewrite (flat_map_flat_mapi _ entries 0). apply NoDup_flat_mapi.
    + intros i kv Hnth. apply nth_error_In in Hnth. apply IH; [assumption |].
      now apply Hkeys.
    + intros i j a b q Hij Ha Hb.
      apply children_apart;
        try (eapply Hkeys, nth_error_In; eassumption).
      intros Heq. apply Hij.
      assert (Hi : nth_error (map fst entries) i = Some (fst a))
        by (rewrite nth_error_map, Ha; reflexivity).
      assert (Hj : nth_error (map fst entries) j = Some (fst b))
        by (rewrite nth_error_map, Hb; reflexivity).
      rewrite <- Heq in Hj. rewrite <- Hj in Hi.
      apply (proj1 (NoDup_nth_error (map fst entries)) Hnd); [| exact Hi].
      apply nth_error_Some. rewrite Hi, Hj. discriminate.
Qed.

End Paths.

(** X24: The state of a node is kept under its path.  When the keys of
    every object are distinct and without a dot, no two nodes of the
    tree have the same path, so that each node expands on its own.  With
    a dot in a key two nodes can share a path: in
    [{"a.b": [], "a": {"b": []}}] both arrays have the path
    [root.a.b], and a click on one expands the other too. *)
Theorem TreeView_paths_distinct (value : JsonValue) (path : jsstring) :
  (plain_keys value -> NoDup (node_paths value path)) /\
  node_paths dotted_keys (lit "root")
  = [lit "root"; lit "root.a.b"; lit "root.a"; lit "root.a.b"].
Proof.
  split; [intros Hkeys; now apply node_paths_NoDup | reflexivity].
Qed.

Lemma TreeView_paths_distinct_witness :
  NoDup (node_paths (JObj [(lit "a", JArr [JArr []; JObj []])]) (lit "root")).
Proof.
  destruct (TreeView_paths_distinct (JObj [(lit "a", JArr [JArr []; JObj []])])
              (lit "root")) as [Hdistinct _].
  apply Hdistinct. cbn [plain_keys map fst snd]. repeat split.
  - repeat constructor. intros [].
  - cbn. intros [H | []]. discriminate.
  - constructor.
Defined.

(** ** The samples *)

(** X25: Every sample the toolbar loads is valid JSON that is already
    formatted: [validateJson] accepts it, [formatJson] with the default
    two spaces returns it unchanged, minifying and formatting again
    gives it back, and the three converters convert it. *)
Theorem samples_are_formatted (host native : jsstring -> jsstring) (key : SampleKey) :
  JSON_parse (getSample key) = Some (sample_value key) /\
  valid (validateJson host (getSample key)) = true /\
  formatJson host (getSample key) 2
  = {| formatted := getSample key; format_error := None |} /\
  formatJson host (formatted (minifyJson host (getSample key))) 2
  = {| formatted := getSample key; format_error := None |} /\
  (exists text, jsonToXml (JStr (getSample key)) = Ok text) /\
  (exists text, jsonToCsv native (JStr (getSample key)) = Ok text) /\
  (exists text, jsonToYaml (JStr (getSample key)) = Ok text).
Proof.
  assert (Hparse : JSON_parse (getSample key) = Some (sample_value key))
    by (destruct key; vm_compute; reflexivity).
  pose proof (JSON_parse_wf _ _ Hparse) as Hwf.
  split; [exact Hparse |]. split; [| split; [| split; [| split; [| split]]]].
  - unfold validateJson.
    now rewrite (JSON_parse_not_blank _ _ Hparse), Hparse.
  - now rewrite (formatJson_parsed host _ _ 2 Hparse).
  - rewrite (minifyJson_parsed host _ _ Hparse). cbn [formatted].
    rewrite (formatJson_parsed host _ _ 2 (JSON_parse_stringify_compact _ Hwf)).
    unfold getSample, JSON_stringify. now rewrite stringified_Serialize.
  - unfold jsonToXml. cbn [resolve_input]. unfold parseJson. rewrite Hparse.
    destruct key; eexists; reflexivity.
  - unfold jsonToCsv. cbn [resolve_input]. unfold parseJson. rewrite Hparse.
    destruct key; eexists; reflexivity.
  - unfold jsonToYaml. cbn [resolve_input]. unfold parseJson. rewrite Hparse.
    destruct key; eexists; reflexivity.
Qed.
